(** * Numeric conversion helpers of the Liberdus web client ([lib.js])

    A shallow embedding of the amount helpers of [lib.js]:
    [big2num], [bigxnum2big], [bigxnum2num], [big2str] and
    [normalizeUnsignedFloat], with theorems about what they compute.

    - JavaScript strings are lists of characters ([str]).  A character is
      a code unit below 256 (ASCII and Latin-1); strings with larger code
      units are outside the model.  Every character the amount helpers look
      at is an ASCII digit, a dot, a minus sign or white space, and every
      other character is only ever dropped or rejected.
    - A [BigInt] is a [Z]; a [Number] is a primitive binary64 float.
    - [Math.pow(10, n)] and [10 ** n] are exact as long as [10^n] is a
      double ([n <= 22]).  Beyond that the language leaves the result to
      the engine; the model takes the engine's values as a parameter
      [pow10 : nat -> float] and assumes nothing about them. *)

From Stdlib Require Import ZArith Bool Ascii String List Lia Floats QArith Qabs.
Import ListNotations.

Local Open Scope Z_scope.

(** ** Strings *)

Definition str := list ascii.

(** String literals of the source, written as Rocq strings. *)
Definition lit (s : string) : str := list_ascii_of_string s.

Definition chr_dot : ascii := "."%char.
Definition chr_zero : ascii := "0"%char.
Definition chr_minus : ascii := "-"%char.

Definition is_dot (c : ascii) : bool := Ascii.eqb c chr_dot.
Definition is_zero (c : ascii) : bool := Ascii.eqb c chr_zero.

(** The character class [[0-9]]. *)
Definition is_digit (c : ascii) : bool :=
  ((48 <=? nat_of_ascii c) && (nat_of_ascii c <=? 57))%nat.

(** The character class [[0-9.]]. *)
Definition is_digit_or_dot (c : ascii) : bool := is_digit c || is_dot c.

(** [String.prototype.slice(a, b)] and [slice(a)] for indices
    [0 <= a]; the source never passes a negative index. *)
Definition slice (s : str) (a b : nat) : str := firstn (b - a) (skipn a s).
Definition slice_from (s : str) (a : nat) : str := skipn a s.

(** [String.prototype.padStart(n, c)] with a one-character filler. *)
Definition padStart (s : str) (n : nat) (c : ascii) : str :=
  repeat c (n - length s) ++ s.

(** [String.prototype.indexOf('.')]; [None] stands for [-1]. *)
Fixpoint indexOf_dot (s : str) : option nat :=
  match s with
  | [] => None
  | c :: t => if is_dot c then Some O
              else option_map S (indexOf_dot t)
  end.

Definition includes_dot (s : str) : bool := existsb is_dot s.

Definition startsWith_dot (s : str) : bool :=
  match s with
  | c :: _ => is_dot c
  | [] => false
  end.

(** [s.replace(/\./g, '')] *)
Definition remove_dots (s : str) : str := filter (fun c => negb (is_dot c)) s.

(** [s.replace('.', '')]: only the first dot goes. *)
Fixpoint remove_first_dot (s : str) : str :=
  match s with
  | [] => []
  | c :: t => if is_dot c then t else c :: remove_first_dot t
  end.

(** [s.replace(/^0+/, '')] *)
Fixpoint strip_leading_zeros (s : str) : str :=
  match s with
  | c :: t => if is_zero c then strip_leading_zeros t else s
  | [] => []
  end.

(** [s.match(/^0+$/)] as a truth value. *)
Definition all_zeros (s : str) : bool :=
  match s with
  | [] => false
  | _ => forallb is_zero s
  end.

(** [s.replace(/\.0*$/, '')]: the leftmost dot that is followed by zeros
    only, up to the end of the string, is cut off with those zeros. *)
Fixpoint strip_dot_zeros (s : str) : str :=
  match s with
  | [] => []
  | c :: t => if is_dot c && forallb is_zero t then []
              else c :: strip_dot_zeros t
  end.

(** [s.split('.')] *)
Fixpoint split_dot_aux (cur : str) (s : str) : list str :=
  match s with
  | [] => [rev cur]
  | c :: t => if is_dot c then rev cur :: split_dot_aux [] t
              else split_dot_aux (c :: cur) t
  end.

Definition split_dot (s : str) : list str := split_dot_aux [] s.

(** White space and line terminators of [String.prototype.trim],
    [BigInt(string)], [Number(string)] and the [\s] of regular
    expressions, among the code units below 256: TAB, LF, VT, FF, CR,
    SPACE and the no-break space U+00A0. *)
Definition is_space (c : ascii) : bool :=
  let n := nat_of_ascii c in
  ((9 <=? n) && (n <=? 13) || (n =? 32) || (n =? 160))%nat.

Fixpoint trim_start (s : str) : str :=
  match s with
  | c :: t => if is_space c then trim_start t else s
  | [] => []
  end.

Definition trim (s : str) : str := rev (trim_start (rev (trim_start s))).

(** ** Decimal digits *)

Definition digit_char (d : Z) : ascii := ascii_of_nat (48 + Z.to_nat d).
Definition digit_val (c : ascii) : Z := Z.of_nat (nat_of_ascii c) - 48.

(** The number a string of decimal digits denotes, most significant
    digit first. *)
Definition digits_val (s : str) : Z :=
  fold_left (fun acc c => 10 * acc + digit_val c) s 0.

(** Decimal digits of [n >= 0], most significant first, pushed in front of
    [acc]; [fuel] bounds the number of digits. *)
Fixpoint digits_acc (fuel : nat) (n : Z) (acc : str) : str :=
  match fuel with
  | O => acc
  | S f => let acc' := digit_char (n mod 10) :: acc in
           if n <? 10 then acc' else digits_acc f (n / 10) acc'
  end.

(** A number has no more decimal digits than binary ones. *)
Definition digits_fuel (n : Z) : nat := S (Z.to_nat (Z.log2 n)).

Definition digits (n : Z) : str := digits_acc (digits_fuel n) n [].

(** [BigInt.prototype.toString()] *)
Definition BigInt_toString (n : Z) : str :=
  if n <? 0 then chr_minus :: digits (- n) else digits n.

(** ** [big2str] *)

Definition big2str (amount : Z) (decimals : nat) : str :=
  let amountString := BigInt_toString amount in
  let amountString := padStart amountString decimals chr_zero in
  let insertPosition := (length amountString - decimals)%nat in
  if (insertPosition =? 0)%nat
  then lit "0." ++ amountString
  else slice amountString 0 insertPosition ++ lit "." ++
       slice_from amountString insertPosition.

(** ** Numbers

    [Number] values are binary64 floats.  An integer is converted by
    rounding to nearest, ties to even, as [Number(string)] does for a
    string of decimal digits. *)

Definition Z2Number (z : Z) : float :=
  SF2Prim (binary_normalize prec emax z 0 false).

(** [Number(s)] on the strings the source applies it to: slices of the
    decimal string of a BigInt, that is digits with at most a leading minus
    sign.  The empty string is [0], a string that is no numeral is [NaN].
    Fractions, exponents, radix prefixes and [Infinity] never reach it and
    are not modelled. *)
Definition Number_of_str (s : str) : float :=
  match trim s with
  | [] => 0%float
  | c :: t =>
      if Ascii.eqb c chr_minus then
        match t with
        | [] => nan
        | _ => if forallb is_digit t then (- Z2Number (digits_val t))%float
               else nan
        end
      else if forallb is_digit (c :: t) then Z2Number (digits_val (c :: t))
      else nan
  end.

(** [Math.pow(10, n)] and [10 ** n] for an integer [n >= 0].  Up to
    [n = 22] the power [10^n] is a double and the result is that double.
    From [n = 23] on [10^n] is no double and the result is an
    approximation the engine chooses, not always the nearest double:
    [pow10 n] stands for it. *)
Definition Math_pow10 (pow10 : nat -> float) (n : nat) : float :=
  if (n <=? 22)%nat then Z2Number (10 ^ Z.of_nat n) else pow10 n.

(** One engine: the one whose powers of ten beyond [10^22] are the nearest
    doubles.  It serves to run the functions on concrete inputs. *)
Definition nearest_pow10 (n : nat) : float := Z2Number (10 ^ Z.of_nat n).

(** [BigInt(x)] for a Number [x]: the integer [x] is, a [RangeError]
    ([None]) when [x] is no integer. *)
Definition BigInt_of_Number (x : float) : option Z :=
  match Prim2SF x with
  | S754_zero _ => Some 0
  | S754_finite s m e =>
      let v := if 0 <=? e then Z.pos m * 2 ^ e
               else Z.pos m / 2 ^ (- e) in
      if (0 <=? e) || (Z.pos m mod 2 ^ (- e) =? 0)
      then Some (if s then - v else v) else None
  | _ => None
  end.

(** Digits of a radix up to 16, for the prefixed literals of
    [BigInt(string)]. *)
Definition radix_digit (c : ascii) : option Z :=
  let n := nat_of_ascii c in
  if ((48 <=? n) && (n <=? 57))%nat then Some (Z.of_nat n - 48)
  else if ((97 <=? n) && (n <=? 102))%nat then Some (Z.of_nat n - 87)
  else if ((65 <=? n) && (n <=? 70))%nat then Some (Z.of_nat n - 55)
  else None.

Fixpoint radix_val (base : Z) (s : str) (acc : Z) : option Z :=
  match s with
  | [] => Some acc
  | c :: t => match radix_digit c with
              | Some d => if d <? base then radix_val base t (base * acc + d)
                          else None
              | None => None
              end
  end.

Definition radix_of_prefix (c : ascii) : option Z :=
  if Ascii.eqb c "x" || Ascii.eqb c "X" then Some 16
  else if Ascii.eqb c "o" || Ascii.eqb c "O" then Some 8
  else if Ascii.eqb c "b" || Ascii.eqb c "B" then Some 2
  else None.

Definition decimal_literal (s : str) : option Z :=
  match s with
  | [] => None
  | _ => if forallb is_digit s then Some (digits_val s) else None
  end.

(** [BigInt(s)] for a string: white space is trimmed, the empty string is
    [0n], then an optionally signed decimal numeral or an unsigned numeral
    with a radix prefix; anything else is a [SyntaxError] ([None]). *)
Definition BigInt_of_str (s : str) : option Z :=
  match trim s with
  | [] => Some 0
  | c :: t =>
      if Ascii.eqb c chr_minus then option_map Z.opp (decimal_literal t)
      else if Ascii.eqb c "+" then decimal_literal t
      else
        match t with
        | p :: ((_ :: _) as ds) =>
            match (if is_zero c then radix_of_prefix p else None) with
            | Some base => radix_val base ds 0
            | None => decimal_literal (c :: t)
            end
        | _ => decimal_literal (c :: t)
        end
  end.

(** ** [big2num] *)

Definition big2num (pow10 : nat -> float) (bigIntNum : Z) : float :=
  if bigIntNum =? 0 then 0%float
  else
    let isNegative := bigIntNum <? 0 in
    let absValue := if isNegative then - bigIntNum else bigIntNum in
    let str := BigInt_toString absValue in
    let length := length str in
    if (length <=? 15)%nat then
      if isNegative then (- Number_of_str str)%float else Number_of_str str
    else
      let firstFifteen := slice str 0 15 in
      let remainingDigits := (length - 15)%nat in
      let result :=
        (Number_of_str firstFifteen
         * Math_pow10 pow10 remainingDigits)%float in
      if isNegative then (- result)%float else result.

(** ** [bigxnum2big]

    JavaScript's BigInt division truncates toward zero: [Z.quot].  A thrown
    [SyntaxError] or [RangeError] is [None]. *)

Definition bigxnum2big (pow10 : nat -> float) (bigIntNum : Z)
    (stringNum : str) : option Z :=
  let stringNum := strip_dot_zeros (trim stringNum) in
  match indexOf_dot stringNum with
  | None => option_map (fun f => f * bigIntNum) (BigInt_of_str stringNum)
  | Some decimalPosition =>
      let decimalPlaces := (length stringNum - decimalPosition - 1)%nat in
      let numberWithoutDecimal := remove_first_dot stringNum in
      match BigInt_of_str numberWithoutDecimal with
      | None => None
      | Some f =>
          let scaledResult := f * bigIntNum in
          option_map (fun p => Z.quot scaledResult p)
                     (BigInt_of_Number (Math_pow10 pow10 decimalPlaces))
      end
  end.

(** ** [bigxnum2num] *)

Definition chunkSize : nat := 15.

(** The loop [for (let i = bigIntStr.length; i > 0; i -= chunkSize)], each
    round putting a chunk in front of [chunks] ([unshift]).  The counter is
    a [Z]: it may fall below zero, which ends the loop. *)
Fixpoint chunks_loop (fuel : nat) (bigIntStr : str) (i : Z)
    (chunks : list float) : list float :=
  match fuel with
  | O => chunks
  | S f =>
      if 0 <? i then
        let start := Z.max 0 (i - Z.of_nat chunkSize) in
        chunks_loop f bigIntStr (i - Z.of_nat chunkSize)
          (Number_of_str (slice bigIntStr (Z.to_nat start) (Z.to_nat i))
             :: chunks)
      else chunks
  end.

(** The loop [for (let i = 0; i < chunks.length; i++)] over the chunks
    from index [i] on. *)
Fixpoint sum_loop (pow10 : nat -> float) (rest : list float) (i : nat)
    (floatNum result : float) : float :=
  match rest with
  | [] => result
  | c :: t =>
      let multiplier := Math_pow10 pow10 (chunkSize * i) in
      sum_loop pow10 t (S i) floatNum
        (result + c * floatNum * multiplier)%float
  end.

Definition bigxnum2num_chunks (bigIntNum : Z) : list float :=
  let bigIntStr := BigInt_toString bigIntNum in
  chunks_loop (length bigIntStr) bigIntStr (Z.of_nat (length bigIntStr)) [].

Definition bigxnum2num (pow10 : nat -> float) (bigIntNum : Z)
    (floatNum : float) : float :=
  if (floatNum =? 0)%float then 0%float
  else if bigIntNum =? 0 then 0%float
  else sum_loop pow10 (bigxnum2num_chunks bigIntNum) 0 floatNum 0%float.

(** ** [normalizeUnsignedFloat] *)

(** The destructuring [const [wholePart, decimalPart] = s.split('.')]: the
    first two pieces, [None] for [undefined]. *)
Definition split_whole_decimal (s : str) : str * option str :=
  match split_dot s with
  | [] => ([], None)
  | [w] => (w, None)
  | w :: d :: _ => (w, Some d)
  end.

(** String concatenation with a piece that may be [undefined]. *)
Definition str_of_piece (d : option str) : str :=
  match d with
  | Some x => x
  | None => lit "undefined"
  end.

(** The block under [// keep only the first dot]. *)
Definition keep_first_dot (normalized : str) : str :=
  match indexOf_dot normalized with
  | Some firstDot =>
      slice normalized 0 (firstDot + 1) ++
      remove_dots (slice_from normalized (firstDot + 1))
  | None => normalized
  end.

(** The block under [// if the first character is a dot, add a 0 in
    front]. *)
Definition add_leading_zero (normalized : str) : str :=
  if startsWith_dot normalized then lit "0" ++ normalized else normalized.

(** The block under [// Handle numbers that exceed the 9-digit limit before
    decimal].  The second assignment starts from [wholePart] as it was
    split off, not from its first nine digits. *)
Definition limit_digits (normalized : str) : str :=
  if includes_dot normalized then
    let '(wholePart, decimalPart) := split_whole_decimal normalized in
    let normalized :=
      if (9 <? length wholePart)%nat
      then slice wholePart 0 9 ++ lit "." ++ str_of_piece decimalPart
      else normalized in
    match decimalPart with
    | Some d =>
        if negb (length d =? 0)%nat && (18 <? length d)%nat
        then wholePart ++ lit "." ++ slice d 0 18
        else normalized
    | None => normalized
    end
  else if (9 <? length normalized)%nat then slice normalized 0 9
  else normalized.

Definition normalizeUnsignedFloat (value : str) : str :=
  match value with
  | [] => []
  | _ =>
    let normalized := filter is_digit_or_dot value in
    if all_zeros normalized then lit "0"
    else
      let normalized := strip_leading_zeros normalized in
      let normalized := keep_first_dot normalized in
      let normalized := add_leading_zero normalized in
      limit_digits normalized
  end.

(** ** The DecimalString grammar

    [^(0|[1-9][0-9]{0,8})(\.[0-9]{1,18})?$], with the least number of
    fraction digits as a parameter. *)

Definition int_part_ok (w : str) : bool :=
  match w with
  | [] => false
  | c :: t =>
      if is_zero c then (length t =? 0)%nat
      else is_digit c && forallb is_digit t && (length t <=? 8)%nat
  end.

Definition frac_part_ok (least : nat) (f : str) : bool :=
  forallb is_digit f && (least <=? length f)%nat && (length f <=? 18)%nat.

Definition matches_decimal (least : nat) (s : str) : bool :=
  match indexOf_dot s with
  | None => int_part_ok s
  | Some i => int_part_ok (firstn i s) && frac_part_ok least (skipn (S i) s)
  end.

(** [^(0|[1-9][0-9]{0,8})(\.[0-9]{1,18})?$] *)
Definition is_DecimalString (s : str) : bool := matches_decimal 1 s.

(** [^(0|[1-9][0-9]{0,8})(\.[0-9]{0,18})?$]: a DecimalString that may
    still end in its decimal point. *)
Definition is_DecimalString_typing (s : str) : bool := matches_decimal 0 s.

(** ** The reference [parse] of the codec *)

Inductive ParseError : Set := InvalidFormat | PrecisionOverflow.

(** Modelled from the spec: [parse], the inverse of [big2str], which
    [lib.js] does not provide.  Text that is no DecimalString is rejected
    with [InvalidFormat]; the text is split on the decimal point; a
    fractional part longer than [decimals] is a [PrecisionOverflow], a
    shorter one is padded on the right with zeros to [decimals] digits; the
    integer and fractional digits are concatenated and read as an
    integer. *)
Definition parse (text : str) (decimals : nat) : ParseError + Z :=
  if negb (is_DecimalString text) then inl InvalidFormat
  else
    let '(intPart, fracPart) :=
      match indexOf_dot text with
      | Some i => (firstn i text, skipn (S i) text)
      | None => (text, [])
      end in
    if (decimals <? length fracPart)%nat then inl PrecisionOverflow
    else
      inr (digits_val
             (intPart ++ fracPart ++
              repeat chr_zero (decimals - length fracPart))).

(** ** Notions of the specification *)

(** The sum the specification describes the chunked approximation by:
    chunk [i] of [n] chunks, most significant first, weighs
    [10^(15 * (n - 1 - i))], and the result is the sum of
    [chunkValue * weight * factor]. *)
Fixpoint weighted_sum_spec (pow10 : nat -> float) (chunks : list float)
    (floatNum : float) : float :=
  match chunks with
  | [] => 0%float
  | c :: t =>
      (c * Math_pow10 pow10 (chunkSize * length t) * floatNum
       + weighted_sum_spec pow10 t floatNum)%float
  end.

(** The exact rational value of a finite double, in lowest terms. *)
Definition Number_to_Q (x : float) : option Q :=
  match Prim2SF x with
  | S754_zero _ => Some 0%Q
  | S754_finite s m e =>
      let v := if 0 <=? e then inject_Z (Z.pos m * 2 ^ e)
               else Qred (Z.pos m # Z.to_pos (2 ^ (- e)))%Q in
      Some (if s then Qopp v else v)
  | _ => None
  end.

(** The float64 epsilon, [2^-52]. *)
Definition float64_epsilon : Q := (1 # 4503599627370496)%Q.

(** Digits in front of the first dot of an input, leading zeros aside, and
    digits behind it, as [normalizeUnsignedFloat] sees them. *)
Definition int_digits (value : str) : str :=
  let r := strip_leading_zeros (filter is_digit_or_dot value) in
  match indexOf_dot r with
  | Some i => firstn i r
  | None => r
  end.

Definition frac_digits (value : str) : str :=
  let r := strip_leading_zeros (filter is_digit_or_dot value) in
  match indexOf_dot r with
  | Some i => remove_dots (skipn (S i) r)
  | None => []
  end.

(** The integer part as it stands after the zero is put in front of a
    leading dot. *)
Definition whole_shown (w : str) : str :=
  match w with
  | [] => lit "0"
  | _ => w
  end.

(** What the limiting block makes of the integer digits [w] and the
    fraction digits [f] around a dot. *)
Definition limited (w f : str) : str :=
  if (18 <? length f)%nat then whole_shown w ++ chr_dot :: firstn 18 f
  else if (9 <? length w)%nat then firstn 9 (whole_shown w) ++ chr_dot :: f
  else whole_shown w ++ chr_dot :: f.

(** Whether a string ends in a dot. *)
Definition ends_with_dot (s : str) : bool :=
  match rev s with
  | c :: _ => is_dot c
  | [] => false
  end.

(** * The other string helpers of [lib.js]

    For the helpers below a character is a UTF-16 code unit below 256:
    ASCII and the Latin-1 supplement.  Code units from 256 on are outside
    the model. *)

Definition code (c : ascii) : nat := nat_of_ascii c.

(** The character classes [[a-z]], [[A-Z]], [[a-zA-Z]], [[a-zA-Z0-9]] and
    [[0-9a-fA-F]]. *)
Definition is_lower (c : ascii) : bool :=
  ((97 <=? code c) && (code c <=? 122))%nat.
Definition is_upper (c : ascii) : bool :=
  ((65 <=? code c) && (code c <=? 90))%nat.
Definition is_alpha (c : ascii) : bool := is_lower c || is_upper c.
Definition is_alnum (c : ascii) : bool := is_alpha c || is_digit c.
Definition is_hex (c : ascii) : bool :=
  is_digit c || ((97 <=? code c) && (code c <=? 102))%nat
             || ((65 <=? code c) && (code c <=? 70))%nat.

Definition is_slash (c : ascii) : bool := Ascii.eqb c "/".
Definition is_hyphen (c : ascii) : bool := Ascii.eqb c "-".
Definition is_underscore (c : ascii) : bool := Ascii.eqb c "_".

(** [String.prototype.toLowerCase]: the letters [A-Z] and the Latin-1
    capitals (U+00C0 to U+00DE, the multiplication sign U+00D7 aside) move
    up by 32; every other code unit below 256 stays.  Over these code units
    lower-casing is character by character and keeps the length.  That
    fails for larger code units (U+0130 becomes two code units), which are
    outside the model. *)
Definition toLowerCase_char (c : ascii) : ascii :=
  let n := code c in
  if is_upper c || ((192 <=? n) && (n <=? 222) && negb (n =? 215))%nat
  then ascii_of_nat (n + 32) else c.

Definition toLowerCase (s : str) : str := map toLowerCase_char s.

(** [s.substring(a, b)] for indices [a, b >= 0]: the arguments are swapped
    when [a > b]. *)
Definition substring (s : str) (a b : nat) : str :=
  firstn (Nat.max a b - Nat.min a b) (skipn (Nat.min a b) s).

(** [s.replace(/^p+/, '')] for a character class [p]. *)
Fixpoint drop_leading (p : ascii -> bool) (s : str) : str :=
  match s with
  | c :: t => if p c then drop_leading p t else s
  | [] => []
  end.

(** [s.replace(/p+$/, '')]: the leftmost run of [p] that reaches the end
    of the string is cut off. *)
Fixpoint strip_trailing (p : ascii -> bool) (s : str) : str :=
  match s with
  | [] => []
  | c :: t => if p c && forallb p t then [] else c :: strip_trailing p t
  end.

(** [s.replace(/p+/g, r)]: every maximal run of [p] becomes one [r]; a
    character of the run is written, as [r], when it is the last of its
    run. *)
Fixpoint collapse_runs (p : ascii -> bool) (r : ascii) (s : str) : str :=
  match s with
  | [] => []
  | c :: t =>
      if p c then
        match t with
        | d :: _ => if p d then collapse_runs p r t
                    else r :: collapse_runs p r t
        | [] => [r]
        end
      else c :: collapse_runs p r t
  end.

(** [s.lastIndexOf('/')]; [None] stands for [-1]. *)
Fixpoint lastIndexOf_slash (s : str) : option nat :=
  match s with
  | [] => None
  | c :: t =>
      match lastIndexOf_slash t with
      | Some i => Some (S i)
      | None => if is_slash c then Some O else None
      end
  end.

Definition includes_slash (s : str) : bool := existsb is_slash s.

(** ** [normalizeUsername] *)

Definition normalizeUsername (u : str) : str :=
  let normalized := toLowerCase (filter is_alnum u) in
  substring normalized 0 15.

(** ** [normalizePhone] *)

Definition normalizePhone (s : str) (final : bool) : str :=
  match s with
  | [] => []
  | _ =>
      let normalized := filter is_digit s in
      let normalized := substring normalized 0 20 in
      if final && (length normalized <? 7)%nat then [] else normalized
  end.

(** ** [normalizeEmail] *)

(** The characters [[a-z0-9._%+-@]]: inside the class, [+-@] is the range
    from [+] (43) to [@] (64). *)
Definition is_email_char (c : ascii) : bool :=
  is_lower c || is_digit c || is_dot c || is_underscore c
  || Ascii.eqb c "%" || ((43 <=? code c) && (code c <=? 64))%nat.

(** [normalizeEmail].  Whatever white space [trim] takes off the ends, the
    filter that follows drops all white space anyway. *)
Definition normalizeEmail (s : str) : str :=
  match s with
  | [] => []
  | _ =>
      let s := toLowerCase s in
      let s := trim s in
      let s := filter is_email_char s in
      substring s 0 256
  end.

(** ** [normalizeLinkedinUsername] and [normalizeXTwitterUsername] *)

(** The block under [if (normalized.includes('/'))], the same in both
    functions: trailing slashes go, then everything up to the last
    slash. *)
Definition url_last_segment (normalized : str) : str :=
  if includes_slash normalized then
    let normalized := strip_trailing is_slash normalized in
    let start := match lastIndexOf_slash normalized with
                 | Some i => (i + 1)%nat
                 | None => O
                 end in
    skipn start normalized
  else normalized.

(** [[a-zA-Z0-9-]] *)
Definition is_linkedin_char (c : ascii) : bool := is_alnum c || is_hyphen c.

(** [[a-zA-Z0-9_]] *)
Definition is_twitter_char (c : ascii) : bool := is_alnum c || is_underscore c.

Definition normalizeLinkedinUsername (username : str) (final : bool) : str :=
  match username with
  | [] => []
  | _ =>
      let normalized := url_last_segment username in
      let normalized := filter is_linkedin_char normalized in
      let normalized := collapse_runs is_hyphen "-" normalized in
      let normalized := drop_leading is_hyphen normalized in
      let normalized := substring normalized 0 30 in
      if final then
        let normalized := strip_trailing is_hyphen normalized in
        if (length normalized <? 3)%nat then [] else normalized
      else normalized
  end.

(** [/^\d+$/.test(s)] *)
Definition only_digits (s : str) : bool :=
  match s with
  | [] => false
  | _ => forallb is_digit s
  end.

Definition normalizeXTwitterUsername (username : str) (final : bool) : str :=
  match username with
  | [] => []
  | _ =>
      let normalized := url_last_segment username in
      let normalized := filter is_twitter_char normalized in
      let normalized := substring normalized 0 15 in
      let normalized :=
        if final then
          if negb (length normalized =? 0)%nat && only_digits normalized
          then [] else normalized
        else normalized in
      if (length normalized <? 1)%nat then [] else normalized
  end.

(** ** Addresses *)

(** [/^0x[0-9a-fA-F]{40}$/.test(s)] *)
Definition is_hex_address (s : str) : bool :=
  match s with
  | c0 :: cx :: h =>
      is_zero c0 && Ascii.eqb cx "x" && (length h =? 40)%nat && forallb is_hex h
  | _ => false
  end.

(** [s.startsWith('0x')] *)
Definition startsWith_0x (s : str) : bool :=
  match s with
  | c0 :: cx :: _ => is_zero c0 && Ascii.eqb cx "x"
  | _ => false
  end.

Definition isValidEthereumAddress (address : str) : bool :=
  if negb (startsWith_0x address) then false
  else if negb (length address =? 42)%nat then false
  else is_hex_address address.

(** [s.replace(/^0x/, '')] *)
Definition strip_0x (s : str) : str :=
  match s with
  | c0 :: cx :: t => if is_zero c0 && Ascii.eqb cx "x" then t else s
  | _ => s
  end.

(** [s.replace(/0{24}$/, '')]: the last 24 characters go when they are
    all zeros. *)
Definition strip_24_zeros (s : str) : str :=
  let n := length s in
  if (24 <=? n)%nat && forallb is_zero (skipn (n - 24) s)
  then firstn (n - 24) s else s.

(** [normalizeAddress]; the thrown [Error] is [None].  The lengths are
    tested after [toLowerCase], which keeps the length of a [str] (code
    units below 256) but not of every JavaScript string. *)
Definition normalizeAddress (address : str) : option str :=
  let address := strip_0x address in
  let address := toLowerCase address in
  let address :=
    if (length address =? 64)%nat then strip_24_zeros address
    else address in
  if negb (length address =? 40)%nat then None else Some address.

Definition longAddress (address : str) : option str :=
  match normalizeAddress address with
  | Some normalized => Some (normalized ++ repeat chr_zero 24)
  | None => None
  end.

(** ** Notions used to state properties of the helpers above *)

(** Whether the last character of a string is in the class [p]. *)
Fixpoint ends_with (p : ascii -> bool) (s : str) : bool :=
  match s with
  | [] => false
  | c :: t => match t with
              | [] => p c
              | _ :: _ => ends_with p t
              end
  end.

(** Whether the first character of a string is in the class [p]. *)
Definition starts_with (p : ascii -> bool) (s : str) : bool :=
  match s with
  | c :: _ => p c
  | [] => false
  end.

(** No two characters of the class [p] next to each other. *)
Fixpoint no_adjacent (p : ascii -> bool) (s : str) : bool :=
  match s with
  | c :: t => negb (p c && starts_with p t) && no_adjacent p t
  | [] => true
  end.

(** [normalizeLinkedinUsername] in two steps. *)

(** What the function makes of its input in front of the [final] step. *)
Definition linkedin_core (username : str) : str :=
  substring
    (drop_leading is_hyphen
       (collapse_runs is_hyphen "-"
          (filter is_linkedin_char (url_last_segment username)))) 0 30.

(** The [final] step. *)
Definition linkedin_final (final : bool) (normalized : str) : str :=
  if final then
    if (length (strip_trailing is_hyphen normalized) <? 3)%nat then []
    else strip_trailing is_hyphen normalized
  else normalized.

(** A candidate user name: at most 30 letters, digits and hyphens, no
    hyphen in front, no two hyphens in a row. *)
Definition linkedin_ok (s : str) : Prop :=
  (length s <= 30)%nat /\ forallb is_linkedin_char s = true /\
  no_adjacent is_hyphen s = true /\ starts_with is_hyphen s = false.

(** [normalizeXTwitterUsername] in two steps. *)

Definition twitter_core (username : str) : str :=
  substring (filter is_twitter_char (url_last_segment username)) 0 15.

Definition twitter_final (final : bool) (normalized : str) : str :=
  if final && only_digits normalized then [] else normalized.

(** ** Hexadecimal helpers *)

(** The value of a hexadecimal digit ([0] for any other character) and of
    a string of them, most significant digit first. *)
Definition hex_digit_val (c : ascii) : Z :=
  match radix_digit c with
  | Some d => d
  | None => 0
  end.

Definition hex_val (s : str) : Z :=
  fold_left (fun acc c => 16 * acc + hex_digit_val c) s 0.

(** [s.replace('0x', '')]: the first occurrence goes, wherever it is. *)
Fixpoint remove_first_0x (s : str) : str :=
  match s with
  | [] => []
  | c0 :: t =>
      match t with
      | cx :: u => if is_zero c0 && Ascii.eqb cx "x" then u
                   else c0 :: remove_first_0x t
      | [] => s
      end
  end.

(** [hex2big]; [BigInt] trims white space as [trim] does. *)
Definition hex2big (hexString : str) : option Z :=
  let cleanHex := remove_first_0x hexString in
  BigInt_of_str (lit "0x" ++ cleanHex).

(** The digit [d < 16] as [Number.prototype.toString(16)] writes it. *)
Definition hex_char (d : Z) : ascii :=
  if d <? 10 then ascii_of_nat (48 + Z.to_nat d)
  else ascii_of_nat (87 + Z.to_nat d).

Fixpoint hex_digits_acc (fuel : nat) (n : Z) (acc : str) : str :=
  match fuel with
  | O => acc
  | S f => let acc' := hex_char (n mod 16) :: acc in
           if n <? 16 then acc' else hex_digits_acc f (n / 16) acc'
  end.

(** [n.toString(16)] for an integer [n]. *)
Definition Number_toString16 (n : Z) : str :=
  if n <? 0 then chr_minus :: hex_digits_acc (digits_fuel (- n)) (- n) []
  else hex_digits_acc (digits_fuel n) n [].

(** [bin2hex], on an array of integers. *)
Definition bin2hex (bin : list Z) : str :=
  concat (map (fun b => padStart (Number_toString16 b) 2 chr_zero) bin).

(** The line terminators below 256, which [.] does not match. *)
Definition is_line_terminator (c : ascii) : bool :=
  ((code c =? 10) || (code c =? 13))%nat.

(** [s.match(/.{1,2}/g)] as the list of its matches; the empty list
    stands for [null]. *)
Fixpoint match_pairs (s : str) : list str :=
  match s with
  | [] => []
  | c :: t =>
      if is_line_terminator c then match_pairs t
      else
        match t with
        | d :: u => if is_line_terminator d then [c] :: match_pairs u
                    else [c; d] :: match_pairs u
        | [] => [[c]]
        end
  end.

(** White space as [parseInt] skips it in front of a numeral and as [\s]
    matches it: the white space of [trim]. *)
Definition is_js_space (c : ascii) : bool := is_space c.

Fixpoint take_hex (s : str) : str :=
  match s with
  | c :: t => if is_hex c then c :: take_hex t else []
  | [] => []
  end.

(** [parseInt(s, 16)]: leading white space, a sign and a [0x] or [0X]
    prefix are passed over, then the hexadecimal digits up to the first
    other character are read; [None] is [NaN]. *)
Definition parseInt16 (s : str) : option Z :=
  let s := drop_leading is_js_space s in
  let '(negative, s) :=
    match s with
    | c :: t => if Ascii.eqb c chr_minus then (true, t)
                else if Ascii.eqb c "+" then (false, t)
                else (false, s)
    | [] => (false, s)
    end in
  let s := match s with
           | c0 :: cx :: t =>
               if is_zero c0 && (Ascii.eqb cx "x" || Ascii.eqb cx "X")
               then t else s
           | _ => s
           end in
  match take_hex s with
  | [] => None
  | z => Some (if negative then - hex_val z else hex_val z)
  end.

(** Storing a Number in a [Uint8Array]: [NaN] becomes [0], an integer is
    taken modulo 256. *)
Definition ToUint8 (v : option Z) : Z :=
  match v with
  | Some z => z mod 256
  | None => 0
  end.

(** [hex2bin]; the [TypeError] on [null.map] is [None]. *)
Definition hex2bin (hex : str) : option (list Z) :=
  match match_pairs hex with
  | [] => None
  | pairs => Some (map (fun byte => ToUint8 (parseInt16 byte)) pairs)
  end.

(** A Number that is an integer or [NaN], as a template literal writes
    it. *)
Definition Number_toString (v : option Z) : str :=
  match v with
  | Some z => BigInt_toString z
  | None => lit "NaN"
  end.

(** [getColorFromHash]; [%] on integers keeps the sign of the dividend
    ([Z.rem]) and [NaN] stays [NaN]. *)
Definition getColorFromHash (hash : str) (index : nat) : str :=
  let hue :=
    option_map (fun v => Z.rem v 360)
      (parseInt16 (slice hash (index * 2) (index * 2 + 2))) in
  let saturation :=
    option_map (fun v => 60 + Z.rem v 20)
      (parseInt16 (slice hash (index * 2 + 2) (index * 2 + 4))) in
  let lightness :=
    option_map (fun v => 45 + Z.rem v 10)
      (parseInt16 (slice hash (index * 2 + 4) (index * 2 + 6))) in
  lit "hsl(" ++ Number_toString hue ++ lit ", " ++
  Number_toString saturation ++ lit "%, " ++
  Number_toString lightness ++ lit "%)".

(** The digits [Number.prototype.toString(16)] writes: [[0-9a-f]]. *)
Definition is_lower_hex (c : ascii) : bool :=
  is_digit c || ((97 <=? code c) && (code c <=? 102))%nat.

(** The two characters [bin2hex] writes for a byte. *)
Definition byte_pair (b : Z) : str := [hex_char (b / 16); hex_char (b mod 16)].

(** All hexadecimal digits. *)
Definition hex_chars : str := lit "0123456789abcdefABCDEF".

(** Equality of strings as a test. *)
Fixpoint str_eqb (s t : str) : bool :=
  match s, t with
  | [], [] => true
  | c :: s', d :: t' => Ascii.eqb c d && str_eqb s' t'
  | _, _ => false
  end.

(** An element of a [Uint8Array]. *)
Definition is_byte (b : Z) : Prop := 0 <= b < 256.

(** ** [truncateMessage] *)

(** Whether [pat] stands at the start of [s]. *)
Fixpoint starts_with_str (pat s : str) : bool :=
  match pat, s with
  | [], _ => true
  | p :: pt, c :: t => Ascii.eqb p c && starts_with_str pt t
  | _ :: _, [] => false
  end.

(** [s.indexOf(pat)]; [None] stands for [-1]. *)
Fixpoint indexOf_str (pat s : str) : option nat :=
  if starts_with_str pat s then Some O
  else match s with
       | [] => None
       | _ :: t => option_map S (indexOf_str pat t)
       end.

(** [Math.floor] of a finite Number, as an integer. *)
Definition Math_floor (x : float) : Z :=
  match Prim2SF x with
  | S754_finite s m e =>
      if 0 <=? e then (if s then - (Z.pos m * 2 ^ e) else Z.pos m * 2 ^ e)
      else if s then - ((Z.pos m + 2 ^ (- e) - 1) / 2 ^ (- e))
      else Z.pos m / 2 ^ (- e)
  | _ => 0
  end.

(** [Math.floor(maxLength * 0.3)]; the Number [0.3] is the double
    [0x1.3333333333333p-2]. *)
Definition charsToShowBefore (maxLength : nat) : Z :=
  Math_floor (Z2Number (Z.of_nat maxLength) * 0x1.3333333333333p-2)%float.

(** [truncateMessage], for a [maxLength] that is a non-negative integer
    Number. *)
Definition truncateMessage (message : str) (maxLength : nat) : str :=
  if (length message <=? maxLength)%nat then message
  else
    match indexOf_str (lit "<mark>") message with
    | None => substring message 0 maxLength ++ lit "..."
    | Some firstMarkStart =>
        let len := Z.of_nat (length message) in
        let startIndex :=
          Z.max 0 (Z.of_nat firstMarkStart - charsToShowBefore maxLength) in
        let endIndex := Z.min len (startIndex + Z.of_nat maxLength) in
        let startIndex :=
          if endIndex =? len then Z.max 0 (len - Z.of_nat maxLength)
          else startIndex in
        let preview :=
          substring message (Z.to_nat startIndex) (Z.to_nat endIndex) in
        let preview :=
          if 0 <? startIndex then lit "..." ++ preview else preview in
        let preview :=
          if endIndex <? len then preview ++ lit "..." else preview in
        preview
    end.

(** ** [normalizeName] *)

(** [\w]: [[A-Za-z0-9_]]. *)
Definition is_word (c : ascii) : bool := is_alnum c || is_underscore c.

(** [c.toUpperCase()] on a character matched by [\w]. *)
Definition toUpperCase_word_char (c : ascii) : ascii :=
  if is_lower c then ascii_of_nat (code c - 32) else c.

(** [s.replace(/\b\w/g, c => c.toUpperCase())]: a word character is
    replaced when no word character stands in front of it. *)
Fixpoint capitalize_words (prev_word : bool) (s : str) : str :=
  match s with
  | [] => []
  | c :: t =>
      (if is_word c && negb prev_word then toUpperCase_word_char c else c)
      :: capitalize_words (is_word c) t
  end.

(** [[a-zA-Z\s]]; [\s] is the white space of [is_js_space]. *)
Definition is_name_char (c : ascii) : bool := is_alpha c || is_js_space c.

(** The steps of [normalizeName] in front of the [final] step. *)
Definition name_core (s : str) : str :=
  let normalized := filter is_name_char s in
  let normalized := collapse_runs is_js_space " " normalized in
  let normalized := toLowerCase normalized in
  let normalized := capitalize_words false normalized in
  substring normalized 0 20.

Definition normalizeName (s : str) (final : bool) : str :=
  match s with
  | [] => []
  | _ =>
      let normalized := name_core s in
      if final then strip_trailing is_js_space normalized else normalized
  end.

(** Words in title case, separated by spaces: a letter is a capital when
    no letter stands in front of it and a small letter otherwise, and
    every other character is a space. *)
Fixpoint title_case (prev_letter : bool) (s : str) : bool :=
  match s with
  | [] => true
  | c :: t =>
      (if is_alpha c then (if prev_letter then is_lower c else is_upper c)
       else Ascii.eqb c " ")
      && title_case (is_alpha c) t
  end.

(** The names [normalizeName] produces: at most 20 characters in title
    case, with single spaces between the words. *)
Definition name_ok (s : str) : Prop :=
  (length s <= 20)%nat /\ title_case false s = true /\
  no_adjacent is_js_space s = true.

(** * Theorems *)

(** ** Characters *)

Lemma digit_val_char (d : Z) : 0 <= d < 10 -> digit_val (digit_char d) = d.
Proof.
  intros H. assert (E : d = 0 \/ d = 1 \/ d = 2 \/ d = 3 \/ d = 4 \/ d = 5 \/
                        d = 6 \/ d = 7 \/ d = 8 \/ d = 9) by lia.
  repeat (destruct E as [-> | E]; [reflexivity |]). subst d. reflexivity.
Qed.

Lemma is_digit_char (d : Z) : 0 <= d < 10 -> is_digit (digit_char d) = true.
Proof.
  intros H. assert (E : d = 0 \/ d = 1 \/ d = 2 \/ d = 3 \/ d = 4 \/ d = 5 \/
                        d = 6 \/ d = 7 \/ d = 8 \/ d = 9) by lia.
  repeat (destruct E as [-> | E]; [reflexivity |]). subst d. reflexivity.
Qed.

Lemma is_zero_char (d : Z) :
  0 <= d < 10 -> is_zero (digit_char d) = (d =? 0).
Proof.
  intros H. assert (E : d = 0 \/ d = 1 \/ d = 2 \/ d = 3 \/ d = 4 \/ d = 5 \/
                        d = 6 \/ d = 7 \/ d = 8 \/ d = 9) by lia.
  repeat (destruct E as [-> | E]; [reflexivity |]). subst d. reflexivity.
Qed.

Lemma is_digit_range (c : ascii) :
  is_digit c = true -> (48 <= nat_of_ascii c <= 57)%nat.
Proof.
  unfold is_digit. rewrite andb_true_iff, !Nat.leb_le. tauto.
Qed.

Lemma digit_val_range (c : ascii) :
  is_digit c = true -> 0 <= digit_val c < 10.
Proof. intros H%is_digit_range. unfold digit_val. lia. Qed.

Lemma ascii_eqb_nat (c d : ascii) :
  Ascii.eqb c d = (nat_of_ascii c =? nat_of_ascii d)%nat.
Proof.
  destruct (Ascii.eqb_spec c d) as [-> | N].
  - now rewrite Nat.eqb_refl.
  - symmetry. apply Nat.eqb_neq. intros E. apply N.
    now rewrite <- (ascii_nat_embedding c), <- (ascii_nat_embedding d), E.
Qed.

Lemma digit_not_dot (c : ascii) : is_digit c = true -> is_dot c = false.
Proof.
  intros H%is_digit_range. unfold is_dot. rewrite ascii_eqb_nat.
  apply Nat.eqb_neq. change (nat_of_ascii chr_dot) with 46%nat. lia.
Qed.

Lemma digit_not_space (c : ascii) : is_digit c = true -> is_space c = false.
Proof.
  intros H%is_digit_range. unfold is_space. cbv zeta.
  destruct (Nat.leb_spec 9 (nat_of_ascii c)), (Nat.leb_spec (nat_of_ascii c) 13),
    (Nat.eqb_spec (nat_of_ascii c) 32), (Nat.eqb_spec (nat_of_ascii c) 160);
    simpl; auto; lia.
Qed.

Lemma digit_not_minus (c : ascii) :
  is_digit c = true -> Ascii.eqb c chr_minus = false.
Proof.
  intros H%is_digit_range. rewrite ascii_eqb_nat.
  apply Nat.eqb_neq. change (nat_of_ascii chr_minus) with 45%nat. lia.
Qed.

Lemma digit_not_plus (c : ascii) :
  is_digit c = true -> Ascii.eqb c "+" = false.
Proof.
  intros H%is_digit_range. rewrite ascii_eqb_nat.
  apply Nat.eqb_neq. change (nat_of_ascii "+") with 43%nat. lia.
Qed.

Lemma zero_is_digit (c : ascii) : is_zero c = true -> is_digit c = true.
Proof.
  unfold is_zero. intros H. apply Ascii.eqb_eq in H. now subst c.
Qed.

Lemma dot_not_zero (c : ascii) : is_dot c = true -> is_zero c = false.
Proof.
  unfold is_dot. intros H. apply Ascii.eqb_eq in H. now subst c.
Qed.

Lemma dot_not_space (c : ascii) : is_dot c = true -> is_space c = false.
Proof.
  unfold is_dot. intros H. apply Ascii.eqb_eq in H. now subst c.
Qed.

Lemma is_zero_val (c : ascii) : is_zero c = true -> digit_val c = 0.
Proof.
  unfold is_zero. intros H. apply Ascii.eqb_eq in H. now subst c.
Qed.

(** ** Values of digit strings *)

Lemma fold_digits_shift (s : str) (a : Z) :
  fold_left (fun acc c => 10 * acc + digit_val c) s a =
  a * 10 ^ Z.of_nat (length s) + digits_val s.
Proof.
  unfold digits_val. revert a. induction s as [| c s IH]; intros a.
  - simpl. lia.
  - cbn [fold_left length]. rewrite IH, (IH (10 * 0 + digit_val c)).
    rewrite Nat2Z.inj_succ, Z.pow_succ_r by lia. ring.
Qed.

Lemma digits_val_nil : digits_val [] = 0.
Proof. reflexivity. Qed.

Lemma digits_val_cons (c : ascii) (s : str) :
  digits_val (c :: s) = digit_val c * 10 ^ Z.of_nat (length s) + digits_val s.
Proof.
  unfold digits_val at 1. cbn [fold_left]. rewrite fold_digits_shift. ring.
Qed.

Lemma digits_val_app (s t : str) :
  digits_val (s ++ t) =
  digits_val s * 10 ^ Z.of_nat (length t) + digits_val t.
Proof.
  unfold digits_val at 1. rewrite fold_left_app.
  fold (digits_val s). apply fold_digits_shift.
Qed.

Lemma digits_val_bounds (s : str) :
  forallb is_digit s = true -> 0 <= digits_val s < 10 ^ Z.of_nat (length s).
Proof.
  induction s as [| c s IH]; intros H.
  - cbn. lia.
  - cbn [forallb] in H. apply andb_true_iff in H as [Hc Hs].
    specialize (IH Hs). apply digit_val_range in Hc.
    rewrite digits_val_cons. cbn [length].
    rewrite Nat2Z.inj_succ, Z.pow_succ_r by lia. nia.
Qed.

Lemma digits_val_zeros (s : str) :
  forallb is_zero s = true -> digits_val s = 0.
Proof.
  induction s as [| c s IH]; intros H; [reflexivity |].
  cbn [forallb] in H. apply andb_true_iff in H as [Hc Hs].
  rewrite digits_val_cons, (is_zero_val _ Hc), IH by assumption. lia.
Qed.

Lemma digits_val_repeat_zero (n : nat) : digits_val (repeat chr_zero n) = 0.
Proof.
  apply digits_val_zeros. induction n; [reflexivity | assumption].
Qed.

(** A digit string that does not start with [0] has a value of exactly its
    length in digits. *)
Lemma digits_val_lower (c : ascii) (s : str) :
  forallb is_digit (c :: s) = true -> is_zero c = false ->
  10 ^ Z.of_nat (length s) <= digits_val (c :: s).
Proof.
  intros H Hz. cbn [forallb] in H. apply andb_true_iff in H as [Hc Hs].
  pose proof (digits_val_bounds s Hs) as B.
  rewrite digits_val_cons.
  assert (1 <= digit_val c).
  { pose proof (digit_val_range c Hc) as R.
    destruct (Z.eq_dec (digit_val c) 0) as [E | N]; [| lia].
    exfalso. unfold digit_val in E. unfold is_zero in Hz.
    rewrite ascii_eqb_nat in Hz. apply Nat.eqb_neq in Hz.
    change (nat_of_ascii chr_zero) with 48%nat in Hz. lia. }
  assert (0 < 10 ^ Z.of_nat (length s)) by (apply Z.pow_pos_nonneg; lia).
  nia.
Qed.

(** The leading [k] digits of a digit string are the quotient of its value
    by the power of ten the remaining digits stand for. *)
Lemma digits_val_firstn (k : nat) (s : str) :
  forallb is_digit s = true ->
  digits_val (firstn k s) =
  digits_val s / 10 ^ Z.of_nat (length s - k).
Proof.
  intros H. rewrite <- (firstn_skipn k s) at 2.
  rewrite digits_val_app.
  assert (Hs : forallb is_digit (skipn k s) = true).
  { rewrite <- (firstn_skipn k s), forallb_app in H.
    now apply andb_true_iff in H. }
  pose proof (digits_val_bounds _ Hs) as B.
  rewrite length_skipn in *.
  apply Z.div_unique with (r := digits_val (skipn k s)); [lia | ring].
Qed.

Lemma digits_val_skipn (k : nat) (s : str) :
  forallb is_digit s = true ->
  digits_val (skipn k s) =
  digits_val s mod 10 ^ Z.of_nat (length s - k).
Proof.
  intros H. rewrite <- (firstn_skipn k s) at 2.
  rewrite digits_val_app.
  assert (Hs : forallb is_digit (skipn k s) = true).
  { rewrite <- (firstn_skipn k s), forallb_app in H.
    now apply andb_true_iff in H. }
  pose proof (digits_val_bounds _ Hs) as B.
  rewrite length_skipn in *.
  apply Z.mod_unique with (q := digits_val (firstn k s)); [lia | ring].
Qed.

(** ** [BigInt.prototype.toString] *)

(** With fuel for the binary length of [n], [digits_acc] writes the
    decimal numeral of [n]: digits only, of value [n], starting with [0]
    only for [n = 0]. *)
Lemma digits_acc_spec (fuel : nat) :
  forall (n : Z) (acc : str),
    0 <= n < 2 ^ Z.of_nat (S fuel) ->
    exists (c : ascii) (t : str),
      digits_acc (S fuel) n acc = (c :: t) ++ acc /\
      forallb is_digit (c :: t) = true /\
      digits_val (c :: t) = n /\
      is_zero c = (n =? 0).
Proof.
  induction fuel as [| f IH]; intros n acc Hn.
  - assert (Hlt : (n <? 10) = true) by (apply Z.ltb_lt; cbn in Hn; lia).
    exists (digit_char (n mod 10)), []. cbn [digits_acc]. rewrite Hlt.
    assert (n mod 10 = n) as -> by (apply Z.mod_small; cbn in Hn; lia).
    assert (0 <= n < 10) by (cbn in Hn; lia).
    repeat split.
    + cbn [forallb]. now rewrite is_digit_char.
    + rewrite digits_val_cons, digit_val_char by assumption. cbn. lia.
    + now apply is_zero_char.
  - change (digits_acc (S (S f)) n acc)
      with (if n <? 10 then digit_char (n mod 10) :: acc
            else digits_acc (S f) (n / 10) (digit_char (n mod 10) :: acc)).
    pose proof (Z.mod_pos_bound n 10 ltac:(lia)) as Hm.
    destruct (Z.ltb_spec n 10) as [Hlt | Hge].
    + exists (digit_char (n mod 10)), [].
      assert (n mod 10 = n) as -> by (apply Z.mod_small; lia).
      repeat split.
      * cbn [forallb]. now rewrite is_digit_char by lia.
      * rewrite digits_val_cons, digit_val_char by lia. cbn. lia.
      * apply is_zero_char. lia.
    + assert (Hq : 0 <= n / 10 < 2 ^ Z.of_nat (S f)).
      { split; [apply Z.div_pos; lia |].
        apply Z.div_lt_upper_bound; [lia |].
        replace (Z.of_nat (S (S f))) with (Z.succ (Z.of_nat (S f))) in Hn by lia.
        rewrite Z.pow_succ_r in Hn by lia.
        assert (0 < 2 ^ Z.of_nat (S f)) by (apply Z.pow_pos_nonneg; lia). lia. }
      destruct (IH (n / 10) (digit_char (n mod 10) :: acc) Hq)
        as (c & t & E & Hd & Hv & Hz).
      exists c, (t ++ [digit_char (n mod 10)]). repeat split.
      * rewrite E. cbn. now rewrite <- app_assoc.
      * change (c :: t ++ [digit_char (n mod 10)])
          with ((c :: t) ++ [digit_char (n mod 10)]).
        rewrite forallb_app, Hd. cbn [forallb]. now rewrite is_digit_char.
      * change (c :: t ++ [digit_char (n mod 10)])
          with ((c :: t) ++ [digit_char (n mod 10)]).
        rewrite digits_val_app, Hv, digits_val_cons, digit_val_char by lia.
        cbn. rewrite (Z.div_mod n 10) at 3 by lia. lia.
      * rewrite Hz. assert (1 <= n / 10) by (apply Z.div_le_lower_bound; lia).
        destruct (Z.eqb_spec (n / 10) 0), (Z.eqb_spec n 0); auto; lia.
Qed.

Lemma digits_spec (n : Z) :
  0 <= n ->
  exists (c : ascii) (t : str),
    digits n = c :: t /\
    forallb is_digit (c :: t) = true /\
    digits_val (c :: t) = n /\
    is_zero c = (n =? 0).
Proof.
  intros Hn. unfold digits, digits_fuel.
  assert (B : 0 <= n < 2 ^ Z.of_nat (S (Z.to_nat (Z.log2 n)))).
  { split; [assumption |].
    rewrite Nat2Z.inj_succ, Z2Nat.id by apply Z.log2_nonneg.
    destruct (Z.eq_dec n 0) as [-> | N]; [cbn; lia |].
    apply Z.log2_spec. lia. }
  destruct (digits_acc_spec _ n [] B) as (c & t & E & H).
  exists c, t. rewrite E, app_nil_r. auto.
Qed.

Lemma digits_all_digit (n : Z) : 0 <= n -> forallb is_digit (digits n) = true.
Proof.
  intros H. destruct (digits_spec n H) as (c & t & -> & Hd & _). exact Hd.
Qed.

(** Reading the numeral back gives the number. *)
Lemma digits_val_digits (n : Z) : 0 <= n -> digits_val (digits n) = n.
Proof.
  intros H. destruct (digits_spec n H) as (c & t & -> & _ & Hv & _). exact Hv.
Qed.

Lemma digits_length_pos (n : Z) : 0 <= n -> (1 <= length (digits n))%nat.
Proof.
  intros H. destruct (digits_spec n H) as (c & t & -> & _). cbn. lia.
Qed.

(** The numeral of [n > 0] has [k] digits exactly when
    [10^(k-1) <= n < 10^k]. *)
Lemma digits_length_bounds (n : Z) :
  0 < n ->
  10 ^ (Z.of_nat (length (digits n)) - 1) <= n
  < 10 ^ Z.of_nat (length (digits n)).
Proof.
  intros H. destruct (digits_spec n ltac:(lia)) as (c & t & -> & Hd & Hv & Hz).
  assert (Hc : is_zero c = false).
  { rewrite Hz. apply Z.eqb_neq. lia. }
  pose proof (digits_val_lower c t Hd Hc) as L.
  pose proof (digits_val_bounds _ Hd) as U.
  rewrite Hv in L, U. cbn [length] in *.
  replace (Z.of_nat (S (length t)) - 1) with (Z.of_nat (length t)) by lia.
  lia.
Qed.

Lemma digits_length_le (n : Z) (k : nat) :
  0 <= n -> (1 <= k)%nat ->
  (length (digits n) <= k)%nat <-> n < 10 ^ Z.of_nat k.
Proof.
  intros Hn Hk. destruct (Z.eq_dec n 0) as [-> | N].
  - change (length (digits 0)) with 1%nat.
    assert (0 < 10 ^ Z.of_nat k) by (apply Z.pow_pos_nonneg; lia). lia.
  - pose proof (digits_length_bounds n ltac:(lia)) as [L U]. split; intros H.
    + eapply Z.lt_le_trans; [exact U |].
      apply Z.pow_le_mono_r; lia.
    + destruct (Nat.le_gt_cases (length (digits n)) k) as [? | G]; [assumption |].
      exfalso.
      assert (10 ^ Z.of_nat k <= 10 ^ (Z.of_nat (length (digits n)) - 1))
        by (apply Z.pow_le_mono_r; lia).
      lia.
Qed.

Lemma digits_head_nonzero (n : Z) :
  0 < n -> exists c t, digits n = c :: t /\ is_zero c = false.
Proof.
  intros H. destruct (digits_spec n ltac:(lia)) as (c & t & E & _ & _ & Hz).
  exists c, t. split; [assumption |]. rewrite Hz. apply Z.eqb_neq. lia.
Qed.

Lemma BigInt_toString_nonneg (n : Z) : 0 <= n -> BigInt_toString n = digits n.
Proof.
  intros H. unfold BigInt_toString.
  now destruct (Z.ltb_spec n 0); [lia |].
Qed.

(** ** Dots in strings *)

Lemma indexOf_dot_digits (s : str) :
  forallb is_digit s = true -> indexOf_dot s = None.
Proof.
  induction s as [| c s IH]; intros H; [reflexivity |].
  cbn [forallb] in H. apply andb_true_iff in H as [Hc Hs].
  cbn [indexOf_dot]. now rewrite (digit_not_dot _ Hc), IH.
Qed.

Lemma indexOf_dot_app (s t : str) :
  forallb is_digit s = true ->
  indexOf_dot (s ++ chr_dot :: t) = Some (length s).
Proof.
  induction s as [| c s IH]; intros H; [reflexivity |].
  cbn [forallb] in H. apply andb_true_iff in H as [Hc Hs].
  cbn [app indexOf_dot length]. now rewrite (digit_not_dot _ Hc), IH.
Qed.

Lemma firstn_length_app {A : Type} (s t : list A) :
  firstn (length s) (s ++ t) = s.
Proof.
  rewrite firstn_app, Nat.sub_diag, firstn_all. cbn. apply app_nil_r.
Qed.

Lemma skipn_length_cons {A : Type} (s t : list A) (x : A) :
  skipn (S (length s)) (s ++ x :: t) = t.
Proof.
  induction s as [| y s IH]; [reflexivity | exact IH].
Qed.

Lemma forallb_repeat_zero (n : nat) :
  forallb is_digit (repeat chr_zero n) = true.
Proof. induction n; [reflexivity | assumption]. Qed.

(** ** [big2str] *)

(** The two shapes of the output of [big2str] for [decimals >= 1]: an
    amount of at most [decimals] digits is padded to [decimals] digits
    behind [0.]; a longer one gets the point in front of its last
    [decimals] digits. *)
Lemma big2str_short (a : Z) (d : nat) :
  0 <= a -> (length (digits a) <= d)%nat ->
  big2str a d =
  lit "0." ++ repeat chr_zero (d - length (digits a)) ++ digits a.
Proof.
  intros Ha Hl. unfold big2str. rewrite BigInt_toString_nonneg by assumption.
  cbv zeta. unfold padStart.
  rewrite length_app, repeat_length.
  replace (d - length (digits a) + length (digits a) - d)%nat with 0%nat by lia.
  reflexivity.
Qed.

Lemma big2str_long (a : Z) (d : nat) :
  0 <= a -> (d < length (digits a))%nat ->
  big2str a d =
  firstn (length (digits a) - d) (digits a) ++ lit "." ++
  skipn (length (digits a) - d) (digits a).
Proof.
  intros Ha Hl. unfold big2str. rewrite BigInt_toString_nonneg by assumption.
  cbv zeta. unfold padStart, slice, slice_from.
  replace (d - length (digits a))%nat with 0%nat by lia.
  cbn [repeat app skipn].
  destruct (Nat.eqb_spec (length (digits a) - d) 0) as [E | _]; [lia |].
  now rewrite Nat.sub_0_r.
Qed.

(** The output of [big2str] for [decimals >= 1] is an integer part, a
    point and exactly [decimals] fraction digits which together spell the
    amount; the integer part is [0] or starts with a digit other than
    [0]. *)
Lemma big2str_parts (a : Z) (d : nat) :
  0 <= a -> (1 <= d)%nat ->
  exists (c : ascii) (ip fp : str),
    big2str a d = (c :: ip) ++ chr_dot :: fp /\
    forallb is_digit (c :: ip) = true /\
    forallb is_digit fp = true /\
    length fp = d /\
    digits_val ((c :: ip) ++ fp) = a /\
    (if is_zero c then ip = [] else S (length ip) = length (digits a) - d)%nat.
Proof.
  intros Ha Hd.
  destruct (Nat.le_gt_cases (length (digits a)) d) as [Hl | Hl].
  - exists chr_zero, [], (repeat chr_zero (d - length (digits a)) ++ digits a).
    rewrite big2str_short by assumption. repeat split.
    + rewrite forallb_app, forallb_repeat_zero. now apply digits_all_digit.
    + rewrite length_app, repeat_length. lia.
    + change ([chr_zero] ++ ?x) with (chr_zero :: x).
      rewrite digits_val_cons, digits_val_app, digits_val_repeat_zero.
      rewrite digits_val_digits by assumption.
      change (digit_val chr_zero) with 0. lia.
  - rewrite big2str_long by assumption.
    assert (Hpos : 0 < a).
    { destruct (Z.eq_dec a 0) as [-> | N]; [| lia].
      change (length (digits 0)) with 1%nat in Hl. lia. }
    destruct (digits_head_nonzero a Hpos) as (c & t & E & Hz).
    pose proof (digits_all_digit a Ha) as Hall.
    pose proof (digits_val_digits a Ha) as Hval.
    set (k := (length (digits a) - d)%nat).
    assert (Hk : (1 <= k <= length (digits a))%nat) by (unfold k; lia).
    rewrite <- (firstn_skipn k (digits a)), forallb_app in Hall.
    apply andb_true_iff in Hall as [Hf Hs].
    assert (Ef : firstn k (digits a) = c :: firstn (k - 1) t).
    { rewrite E. destruct k as [| k']; [lia |]. cbn [firstn].
      now rewrite Nat.sub_1_r. }
    exists c, (firstn (k - 1) t), (skipn k (digits a)).
    rewrite <- Ef. repeat split; try assumption.
    + rewrite length_skipn. unfold k. lia.
    + now rewrite firstn_skipn.
    + rewrite Hz. assert (L : length (firstn k (digits a)) = k)
        by (rewrite length_firstn; lia).
      rewrite Ef in L. cbn [length] in L. exact L.
Qed.

(** C8: for a non-negative amount and [decimals >= 1], [big2str] pads the
    base-10 digit string of the amount with zeros on the left to
    [decimals] digits (the padded string has [max decimals length] digits,
    not one more), puts the point at position [length - decimals], and
    writes [0.] in front when that position is [0]; the output is an
    integer part, a point and exactly [decimals] digits that spell the
    amount.  [big2str 1234 2] is [12.34] and [big2str 5 2] is [0.05]. *)
Theorem big2str_pads_and_inserts_point (a : Z) (d : nat) :
  0 <= a -> (1 <= d)%nat ->
  let s := BigInt_toString a in
  let padded := repeat chr_zero (d - length s) ++ s in
  let insertPosition := (length padded - d)%nat in
  (forallb is_digit s = true /\ digits_val s = a) /\
  length padded = Nat.max d (length s) /\
  big2str a d =
    (if (insertPosition =? 0)%nat then lit "0." ++ padded
     else firstn insertPosition padded ++ lit "." ++
          skipn insertPosition padded) /\
  (exists ip fp : str,
      big2str a d = ip ++ chr_dot :: fp /\
      forallb is_digit ip = true /\ forallb is_digit fp = true /\
      length fp = d /\ digits_val (ip ++ fp) = a) /\
  big2str 1234 2 = lit "12.34" /\
  big2str 5 2 = lit "0.05".
Proof.
  intros Ha Hd s padded insertPosition.
  assert (Es : s = digits a) by (apply BigInt_toString_nonneg; assumption).
  assert (Hlen : length padded = Nat.max d (length s)).
  { unfold padded. rewrite length_app, repeat_length. lia. }
  repeat split.
  - rewrite Es. now apply digits_all_digit.
  - rewrite Es. now apply digits_val_digits.
  - exact Hlen.
  - destruct (Nat.eqb_spec insertPosition 0) as [E | N].
    + unfold padded. rewrite Es.
      apply big2str_short; [assumption |]. rewrite <- Es. lia.
    + assert (d < length s)%nat by lia.
      assert (Ep : padded = s).
      { unfold padded. now replace (d - length s)%nat with 0%nat by lia. }
      unfold insertPosition. rewrite Ep, Es.
      apply big2str_long; [assumption |]. rewrite <- Es. assumption.
  - destruct (big2str_parts a d Ha Hd) as (c & ip & fp & E & Hi & Hf & Hl & Hv & _).
    exists (c :: ip), fp. auto.
Qed.

Lemma big2str_pads_and_inserts_point_witness :
  0 <= 1234 /\ (1 <= 2)%nat /\
  length (repeat chr_zero (2 - length (BigInt_toString 1234)) ++
          BigInt_toString 1234) =
  Nat.max 2 (length (BigInt_toString 1234)).
Proof.
  refine (conj _ (conj _
    (proj1 (proj2 (big2str_pads_and_inserts_point 1234 2 _ _))))); lia.
Defined.

(** ** The round trip through [parse] *)

Lemma matches_decimal_app (least : nat) (w f : str) :
  forallb is_digit w = true ->
  matches_decimal least (w ++ chr_dot :: f) =
  int_part_ok w && frac_part_ok least f.
Proof.
  intros H. unfold matches_decimal.
  now rewrite (indexOf_dot_app _ _ H), firstn_length_app, skipn_length_cons.
Qed.

Lemma matches_decimal_digits (least : nat) (w : str) :
  forallb is_digit w = true -> matches_decimal least w = int_part_ok w.
Proof.
  intros H. unfold matches_decimal. now rewrite (indexOf_dot_digits _ H).
Qed.

Lemma parse_parts (c : ascii) (ip fp : str) (d : nat) :
  forallb is_digit (c :: ip) = true ->
  forallb is_digit fp = true ->
  length fp = d -> (1 <= d <= 18)%nat ->
  (if is_zero c then ip = [] else (length ip <= 8)%nat) ->
  parse ((c :: ip) ++ chr_dot :: fp) d = inr (digits_val ((c :: ip) ++ fp)).
Proof.
  intros Hi Hf Hl Hd Hc. unfold parse, is_DecimalString, matches_decimal.
  rewrite (indexOf_dot_app _ fp Hi), firstn_length_app, skipn_length_cons.
  assert (Hint : int_part_ok (c :: ip) = true).
  { unfold int_part_ok. destruct (is_zero c).
    - now subst ip.
    - cbn [forallb] in Hi. rewrite Hi. now apply Nat.leb_le. }
  assert (Hfrac : frac_part_ok 1 fp = true).
  { unfold frac_part_ok. rewrite Hf, Hl.
    destruct (Nat.leb_spec 1 d), (Nat.leb_spec d 18); auto; lia. }
  rewrite Hint, Hfrac. cbn [andb negb]. rewrite Hl, Nat.ltb_irrefl.
  now rewrite Nat.sub_diag, app_nil_r.
Qed.

(** C3 (amended): for [decimals] from 1 to 18 and a non-negative amount
    below [10^(decimals + 9)], that is with at most nine digits in front of
    the point, parsing the output of [big2str] with the same [decimals]
    gives the amount back. *)
Theorem parse_big2str_roundtrip (a : Z) (d : nat) :
  (1 <= d <= 18)%nat -> 0 <= a < 10 ^ Z.of_nat (d + 9) ->
  parse (big2str a d) d = inr a.
Proof.
  intros Hd [Ha Hb].
  destruct (big2str_parts a d Ha ltac:(lia))
    as (c & ip & fp & E & Hi & Hf & Hl & Hv & Hc).
  rewrite E, parse_parts, Hv; auto.
  destruct (is_zero c); [assumption |].
  assert (length (digits a) <= d + 9)%nat
    by (apply digits_length_le; [lia | lia | assumption]).
  lia.
Qed.

Lemma parse_big2str_roundtrip_witness :
  (1 <= 2 <= 18)%nat /\ 0 <= 1234 < 10 ^ Z.of_nat (2 + 9) /\
  parse (big2str 1234 2) 2 = inr 1234.
Proof.
  refine (conj _ (conj _ (parse_big2str_roundtrip 1234 2 _ _)));
    cbn; lia.
Defined.

(** C3 as stated fails: with [decimals = 0] the output of [big2str] ends in
    a bare point, and an amount with more than nine digits in front of the
    point is no DecimalString either; [parse] rejects both. *)
Lemma parse_big2str_rejected :
  parse (big2str 123 0) 0 = inl InvalidFormat /\
  parse (big2str 123 0) 0 <> inr 123 /\
  parse (big2str (10 ^ 29) 18) 18 = inl InvalidFormat /\
  parse (big2str (10 ^ 29) 18) 18 <> inr (10 ^ 29).
Proof. vm_compute. repeat split; discriminate. Qed.

(** The amended domain is the whole domain of the round trip: without
    decimals the output always ends in a bare point, and ten or more digits
    in front of the point are too many for a DecimalString. *)
Lemma parse_big2str_decimals_0 (a : Z) :
  0 <= a -> parse (big2str a 0) 0 = inl InvalidFormat.
Proof.
  intros Ha. pose proof (digits_length_pos a Ha) as Hp.
  rewrite big2str_long by (assumption || lia).
  rewrite Nat.sub_0_r, firstn_all, skipn_all.
  unfold parse, is_DecimalString. change (lit "." ++ []) with [chr_dot].
  rewrite matches_decimal_app by (now apply digits_all_digit).
  unfold frac_part_ok. cbn [length forallb Nat.leb andb].
  now rewrite andb_false_r.
Qed.

Lemma parse_big2str_too_long (a : Z) (d : nat) :
  (1 <= d)%nat -> 10 ^ Z.of_nat (d + 9) <= a ->
  parse (big2str a d) d = inl InvalidFormat.
Proof.
  intros Hd Hb.
  assert (Hpos : 0 < 10 ^ Z.of_nat (d + 9)) by (apply Z.pow_pos_nonneg; lia).
  assert (Ha : 0 <= a) by lia.
  destruct (big2str_parts a d Ha Hd)
    as (c & ip & fp & E & Hi & Hf & Hl & Hv & Hc).
  assert (Hlen : (d + 9 < length (digits a))%nat).
  { destruct (Nat.le_gt_cases (length (digits a)) (d + 9)) as [L | G];
      [| exact G].
    apply digits_length_le in L; lia. }
  rewrite E. unfold parse, is_DecimalString.
  rewrite matches_decimal_app by assumption.
  assert (Hint : int_part_ok (c :: ip) = false).
  { unfold int_part_ok. destruct (is_zero c) eqn:Ez.
    - subst ip. exfalso.
      assert (B : forallb is_digit ([c] ++ fp) = true)
        by (now rewrite forallb_app, Hi, Hf).
      apply digits_val_bounds in B. rewrite Hv, length_app, Hl in B.
      cbn [length] in B.
      assert (10 ^ Z.of_nat (1 + d) <= 10 ^ Z.of_nat (d + 9))
        by (apply Z.pow_le_mono_r; lia).
      lia.
    - destruct (Nat.leb_spec (length ip) 8); [lia |].
      now rewrite andb_false_r. }
  now rewrite Hint.
Qed.

(** ** [bigxnum2big] *)

Lemma trim_start_id (s : str) :
  (forall c, In c s -> is_space c = false) -> trim_start s = s.
Proof.
  destruct s as [| c t]; intros H; [reflexivity |].
  cbn [trim_start]. now rewrite (H c (or_introl eq_refl)).
Qed.

Lemma trim_id (s : str) :
  (forall c, In c s -> is_space c = false) -> trim s = s.
Proof.
  intros H. unfold trim. rewrite (trim_start_id s H), trim_start_id.
  - apply rev_involutive.
  - intros c Hc. apply H. now apply in_rev.
Qed.

Lemma digits_no_space (s : str) :
  forallb is_digit s = true -> forall c, In c s -> is_space c = false.
Proof.
  intros H c Hc. apply digit_not_space.
  rewrite forallb_forall in H. now apply H.
Qed.

Lemma strip_dot_zeros_digits (s t : str) :
  forallb is_digit s = true ->
  strip_dot_zeros (s ++ t) = s ++ strip_dot_zeros t.
Proof.
  induction s as [| c s IH]; intros H; [reflexivity |].
  cbn [forallb] in H. apply andb_true_iff in H as [Hc Hs].
  cbn [app strip_dot_zeros]. now rewrite (digit_not_dot _ Hc), IH.
Qed.

Lemma strip_dot_zeros_id (s : str) :
  forallb is_digit s = true -> strip_dot_zeros s = s.
Proof.
  intros H. rewrite <- (app_nil_r s) at 1.
  rewrite strip_dot_zeros_digits by assumption. cbn. apply app_nil_r.
Qed.

Lemma remove_first_dot_app (s t : str) :
  forallb is_digit s = true ->
  remove_first_dot (s ++ chr_dot :: t) = s ++ t.
Proof.
  induction s as [| c s IH]; intros H; [reflexivity |].
  cbn [forallb] in H. apply andb_true_iff in H as [Hc Hs].
  cbn [app remove_first_dot]. now rewrite (digit_not_dot _ Hc), IH.
Qed.

Lemma radix_of_prefix_digit (c : ascii) :
  is_digit c = true -> radix_of_prefix c = None.
Proof.
  intros H%is_digit_range. unfold radix_of_prefix.
  rewrite !ascii_eqb_nat.
  repeat match goal with
         | |- context [(nat_of_ascii c =? nat_of_ascii ?x)%nat] =>
             let n := eval vm_compute in (nat_of_ascii x) in
             change (nat_of_ascii x) with n;
             destruct (Nat.eqb_spec (nat_of_ascii c) n); [lia |]
         end.
  reflexivity.
Qed.

(** [BigInt(s)] reads a string of digits as the number it spells; the
    empty string is [0n]. *)
Lemma BigInt_of_str_digits (s : str) :
  forallb is_digit s = true -> BigInt_of_str s = Some (digits_val s).
Proof.
  intros H. unfold BigInt_of_str.
  rewrite (trim_id s (digits_no_space s H)).
  destruct s as [| c t]; [reflexivity |].
  pose proof H as H'. cbn [forallb] in H'.
  apply andb_true_iff in H' as [Hc Ht].
  rewrite (digit_not_minus _ Hc), (digit_not_plus _ Hc).
  assert (D : decimal_literal (c :: t) = Some (digits_val (c :: t))).
  { unfold decimal_literal. now rewrite H. }
  destruct t as [| p [| q ds]]; try exact D.
  cbn [forallb] in Ht. apply andb_true_iff in Ht as [Hp _].
  rewrite (radix_of_prefix_digit _ Hp). now destruct (is_zero c).
Qed.

(** [BigInt(10 ** k)] is [10^k] as long as the power is a double, whatever
    the engine does beyond. *)
Lemma BigInt_of_pow10 (pow10 : nat -> float) (k : nat) :
  (k <= 22)%nat ->
  BigInt_of_Number (Math_pow10 pow10 k) = Some (10 ^ Z.of_nat k).
Proof.
  intros H.
  do 23 (destruct k as [| k]; [vm_compute; reflexivity |]). lia.
Qed.

Lemma bigxnum2big_with_point (pow10 : nat -> float) (amount : Z)
    (ip fp : str) :
  forallb is_digit ip = true -> forallb is_digit fp = true ->
  (length fp <= 22)%nat ->
  bigxnum2big pow10 amount (ip ++ chr_dot :: fp) =
  Some (Z.quot (digits_val (ip ++ fp) * amount) (10 ^ Z.of_nat (length fp))).
Proof.
  intros Hi Hf Hk. unfold bigxnum2big.
  rewrite trim_id.
  2:{ intros c Hc. apply in_app_or in Hc as [Hc | [<- | Hc]].
      - now apply (digits_no_space ip).
      - reflexivity.
      - now apply (digits_no_space fp). }
  rewrite strip_dot_zeros_digits by assumption.
  cbn [strip_dot_zeros]. change (is_dot chr_dot) with true. cbn [andb].
  destruct (forallb is_zero fp) eqn:Hz.
  - rewrite app_nil_r, (indexOf_dot_digits _ Hi), (BigInt_of_str_digits _ Hi).
    cbn [option_map]. f_equal.
    rewrite digits_val_app, (digits_val_zeros _ Hz), Z.add_0_r.
    rewrite <- Z.mul_assoc, (Z.mul_comm (10 ^ _)), Z.mul_assoc.
    rewrite Z.quot_mul; [reflexivity |].
    apply Z.pow_nonzero; lia.
  - rewrite (strip_dot_zeros_id _ Hf), (indexOf_dot_app _ _ Hi).
    rewrite (remove_first_dot_app _ _ Hi).
    rewrite BigInt_of_str_digits by (now rewrite forallb_app, Hi, Hf).
    replace (length (ip ++ chr_dot :: fp) - length ip - 1)%nat
      with (length fp) by (rewrite length_app; cbn [length]; lia).
    now rewrite (BigInt_of_pow10 pow10 _ Hk).
Qed.

Lemma bigxnum2big_without_point (pow10 : nat -> float) (amount : Z)
    (ip : str) :
  forallb is_digit ip = true ->
  bigxnum2big pow10 amount ip = Some (digits_val ip * amount).
Proof.
  intros Hi. unfold bigxnum2big.
  rewrite (trim_id _ (digits_no_space _ Hi)), (strip_dot_zeros_id _ Hi).
  now rewrite (indexOf_dot_digits _ Hi), (BigInt_of_str_digits _ Hi).
Qed.

(** C7: for a non-negative amount and a factor written as digits, with or
    without a point followed by [k <= 18] fraction digits, [bigxnum2big]
    returns [floor (amount * F / 10^k)], [F] being the number the digits of
    the factor spell once the point is removed; flooring and truncation
    toward zero agree here.  Multiplying [100] by [0.5] gives [50], and
    [3] by [0.333333333333333333] gives [0].  This holds whatever the
    engine's powers of ten beyond [10^22] are. *)
Theorem bigxnum2big_floor (pow10 : nat -> float) (amount : Z)
    (ip fp factor : str) :
  0 <= amount ->
  forallb is_digit ip = true -> forallb is_digit fp = true ->
  (length fp <= 18)%nat ->
  factor = ip ++ chr_dot :: fp \/ (factor = ip /\ fp = []) ->
  let k := Z.of_nat (length fp) in
  let F := digits_val (ip ++ fp) in
  bigxnum2big pow10 amount factor = Some (amount * F / 10 ^ k) /\
  amount * F / 10 ^ k = Z.quot (amount * F) (10 ^ k) /\
  bigxnum2big pow10 100 (lit "0.5") = Some 50 /\
  bigxnum2big pow10 3 (lit "0.333333333333333333") = Some 0.
Proof.
  intros Ha Hi Hf Hk Hfac k F.
  assert (HF : 0 <= F).
  { apply digits_val_bounds. now rewrite forallb_app, Hi, Hf. }
  assert (Hq : amount * F / 10 ^ k = Z.quot (amount * F) (10 ^ k)).
  { symmetry. apply Z.quot_div_nonneg; [nia |].
    apply Z.pow_pos_nonneg; lia. }
  split; [| split; [exact Hq | split; reflexivity]].
  rewrite Hq, (Z.mul_comm amount F).
  destruct Hfac as [-> | [-> ->]].
  - apply bigxnum2big_with_point; auto; lia.
  - rewrite bigxnum2big_without_point by assumption.
    unfold F, k. rewrite app_nil_r. cbn [length Z.of_nat].
    now rewrite Z.pow_0_r, Z.quot_1_r.
Qed.

Lemma bigxnum2big_floor_witness :
  0 <= 7 /\
  forallb is_digit (lit "12") = true /\
  forallb is_digit (lit "345") = true /\
  (length (lit "345") <= 18)%nat /\
  bigxnum2big nearest_pow10 7 (lit "12.345") =
  Some (7 * digits_val (lit "12" ++ lit "345") /
        10 ^ Z.of_nat (length (lit "345"))).
Proof.
  refine (conj _ (conj _ (conj _ (conj _
    (proj1 (bigxnum2big_floor nearest_pow10 7 (lit "12") (lit "345")
              (lit "12.345") _ _ _ _ (or_introl eq_refl))))))).
  all: first [reflexivity | cbn; lia].
Defined.

(** ** Integers that are doubles *)

Lemma digits2_pos_bounds (p : positive) :
  2 ^ (Z.pos (digits2_pos p) - 1) <= Z.pos p < 2 ^ Z.pos (digits2_pos p).
Proof.
  induction p as [p IH | p IH |]; cbn [digits2_pos].
  - rewrite Pos2Z.inj_succ. replace (Z.succ (Z.pos (digits2_pos p)) - 1)
      with (Z.succ (Z.pos (digits2_pos p) - 1)) by lia.
    rewrite !Z.pow_succ_r by lia. lia.
  - rewrite Pos2Z.inj_succ. replace (Z.succ (Z.pos (digits2_pos p)) - 1)
      with (Z.succ (Z.pos (digits2_pos p) - 1)) by lia.
    rewrite !Z.pow_succ_r by lia. lia.
  - cbn. lia.
Qed.

Lemma iter_xO_value (k p : positive) :
  Z.pos (Pos.iter xO p k) = Z.pos p * 2 ^ Z.pos k.
Proof.
  revert p. induction k as [| k IH] using Pos.peano_ind; intros p.
  - cbn. lia.
  - rewrite Pos.iter_succ, Pos2Z.inj_succ, Z.pow_succ_r by lia.
    rewrite Pos2Z.inj_xO, IH. ring.
Qed.

Lemma iter_xO_digits (k p : positive) :
  digits2_pos (Pos.iter xO p k) = (digits2_pos p + k)%positive.
Proof.
  revert p. induction k as [| k IH] using Pos.peano_ind; intros p.
  - cbn. lia.
  - rewrite Pos.iter_succ. cbn [digits2_pos]. rewrite IH. lia.
Qed.

(** A mantissa of exactly 53 bits with an exponent in range is returned
    by the rounding as it is. *)
Lemma binary_round_aux_exact (m : positive) (e : Z) :
  digits2_pos m = 53%positive -> -1074 <= e <= 971 ->
  binary_round_aux 53 1024 false (Z.pos m) e loc_Exact = S754_finite false m e.
Proof.
  intros Hd He. unfold binary_round_aux, shr_fexp, fexp, emin.
  cbn [Zdigits2 shr_record_of_loc]. rewrite Hd.
  replace (Z.max (53 + e - 53) (3 - 1024 - 53) - e) with 0 by lia.
  cbn [shr shr_m loc_of_shr_record round_nearest_even Zdigits2
       shr_record_of_loc].
  rewrite Hd.
  replace (Z.max (53 + e - 53) (3 - 1024 - 53) - e) with 0 by lia.
  cbn [shr shr_m].
  destruct (Z.leb_spec e (1024 - 53)); [reflexivity | lia].
Qed.

Lemma binary_normalize_exact (p : positive) :
  Z.pos p < 2 ^ 53 ->
  exists (m : positive) (k : Z),
    binary_normalize prec emax (Z.pos p) 0 false = S754_finite false m (- k) /\
    0 <= k <= 52 /\ Z.pos m = Z.pos p * 2 ^ k /\
    valid_binary (S754_finite false m (- k)) = true.
Proof.
  intros Hp. pose proof (digits2_pos_bounds p) as [Hl Hu].
  assert (Hd : Z.pos (digits2_pos p) <= 53).
  { destruct (Z.le_gt_cases (Z.pos (digits2_pos p)) 53) as [? | G]; [assumption |].
    exfalso. assert (2 ^ 53 <= 2 ^ (Z.pos (digits2_pos p) - 1))
      by (apply Z.pow_le_mono_r; lia). lia. }
  cbn [binary_normalize]. unfold binary_round, shl_align, fexp, emin, prec, emax.
  replace (Z.max (Z.pos (digits2_pos p) + 0 - 53) (3 - 1024 - 53) - 0)
    with (Z.pos (digits2_pos p) - 53) by lia.
  replace (Z.max (Z.pos (digits2_pos p) + 0 - 53) (3 - 1024 - 53))
    with (Z.pos (digits2_pos p) - 53) by lia.
  destruct (Z.pos (digits2_pos p) - 53) as [| q | q] eqn:E; [| lia |].
  - assert (Hd53 : digits2_pos p = 53%positive) by lia.
    exists p, 0. rewrite (binary_round_aux_exact p 0 Hd53) by lia.
    repeat split; try lia.
    unfold valid_binary, bounded, canonical_mantissa, fexp, emin, prec, emax.
    rewrite Hd53. reflexivity.
  - assert (Hq : Z.pos (digits2_pos p) + Z.pos q = 53) by lia.
    assert (Hd53 : digits2_pos (Pos.iter xO p q) = 53%positive)
      by (rewrite iter_xO_digits; lia).
    exists (Pos.iter xO p q), (Z.pos q).
    change (- Z.pos q) with (Z.neg q).
    rewrite (binary_round_aux_exact _ _ Hd53) by lia.
    repeat split; try lia.
    + apply iter_xO_value.
    + unfold valid_binary, bounded, canonical_mantissa, fexp, emin, prec, emax.
      rewrite Hd53.
      destruct (Z.eqb_spec (Z.max (53 + Z.neg q - 53) (3 - 1024 - 53)) (Z.neg q));
        [| lia].
      destruct (Z.leb_spec (Z.neg q) (1024 - 53)); [reflexivity | lia].
Qed.

(** An integer below [2^53] is a double: converting it loses nothing. *)
Lemma Z2Number_exact (a : Z) :
  0 <= a < 2 ^ 53 -> BigInt_of_Number (Z2Number a) = Some a.
Proof.
  intros Ha. destruct a as [| p | p]; [reflexivity | | lia].
  destruct (binary_normalize_exact p (proj2 Ha)) as (m & k & E & Hk & Hm & Hv).
  unfold BigInt_of_Number, Z2Number. rewrite E, (Prim2SF_SF2Prim _ Hv).
  rewrite Z.opp_involutive, Hm.
  assert (H2 : 0 < 2 ^ k) by (apply Z.pow_pos_nonneg; lia).
  rewrite Z.mod_mul, Z.eqb_refl, orb_true_r by lia.
  destruct (Z.leb_spec 0 (- k)).
  - assert (k = 0) as -> by lia. cbn. f_equal. lia.
  - f_equal. apply Z.div_mul. lia.
Qed.

(** ** [big2num] *)

(** [Number(s)] of a non-empty string of digits is the double nearest to
    the number it spells. *)
Lemma Number_of_str_digits (s : str) :
  forallb is_digit s = true -> s <> [] ->
  Number_of_str s = Z2Number (digits_val s).
Proof.
  intros H Hne. unfold Number_of_str.
  rewrite (trim_id s (digits_no_space s H)).
  destruct s as [| c t]; [contradiction |].
  pose proof H as H'. cbn [forallb] in H'.
  apply andb_true_iff in H' as [Hc _].
  now rewrite (digit_not_minus _ Hc), H.
Qed.

Lemma Number_of_digits (a : Z) :
  0 <= a -> Number_of_str (digits a) = Z2Number a.
Proof.
  intros Ha. rewrite Number_of_str_digits.
  - now rewrite digits_val_digits.
  - now apply digits_all_digit.
  - pose proof (digits_length_pos a Ha). now destruct (digits a).
Qed.

Lemma Number_of_leading (a : Z) (k : nat) :
  0 <= a -> (1 <= k <= length (digits a))%nat ->
  Number_of_str (slice (digits a) 0 k) =
  Z2Number (a / 10 ^ Z.of_nat (length (digits a) - k)).
Proof.
  intros Ha Hk. unfold slice. cbn [skipn]. rewrite Nat.sub_0_r.
  pose proof (digits_all_digit a Ha) as Hd.
  rewrite Number_of_str_digits.
  - now rewrite digits_val_firstn, digits_val_digits.
  - rewrite <- (firstn_skipn k (digits a)), forallb_app in Hd.
    now apply andb_true_iff in Hd.
  - intros E. apply (f_equal (@length ascii)) in E.
    rewrite length_firstn in E. cbn [length] in E. lia.
Qed.

(** What [big2num] computes, in terms of the absolute value and its number
    of digits. *)
Lemma big2num_formula (pow10 : nat -> float) (n : Z) :
  big2num pow10 n =
  let a := Z.abs n in
  let k := length (digits a) in
  let magnitude :=
    if (k <=? 15)%nat then Z2Number a
    else (Z2Number (a / 10 ^ Z.of_nat (k - 15))
          * Math_pow10 pow10 (k - 15))%float in
  if n =? 0 then 0%float
  else if n <? 0 then (- magnitude)%float else magnitude.
Proof.
  cbv zeta. set (a := Z.abs n). set (k := length (digits a)).
  assert (Ha : 0 <= a) by apply Z.abs_nonneg.
  unfold big2num. destruct (Z.eqb_spec n 0) as [E | N]; [reflexivity |].
  assert (Eabs : (if n <? 0 then - n else n) = a).
  { unfold a. destruct (Z.ltb_spec n 0); lia. }
  rewrite Eabs, (BigInt_toString_nonneg a Ha). fold k.
  destruct (Nat.leb_spec k 15) as [Hk | Hk].
  - now rewrite (Number_of_digits a Ha).
  - rewrite (Number_of_leading a 15 Ha) by (fold k; lia). reflexivity.
Qed.

(** The sign is carried by negating the magnitude. *)
Lemma big2num_opp (pow10 : nat -> float) (n : Z) :
  0 < n -> big2num pow10 (- n) = (- big2num pow10 n)%float.
Proof.
  intros Hn. rewrite !big2num_formula. cbv zeta. rewrite Z.abs_opp.
  destruct (Z.eqb_spec n 0), (Z.eqb_spec (- n) 0); try lia.
  destruct (Z.ltb_spec n 0), (Z.ltb_spec (- n) 0); try lia.
  reflexivity.
Qed.

(** C9: [big2num] returns [0] for [0].  For an integer whose absolute
    value [a] has [k <= 15] decimal digits it converts [a] directly, and the
    Number it returns is [a] exactly.  For a longer one it takes the leading
    15 digits, the integer [lead = a / 10^(k - 15)], converts them exactly
    and multiplies by [Math.pow(10, k - 15)]; that scale is [10^(k - 15)]
    itself up to 37 digits and the engine's approximation [pow10 (k - 15)]
    of it beyond.  The later digits play no part: [big2num (10^20 + 1)] is
    [big2num (10^20)], the Number [1e20].  The magnitude is negated for a
    negative input. *)
Theorem big2num_leading_digits (pow10 : nat -> float) (n : Z) :
  let a := Z.abs n in
  let k := length (digits a) in
  let lead := if (k <=? 15)%nat then a else a / 10 ^ Z.of_nat (k - 15) in
  let scale := Math_pow10 pow10 (k - 15) in
  let magnitude :=
    if (k <=? 15)%nat then Z2Number lead else (Z2Number lead * scale)%float in
  big2num pow10 n =
    (if n =? 0 then 0%float
     else if n <? 0 then (- magnitude)%float else magnitude) /\
  (digits_val (digits a) = a /\
   (n = 0 \/ 10 ^ (Z.of_nat k - 1) <= a < 10 ^ Z.of_nat k)) /\
  (digits_val (firstn 15 (digits a)) = lead /\
   0 <= lead < 10 ^ 15 /\
   BigInt_of_Number (Z2Number lead) = Some lead) /\
  (if (k <=? 37)%nat
   then BigInt_of_Number scale = Some (10 ^ Z.of_nat (k - 15))
   else scale = pow10 (k - 15)%nat) /\
  big2num pow10 (- a) =
    (if n =? 0 then 0%float else (- big2num pow10 a)%float) /\
  big2num pow10 (10 ^ 20 + 1) = big2num pow10 (10 ^ 20) /\
  big2num pow10 (10 ^ 20 + 1) = 1e20%float /\
  big2num pow10 123456789012345 = 123456789012345%float /\
  big2num pow10 (- 1234567890123456) = (- 1234567890123450)%float.
Proof.
  intros a k lead scale magnitude.
  assert (Ha : 0 <= a) by apply Z.abs_nonneg.
  assert (Hlead : digits_val (firstn 15 (digits a)) = lead /\
                  0 <= lead < 10 ^ 15).
  { unfold lead. fold k. destruct (Nat.leb_spec k 15) as [Hk | Hk].
    - rewrite firstn_all2 by exact Hk. rewrite digits_val_digits by exact Ha.
      split; [reflexivity |]. split; [exact Ha |].
      destruct (Z.eq_dec a 0) as [-> | N]; [lia |].
      pose proof (digits_length_bounds a ltac:(lia)) as [_ Hu]. fold k in Hu.
      apply Z.lt_le_trans with (1 := Hu).
      apply Z.pow_le_mono_r; lia.
    - rewrite digits_val_firstn by (now apply digits_all_digit).
      rewrite digits_val_digits by exact Ha. fold k.
      split; [reflexivity |].
      pose proof (digits_length_bounds a) as Hb. fold k in Hb.
      assert (Hp : 0 < 10 ^ Z.of_nat (k - 15)) by (apply Z.pow_pos_nonneg; lia).
      split; [apply Z.div_pos; lia |].
      apply Z.div_lt_upper_bound; [exact Hp |].
      rewrite <- Z.pow_add_r by lia.
      replace (Z.of_nat (k - 15) + 15) with (Z.of_nat k) by lia.
      apply Hb. destruct (Z.eq_dec a 0) as [E | N]; [| lia].
      exfalso. unfold k in Hk. rewrite E in Hk. vm_compute in Hk. lia. }
  split; [| split; [split | split; [| split; [| split]]]].
  - rewrite big2num_formula. cbv zeta. fold a k. unfold magnitude, lead, scale.
    now destruct (k <=? 15)%nat.
  - now apply digits_val_digits.
  - destruct (Z.eq_dec n 0) as [E | N]; [now left | right].
    apply digits_length_bounds. unfold a. lia.
  - destruct Hlead as [E B]. split; [exact E |]. split; [exact B |].
    apply Z2Number_exact. split; [lia |].
    apply Z.lt_trans with (1 := proj2 B). reflexivity.
  - unfold scale. destruct (Nat.leb_spec k 37) as [Hk | Hk].
    + apply BigInt_of_pow10. lia.
    + unfold Math_pow10. destruct (Nat.leb_spec (k - 15) 22); [lia | reflexivity].
  - destruct (Z.eqb_spec n 0) as [-> | N]; [reflexivity |].
    apply big2num_opp. lia.
  - repeat split; vm_compute; reflexivity.
Qed.

(** ** [bigxnum2num] *)

(** The chunking loop ends by itself: any fuel of at least the starting
    index gives the same chunks. *)
Lemma chunks_loop_fuel (f1 : nat) :
  forall (f2 : nat) (s : str) (i : Z) (acc : list float),
    i <= Z.of_nat f1 -> i <= Z.of_nat f2 ->
    chunks_loop f1 s i acc = chunks_loop f2 s i acc.
Proof.
  induction f1 as [| f1 IH]; intros [| f2] s i acc H1 H2; cbn [chunks_loop].
  - reflexivity.
  - destruct (Z.ltb_spec 0 i); [lia | reflexivity].
  - destruct (Z.ltb_spec 0 i); [lia | reflexivity].
  - destruct (Z.ltb_spec 0 i); [| reflexivity].
    apply IH; unfold chunkSize; lia.
Qed.

(** One round of the summing loop. *)
Lemma sum_loop_cons (pow10 : nat -> float) (c : float) (t : list float)
    (i : nat) (x r : float) :
  sum_loop pow10 (c :: t) i x r =
  sum_loop pow10 t (S i) x (r + c * x * Math_pow10 pow10 (15 * i))%float.
Proof. reflexivity. Qed.

(** C1: on the 16-digit amount [10^15] the chunks are [1] and [0], most
    significant first; the code weighs the chunk at index [i] by
    [10^(15 * i)], so the leading chunk counts once and the result is [1],
    while the sum with the weights [10^(15 * (numChunks - 1 - i))] is
    [10^15]; no power of ten beyond [10^15] is involved. *)
Theorem bigxnum2num_weights_reversed (pow10 : nat -> float) :
  bigxnum2num_chunks (10 ^ 15) = [1%float; 0%float] /\
  bigxnum2num pow10 (10 ^ 15) 1 = 1%float /\
  weighted_sum_spec pow10 (bigxnum2num_chunks (10 ^ 15)) 1 = 1e15%float /\
  bigxnum2num pow10 (10 ^ 15) 1 <>
    weighted_sum_spec pow10 (bigxnum2num_chunks (10 ^ 15)) 1.
Proof.
  vm_compute. repeat split. intros E.
  apply (f_equal (fun x => PrimFloat.eqb x 1)) in E.
  vm_compute in E. discriminate.
Qed.

(** C2: for the amount [10^15], which has two chunks, the result with the
    factor [1.0] is [1]: its relative error, [(10^15 - 1) / 10^15], is far
    above twice the float64 epsilon. *)
Theorem bigxnum2num_relative_error (pow10 : nat -> float) :
  length (bigxnum2num_chunks (10 ^ 15)) = 2%nat /\
  Number_to_Q (bigxnum2num pow10 (10 ^ 15) 1) = Some 1%Q /\
  ~ (Qabs (1 - inject_Z (10 ^ 15)) / inject_Z (10 ^ 15)
     <= (2 # 1) * float64_epsilon)%Q.
Proof.
  split; [vm_compute; reflexivity |].
  split; [vm_compute; reflexivity |].
  intros H. vm_compute in H. apply H. reflexivity.
Qed.

(** ** [normalizeUnsignedFloat]: the pieces of an input *)

Lemma filter_digit_or_dot (v : str) :
  forallb is_digit_or_dot (filter is_digit_or_dot v) = true.
Proof.
  apply forallb_forall. intros c Hc. now apply filter_In in Hc.
Qed.

Lemma strip_leading_zeros_all (P : ascii -> bool) (s : str) :
  forallb P s = true -> forallb P (strip_leading_zeros s) = true.
Proof.
  induction s as [| c s IH]; intros H; [reflexivity |].
  cbn [strip_leading_zeros]. destruct (is_zero c); [| exact H].
  cbn [forallb] in H. apply andb_true_iff in H as [_ Hs]. auto.
Qed.

Lemma strip_leading_zeros_head (s : str) :
  match strip_leading_zeros s with
  | c :: _ => is_zero c = false
  | [] => True
  end.
Proof.
  induction s as [| c s IH]; [exact I |].
  cbn [strip_leading_zeros]. destruct (is_zero c) eqn:E; [exact IH | exact E].
Qed.

Lemma strip_leading_zeros_id (s : str) :
  match s with c :: _ => is_zero c = false | [] => True end ->
  strip_leading_zeros s = s.
Proof.
  destruct s as [| c t]; [reflexivity |]. cbn [strip_leading_zeros].
  now intros ->.
Qed.

(** The first dot splits a string into a part without dots and a rest. *)
Lemma indexOf_dot_Some (s : str) (i : nat) :
  indexOf_dot s = Some i ->
  s = firstn i s ++ chr_dot :: skipn (S i) s /\
  forallb (fun c => negb (is_dot c)) (firstn i s) = true /\
  length (firstn i s) = i.
Proof.
  revert i. induction s as [| c s IH]; intros i H; [discriminate |].
  cbn [indexOf_dot] in H. destruct (is_dot c) eqn:E.
  - injection H as <-. cbn. unfold is_dot in E.
    apply Ascii.eqb_eq in E. now subst c.
  - destruct (indexOf_dot s) as [j |]; [| discriminate].
    injection H as <-. destruct (IH j eq_refl) as (E1 & E2 & E3).
    change (skipn (S (S j)) (c :: s)) with (skipn (S j) s).
    cbn [firstn app forallb length]. rewrite E, E2, E3.
    repeat split. f_equal. exact E1.
Qed.

Lemma indexOf_dot_None (s : str) :
  indexOf_dot s = None ->
  forallb (fun c => negb (is_dot c)) s = true.
Proof.
  induction s as [| c s IH]; intros H; [reflexivity |].
  cbn [indexOf_dot] in H. destruct (is_dot c) eqn:E; [discriminate |].
  destruct (indexOf_dot s); [discriminate |].
  cbn [forallb]. now rewrite E, IH.
Qed.

Lemma digits_of_no_dots (s : str) :
  forallb is_digit_or_dot s = true ->
  forallb (fun c => negb (is_dot c)) s = true ->
  forallb is_digit s = true.
Proof.
  induction s as [| c s IH]; intros H1 H2; [reflexivity |].
  cbn [forallb] in *. apply andb_true_iff in H1 as [Hc Hs].
  apply andb_true_iff in H2 as [Hd Hn].
  rewrite IH by assumption. unfold is_digit_or_dot in Hc.
  destruct (is_dot c); [discriminate |]. now rewrite orb_false_r in Hc; rewrite Hc.
Qed.

Lemma remove_dots_digits (s : str) :
  forallb is_digit_or_dot s = true ->
  forallb is_digit (remove_dots s) = true.
Proof.
  intros H. apply digits_of_no_dots.
  - apply forallb_forall. intros c Hc. apply filter_In in Hc as [Hc _].
    rewrite forallb_forall in H. now apply H.
  - apply forallb_forall. intros c Hc. now apply filter_In in Hc.
Qed.

Lemma remove_dots_id (s : str) :
  forallb is_digit s = true -> remove_dots s = s.
Proof.
  induction s as [| c s IH]; intros H; [reflexivity |].
  cbn [forallb] in H. apply andb_true_iff in H as [Hc Hs].
  cbn [remove_dots filter]. rewrite (digit_not_dot _ Hc). cbn [negb].
  f_equal. now apply IH.
Qed.

Lemma includes_dot_digits (s : str) :
  forallb is_digit s = true -> includes_dot s = false.
Proof.
  induction s as [| c s IH]; intros H; [reflexivity |].
  cbn [forallb] in H. apply andb_true_iff in H as [Hc Hs].
  cbn [includes_dot existsb]. rewrite (digit_not_dot _ Hc). now apply IH.
Qed.

Lemma includes_dot_app (s t : str) : includes_dot (s ++ chr_dot :: t) = true.
Proof.
  unfold includes_dot. rewrite existsb_app. cbn [existsb].
  change (is_dot chr_dot) with true. now rewrite orb_true_r.
Qed.

Lemma split_dot_aux_digits (s cur : str) :
  forallb is_digit s = true -> split_dot_aux cur s = [rev cur ++ s].
Proof.
  revert cur. induction s as [| c s IH]; intros cur H.
  - cbn. now rewrite app_nil_r.
  - cbn [forallb] in H. apply andb_true_iff in H as [Hc Hs].
    cbn [split_dot_aux]. rewrite (digit_not_dot _ Hc), IH by assumption.
    cbn [rev]. now rewrite <- app_assoc.
Qed.

Lemma split_dot_aux_app (s t cur : str) :
  forallb is_digit s = true ->
  split_dot_aux cur (s ++ chr_dot :: t) = (rev cur ++ s) :: split_dot_aux [] t.
Proof.
  revert cur. induction s as [| c s IH]; intros cur H.
  - cbn. now rewrite app_nil_r.
  - cbn [forallb] in H. apply andb_true_iff in H as [Hc Hs].
    cbn [app split_dot_aux]. rewrite (digit_not_dot _ Hc), IH by assumption.
    cbn [rev]. now rewrite <- app_assoc.
Qed.

(** With a single dot, the destructured [split('.')] is the text in front
    of the dot and the text behind it. *)
Lemma split_whole_decimal_app (w f : str) :
  forallb is_digit w = true -> forallb is_digit f = true ->
  split_whole_decimal (w ++ chr_dot :: f) = (w, Some f).
Proof.
  intros Hw Hf. unfold split_whole_decimal, split_dot.
  rewrite split_dot_aux_app, split_dot_aux_digits by assumption.
  reflexivity.
Qed.

Lemma all_zeros_digits (s : str) :
  all_zeros s = true -> forallb is_digit s = true.
Proof.
  intros H. assert (Hz : forallb is_zero s = true)
    by (destruct s; [discriminate | exact H]).
  apply forallb_forall. intros c Hc. apply zero_is_digit.
  rewrite forallb_forall in Hz. now apply Hz.
Qed.

Lemma strip_leading_zeros_zeros (s : str) :
  forallb is_zero s = true -> strip_leading_zeros s = [].
Proof.
  induction s as [| c s IH]; intros H; [reflexivity |].
  cbn [forallb] in H. apply andb_true_iff in H as [Hc Hs].
  cbn [strip_leading_zeros]. rewrite Hc. auto.
Qed.

(** A string of digits and dots is all digits, or has a first dot with
    digits only in front of it. *)
Lemma dot_decompose (s : str) :
  forallb is_digit_or_dot s = true ->
  forallb is_digit s = true \/
  exists w rest : str,
    s = w ++ chr_dot :: rest /\
    forallb is_digit w = true /\ forallb is_digit_or_dot rest = true.
Proof.
  intros H. destruct (indexOf_dot s) as [i |] eqn:E.
  - right. destruct (indexOf_dot_Some s i E) as (E1 & E2 & _).
    exists (firstn i s), (skipn (S i) s). split; [exact E1 |].
    rewrite E1, forallb_app in H. apply andb_true_iff in H as [Hw Hr].
    cbn [forallb] in Hr. apply andb_true_iff in Hr as [_ Hr].
    split; [| exact Hr]. now apply digits_of_no_dots.
  - left. apply digits_of_no_dots; [exact H |]. now apply indexOf_dot_None.
Qed.

Lemma firstn_S_length_app {A : Type} (s t : list A) (x : A) :
  firstn (length s + 1) (s ++ x :: t) = s ++ [x].
Proof.
  induction s as [| y s IH]; [reflexivity |].
  cbn [length app Nat.add firstn]. now rewrite IH.
Qed.

Lemma skipn_length_plus_cons {A : Type} (s t : list A) (x : A) :
  skipn (length s + 1) (s ++ x :: t) = t.
Proof. rewrite Nat.add_1_r. apply skipn_length_cons. Qed.

Lemma keep_first_dot_digits (s : str) :
  forallb is_digit s = true -> keep_first_dot s = s.
Proof.
  intros H. unfold keep_first_dot. now rewrite indexOf_dot_digits.
Qed.

Lemma keep_first_dot_app (w rest : str) :
  forallb is_digit w = true ->
  keep_first_dot (w ++ chr_dot :: rest) = w ++ chr_dot :: remove_dots rest.
Proof.
  intros H. unfold keep_first_dot, slice, slice_from.
  rewrite (indexOf_dot_app _ _ H). cbn [skipn]. rewrite Nat.sub_0_r.
  rewrite firstn_S_length_app, skipn_length_plus_cons.
  now rewrite <- app_assoc.
Qed.

Lemma whole_shown_digits (w : str) :
  forallb is_digit w = true -> forallb is_digit (whole_shown w) = true.
Proof. destruct w; [reflexivity | auto]. Qed.

Lemma whole_shown_length (w : str) (n : nat) :
  (1 <= n)%nat -> (n <? length (whole_shown w))%nat = (n <? length w)%nat.
Proof.
  intros H. destruct w as [| c t]; [| reflexivity].
  change ((n <? 1)%nat = (n <? 0)%nat).
  destruct (Nat.ltb_spec n 1), (Nat.ltb_spec n 0); auto; lia.
Qed.

Lemma add_leading_zero_digits (s : str) :
  forallb is_digit s = true -> add_leading_zero s = s.
Proof.
  intros H. unfold add_leading_zero. destruct s as [| c t]; [reflexivity |].
  cbn [forallb] in H. apply andb_true_iff in H as [Hc _].
  cbn [startsWith_dot]. now rewrite (digit_not_dot _ Hc).
Qed.

Lemma add_leading_zero_app (w f : str) :
  forallb is_digit w = true ->
  add_leading_zero (w ++ chr_dot :: f) = whole_shown w ++ chr_dot :: f.
Proof.
  intros H. unfold add_leading_zero. destruct w as [| c t]; [reflexivity |].
  cbn [forallb] in H. apply andb_true_iff in H as [Hc _].
  cbn [app startsWith_dot]. now rewrite (digit_not_dot _ Hc).
Qed.

Lemma limit_digits_digits (s : str) :
  forallb is_digit s = true -> limit_digits s = firstn 9 s.
Proof.
  intros H. unfold limit_digits, slice. rewrite (includes_dot_digits _ H).
  cbn [skipn]. destruct (Nat.ltb_spec 9 (length s)); [reflexivity |].
  symmetry. now apply firstn_all2.
Qed.

(** What the limiting block returns on an integer part, a dot and a
    fraction part. *)
Lemma limit_digits_app (w f : str) :
  forallb is_digit w = true -> forallb is_digit f = true ->
  limit_digits (w ++ chr_dot :: f) =
  if (18 <? length f)%nat then w ++ chr_dot :: firstn 18 f
  else if (9 <? length w)%nat then firstn 9 w ++ chr_dot :: f
  else w ++ chr_dot :: f.
Proof.
  intros Hw Hf. unfold limit_digits, slice.
  rewrite includes_dot_app, split_whole_decimal_app by assumption.
  cbn [skipn str_of_piece]. change (lit ".") with [chr_dot].
  cbn [app]. rewrite !Nat.sub_0_r.
  destruct (Nat.ltb_spec 18 (length f)) as [L | L].
  - destruct (Nat.eqb_spec (length f) 0); [lia | reflexivity].
  - now rewrite andb_false_r.
Qed.

Lemma includes_dot_strip (s : str) :
  includes_dot (strip_leading_zeros s) = includes_dot s.
Proof.
  induction s as [| c s IH]; [reflexivity |].
  cbn [strip_leading_zeros]. destruct (is_zero c) eqn:E; [| reflexivity].
  rewrite IH. cbn [includes_dot existsb]. apply Ascii.eqb_eq in E. now subst c.
Qed.

Lemma int_frac_digits_nodot (v : str) :
  forallb is_digit (strip_leading_zeros (filter is_digit_or_dot v)) = true ->
  int_digits v = strip_leading_zeros (filter is_digit_or_dot v) /\
  frac_digits v = [].
Proof.
  intros H. unfold int_digits, frac_digits. cbv zeta.
  now rewrite (indexOf_dot_digits _ H).
Qed.

Lemma int_frac_digits_dot (v w rest : str) :
  strip_leading_zeros (filter is_digit_or_dot v) = w ++ chr_dot :: rest ->
  forallb is_digit w = true ->
  int_digits v = w /\ frac_digits v = remove_dots rest.
Proof.
  intros E H. unfold int_digits, frac_digits. cbv zeta.
  rewrite E, (indexOf_dot_app _ _ H), firstn_length_app, skipn_length_cons.
  now split.
Qed.

(** [normalizeUnsignedFloat] in closed form, over the integer digits [w]
    and the fraction digits [f] of the input. *)
Lemma normalize_shape (v : str) :
  let r := filter is_digit_or_dot v in
  let w := int_digits v in
  let f := frac_digits v in
  forallb is_digit w = true /\ forallb is_digit f = true /\
  match w with c :: _ => is_zero c = false | [] => True end /\
  normalizeUnsignedFloat v =
    match v with
    | [] => []
    | _ =>
      if all_zeros r then lit "0"
      else if includes_dot r then limited w f
      else firstn 9 w
    end.
Proof.
  intros r w f.
  pose proof (filter_digit_or_dot v) as Hr. fold r in Hr.
  pose proof (strip_leading_zeros_all _ _ Hr) as Hz.
  pose proof (strip_leading_zeros_head r) as Hh.
  pose proof (includes_dot_strip r) as Hi.
  destruct (dot_decompose _ Hz) as [Hd | (w0 & rest & Ez & Hw & Hrest)].
  - destruct (int_frac_digits_nodot v Hd) as [Ew Ef].
    fold w in Ew. fold f in Ef. fold r in Ew.
    rewrite (includes_dot_digits _ Hd) in Hi.
    rewrite Ew, Ef. repeat split; try assumption.
    destruct v as [| c0 v0]; [reflexivity |].
    unfold normalizeUnsignedFloat. cbv zeta. fold r.
    destruct (all_zeros r); [reflexivity |]. rewrite <- Hi.
    now rewrite keep_first_dot_digits, add_leading_zero_digits,
      limit_digits_digits.
  - destruct (int_frac_digits_dot v w0 rest Ez Hw) as [Ew Ef].
    fold w in Ew. fold f in Ef.
    rewrite Ez, includes_dot_app in Hi.
    assert (Hf : forallb is_digit f = true)
      by (rewrite Ef; now apply remove_dots_digits).
    assert (Hz0 : all_zeros r = false).
    { destruct (all_zeros r) eqn:A; [| reflexivity].
      apply all_zeros_digits, includes_dot_digits in A. congruence. }
    rewrite Ew. repeat split; try assumption.
    + rewrite Ez in Hh. now destruct w0.
    + destruct v as [| c0 v0]; [discriminate Hi |].
      unfold normalizeUnsignedFloat. cbv zeta. fold r.
      rewrite Hz0, <- Hi, Ez.
      rewrite keep_first_dot_app, add_leading_zero_app by assumption.
      rewrite limit_digits_app
        by (try apply whole_shown_digits; try apply remove_dots_digits;
            assumption).
      rewrite <- Ef. unfold limited. now rewrite whole_shown_length by lia.
Qed.

(** ** [normalizeUnsignedFloat] and the DecimalString grammar *)

Lemma forallb_firstn {A : Type} (P : A -> bool) (n : nat) (s : list A) :
  forallb P s = true -> forallb P (firstn n s) = true.
Proof.
  intros H. rewrite <- (firstn_skipn n s), forallb_app in H.
  now apply andb_true_iff in H.
Qed.

(** At most nine integer digits without a leading zero, or a lone [0],
    make a well-formed integer part. *)
Lemma int_part_ok_shown (w : str) :
  forallb is_digit w = true ->
  match w with c :: _ => is_zero c = false | [] => True end ->
  int_part_ok (firstn 9 (whole_shown w)) = true.
Proof.
  intros Hd Hh. destruct w as [| c t]; [reflexivity |].
  change (firstn 9 (whole_shown (c :: t))) with (c :: firstn 8 t).
  cbn [int_part_ok]. rewrite Hh.
  cbn [forallb] in Hd. apply andb_true_iff in Hd as [Hc Ht].
  rewrite Hc, (forallb_firstn _ 8 _ Ht). cbn [andb].
  apply Nat.leb_le. rewrite length_firstn. lia.
Qed.

Lemma frac_part_ok_firstn (least : nat) (f : str) :
  forallb is_digit f = true ->
  frac_part_ok least (firstn 18 f) = (least <=? length (firstn 18 f))%nat.
Proof.
  intros H. unfold frac_part_ok. rewrite (forallb_firstn _ 18 _ H).
  cbn [andb]. rewrite length_firstn.
  destruct (Nat.leb_spec (Nat.min 18 (length f)) 18); [| lia].
  now rewrite andb_true_r.
Qed.

Lemma ends_with_dot_digits (s : str) :
  forallb is_digit s = true -> ends_with_dot s = false.
Proof.
  intros H. unfold ends_with_dot. destruct (rev s) as [| c t] eqn:E; [reflexivity |].
  apply digit_not_dot. rewrite forallb_forall in H. apply H, in_rev.
  rewrite E. now left.
Qed.

Lemma ends_with_dot_app (w f : str) :
  forallb is_digit f = true ->
  ends_with_dot (w ++ chr_dot :: f) = (length f =? 0)%nat.
Proof.
  intros H. unfold ends_with_dot.
  rewrite rev_app_distr. cbn [rev]. rewrite <- app_assoc.
  destruct (rev f) as [| c t] eqn:E.
  - apply (f_equal (@length ascii)) in E. rewrite length_rev in E.
    cbn in E. rewrite E. reflexivity.
  - cbn [app]. assert (In c f) by (apply in_rev; rewrite E; now left).
    rewrite forallb_forall in H. rewrite (digit_not_dot c (H c H0)).
    apply (f_equal (@length ascii)) in E. rewrite length_rev in E.
    cbn [length] in E. rewrite E. reflexivity.
Qed.

(** Outside the case of more than nine integer digits together with more
    than eighteen fraction digits, the output with a dot is the first nine
    integer digits, the dot and the first eighteen fraction digits. *)
Lemma normalize_limited (w f : str) :
  (length w <= 9 \/ length f <= 18)%nat ->
  limited w f = firstn 9 (whole_shown w) ++ chr_dot :: firstn 18 f.
Proof.
  intros H. unfold limited.
  assert (L : length (whole_shown w) = Nat.max 1 (length w))
    by (destruct w; reflexivity).
  destruct (Nat.ltb_spec 18 (length f)).
  - rewrite (firstn_all2 (n := 9) (whole_shown w)) by lia. reflexivity.
  - rewrite (firstn_all2 (n := 18) f) by lia.
    destruct (Nat.ltb_spec 9 (length w)); [reflexivity |].
    rewrite (firstn_all2 (n := 9) (whole_shown w)) by lia. reflexivity.
Qed.

(** C6 (amended): for an input that does not have more than nine integer
    digits together with more than eighteen fraction digits, every
    non-empty output of [normalizeUnsignedFloat] matches
    [^(0|[1-9][0-9]{0,8})(\.[0-9]{0,18})?$], the DecimalString grammar with
    a fraction that may be empty; it is a DecimalString exactly when it
    does not end in its decimal point. *)
Theorem normalize_output_grammar (v : str) :
  normalizeUnsignedFloat v <> [] ->
  (length (int_digits v) <= 9 \/ length (frac_digits v) <= 18)%nat ->
  is_DecimalString_typing (normalizeUnsignedFloat v) = true /\
  is_DecimalString (normalizeUnsignedFloat v) =
  negb (ends_with_dot (normalizeUnsignedFloat v)).
Proof.
  intros Hne Hlim.
  destruct (normalize_shape v) as (Hw & Hf & Hh & E).
  destruct v as [| c0 v0]; [now rewrite E in Hne |].
  set (v := c0 :: v0) in *. rewrite E in *. clear E.
  unfold is_DecimalString_typing, is_DecimalString.
  destruct (all_zeros (filter is_digit_or_dot v)); [split; reflexivity |].
  destruct (includes_dot (filter is_digit_or_dot v)).
  - rewrite (normalize_limited _ _ Hlim).
    assert (HW : forallb is_digit (firstn 9 (whole_shown (int_digits v))) = true)
      by (apply forallb_firstn, whole_shown_digits, Hw).
    rewrite !matches_decimal_app by assumption.
    rewrite (int_part_ok_shown _ Hw Hh), !frac_part_ok_firstn by assumption.
    rewrite ends_with_dot_app by (apply forallb_firstn, Hf).
    split; [reflexivity |]. cbn [andb].
    now destruct (length (firstn 18 (frac_digits v))).
  - assert (HW : forallb is_digit (firstn 9 (int_digits v)) = true)
      by (apply forallb_firstn, Hw).
    rewrite !matches_decimal_digits, ends_with_dot_digits by assumption.
    destruct (int_digits v) as [| c t] eqn:Ei; [now cbn in Hne |].
    change (c :: t) with (whole_shown (c :: t)).
    rewrite (int_part_ok_shown _ Hw Hh). now split.
Qed.

Lemma normalize_output_grammar_witness :
  normalizeUnsignedFloat (lit "0012.5x0") <> [] /\
  (length (int_digits (lit "0012.5x0")) <= 9 \/
   length (frac_digits (lit "0012.5x0")) <= 18)%nat /\
  is_DecimalString_typing (normalizeUnsignedFloat (lit "0012.5x0")) = true.
Proof.
  refine (conj _ (conj _
    (proj1 (normalize_output_grammar (lit "0012.5x0") _ _)))).
  - discriminate.
  - left. vm_compute. lia.
  - discriminate.
  - left. vm_compute. lia.
Defined.

(** C6 as stated fails: an input that ends in its decimal point keeps it,
    and [1.] is no DecimalString. *)
Lemma normalize_keeps_trailing_dot :
  normalizeUnsignedFloat (lit "1.") = lit "1." /\
  normalizeUnsignedFloat (lit "1.") <> [] /\
  is_DecimalString (normalizeUnsignedFloat (lit "1.")) = false.
Proof. repeat split. discriminate. Qed.

(** ** [normalizeUnsignedFloat] on inputs without a significant digit *)

Lemma digits_are_digit_or_dot (s : str) :
  forallb is_digit s = true -> forallb is_digit_or_dot s = true.
Proof.
  intros H. apply forallb_forall. intros c Hc.
  rewrite forallb_forall in H. unfold is_digit_or_dot. now rewrite (H c Hc).
Qed.

Lemma point_between_digits (w f : str) :
  forallb is_digit w = true -> forallb is_digit f = true ->
  forallb is_digit_or_dot (w ++ chr_dot :: f) = true.
Proof.
  intros Hw Hf. rewrite forallb_app. cbn [forallb].
  now rewrite !digits_are_digit_or_dot by assumption.
Qed.

Lemma filter_nothing (v : str) :
  forallb (fun c => negb (is_digit_or_dot c)) v = true ->
  filter is_digit_or_dot v = [].
Proof.
  induction v as [| c v IH]; intros H; [reflexivity |].
  cbn [forallb] in H. apply andb_true_iff in H as [Hc Hv].
  cbn [filter]. destruct (is_digit_or_dot c); [discriminate | auto].
Qed.

Lemma filter_everything (v : str) :
  forallb is_digit_or_dot v = true -> filter is_digit_or_dot v = v.
Proof.
  induction v as [| c v IH]; intros H; [reflexivity |].
  cbn [forallb] in H. apply andb_true_iff in H as [Hc Hv].
  cbn [filter]. rewrite Hc. f_equal. auto.
Qed.

Lemma remove_dots_dots (s : str) :
  forallb is_dot s = true -> remove_dots s = [].
Proof.
  induction s as [| c s IH]; intros H; [reflexivity |].
  cbn [forallb] in H. apply andb_true_iff in H as [Hc Hs].
  cbn [remove_dots filter]. rewrite Hc. cbn [negb]. auto.
Qed.

(** C4 (amended): [normalizeUnsignedFloat] is defined on every string and
    returns digits and dots only; an input with no digit and no dot gives
    the empty string, whereas a non-empty input of dots only gives
    [0.]. *)
Theorem normalize_never_fails (v : str) :
  forallb is_digit_or_dot (normalizeUnsignedFloat v) = true /\
  (forallb (fun c => negb (is_digit_or_dot c)) v = true ->
   normalizeUnsignedFloat v = []) /\
  (v <> [] -> forallb is_dot v = true ->
   normalizeUnsignedFloat v = lit "0.").
Proof.
  destruct (normalize_shape v) as (Hw & Hf & Hh & E).
  split; [| split].
  - rewrite E. destruct v as [| c0 v0]; [reflexivity |].
    destruct (all_zeros _); [reflexivity |].
    destruct (includes_dot _).
    + unfold limited.
      pose proof (whole_shown_digits _ Hw) as Hs.
      destruct (18 <? _)%nat; [| destruct (9 <? _)%nat];
        apply point_between_digits;
        try apply forallb_firstn; assumption.
    + apply digits_are_digit_or_dot, forallb_firstn, Hw.
  - intros H. destruct v as [| c0 v0]; [reflexivity |].
    unfold normalizeUnsignedFloat. rewrite (filter_nothing _ H). reflexivity.
  - intros Hne H. destruct v as [| c0 v0]; [contradiction |].
    cbn [forallb] in H. apply andb_true_iff in H as [Hc Hv].
    assert (c0 = chr_dot) as -> by (now apply Ascii.eqb_eq).
    assert (Hall : forallb is_digit_or_dot (chr_dot :: v0) = true).
    { apply forallb_forall. intros c [<- | Hc']; [reflexivity |].
      rewrite forallb_forall in Hv. unfold is_digit_or_dot.
      rewrite (Hv c Hc'). apply orb_true_r. }
    assert (Ez : strip_leading_zeros (filter is_digit_or_dot (chr_dot :: v0))
                 = [] ++ chr_dot :: v0)
      by (now rewrite (filter_everything _ Hall)).
    destruct (int_frac_digits_dot _ _ _ Ez eq_refl) as [Ew Ef].
    rewrite E, Ew, Ef, (remove_dots_dots _ Hv).
    now rewrite (filter_everything _ Hall).
Qed.

Lemma normalize_never_fails_witness :
  forallb (fun c => negb (is_digit_or_dot c)) (lit "a-b, c!") = true /\
  normalizeUnsignedFloat (lit "a-b, c!") = [].
Proof.
  refine (conj _
    (proj1 (proj2 (normalize_never_fails (lit "a-b, c!"))) _));
    reflexivity.
Defined.

(** C4 as stated fails: the dot is punctuation that the filter keeps, and
    three dots normalize to [0.], not to the empty string. *)
Lemma normalize_dots_not_empty :
  forallb is_digit (lit "...") = false /\
  existsb is_digit (lit "...") = false /\
  normalizeUnsignedFloat (lit "...") = lit "0." /\
  normalizeUnsignedFloat (lit "...") <> [].
Proof. repeat split. discriminate. Qed.

(** ** [normalizeUnsignedFloat] on zeros *)

Lemma strip_leading_zeros_to_dot (s : str) :
  forallb (fun c => is_zero c || is_dot c) s = true ->
  includes_dot s = true ->
  exists rest : str,
    strip_leading_zeros s = chr_dot :: rest /\
    forallb (fun c => is_zero c || is_dot c) rest = true.
Proof.
  induction s as [| c s IH]; intros H Hi; [discriminate |].
  cbn [forallb] in H. apply andb_true_iff in H as [Hc Hs].
  cbn [strip_leading_zeros]. destruct (is_zero c) eqn:Ec.
  - apply IH; [assumption |]. cbn [includes_dot existsb] in Hi.
    destruct (is_dot c) eqn:Ed; [| exact Hi].
    rewrite (dot_not_zero _ Ed) in Ec. discriminate.
  - cbn [orb] in Hc. exists s. split; [| assumption].
    f_equal. now apply Ascii.eqb_eq.
Qed.

Lemma remove_dots_zeros (s : str) :
  forallb (fun c => is_zero c || is_dot c) s = true ->
  forallb is_zero (remove_dots s) = true.
Proof.
  induction s as [| c s IH]; intros H; [reflexivity |].
  cbn [forallb] in H. apply andb_true_iff in H as [Hc Hs].
  cbn [remove_dots filter]. destruct (is_dot c) eqn:Ed; cbn [negb].
  - now apply IH.
  - rewrite orb_false_r in Hc. cbn [forallb]. rewrite Hc. now apply IH.
Qed.

(** C5 (amended): an input whose residue of digits and dots is one or more
    zeros and nothing else normalizes to [0].  When the residue has zeros
    and at least one dot, the zeros behind the first dot are kept: the
    result is [0.] followed by them, at most eighteen. *)
Theorem normalize_zeros (v : str) :
  let r := filter is_digit_or_dot v in
  (all_zeros r = true -> normalizeUnsignedFloat v = lit "0") /\
  (forallb (fun c => is_zero c || is_dot c) r = true ->
   includes_dot r = true ->
   forallb is_zero (frac_digits v) = true /\
   normalizeUnsignedFloat v = lit "0." ++ firstn 18 (frac_digits v)).
Proof.
  intros r. split.
  - intros H. destruct v as [| c0 v0]; [discriminate H |].
    unfold normalizeUnsignedFloat. cbv zeta. fold r. now rewrite H.
  - intros Hzd Hi.
    destruct (strip_leading_zeros_to_dot r Hzd Hi) as (rest & Ez & Hrest).
    destruct (int_frac_digits_dot v [] rest Ez eq_refl) as [Ew Ef].
    destruct (normalize_shape v) as (_ & _ & _ & E). fold r in E.
    split; [rewrite Ef; now apply remove_dots_zeros |].
    destruct v as [| c0 v0]; [discriminate Hi |].
    assert (Hz0 : all_zeros r = false).
    { destruct (all_zeros r) eqn:A; [| reflexivity].
      apply all_zeros_digits, includes_dot_digits in A. congruence. }
    rewrite E, Hz0, Hi, normalize_limited by (left; rewrite Ew; cbn; lia).
    now rewrite Ew.
Qed.

Lemma normalize_zeros_witness :
  all_zeros (filter is_digit_or_dot (lit "0-0 0")) = true /\
  normalizeUnsignedFloat (lit "0-0 0") = lit "0".
Proof.
  refine (conj _ (proj1 (normalize_zeros (lit "0-0 0")) _)); reflexivity.
Defined.

(** C5 as stated fails: zeros around a dot are not collapsed. *)
Lemma normalize_zero_dot_zero :
  filter is_digit_or_dot (lit "0.0") = lit "0.0" /\
  normalizeUnsignedFloat (lit "0.0") = lit "0.0" /\
  normalizeUnsignedFloat (lit "0.0") <> lit "0" /\
  normalizeUnsignedFloat (lit "00.00") = lit "0.00".
Proof. repeat split. discriminate. Qed.

(** ** [normalizeUnsignedFloat] twice *)

(** C10: with ten integer digits and nineteen fraction digits, the first
    pass cuts the fraction to eighteen digits and leaves all ten integer
    digits in place; the second pass then cuts the integer part to nine
    digits, so the two results differ. *)
Theorem normalize_twice_differs :
  let s := lit "1234567890.1234567890123456789" in
  normalizeUnsignedFloat s = lit "1234567890.123456789012345678" /\
  normalizeUnsignedFloat (normalizeUnsignedFloat s) =
    lit "123456789.123456789012345678" /\
  normalizeUnsignedFloat (normalizeUnsignedFloat s) <>
    normalizeUnsignedFloat s.
Proof. vm_compute. repeat split. discriminate. Qed.

(** A canonical integer string is left as it is. *)
Lemma normalize_canonical_int (w : str) :
  forallb is_digit w = true ->
  match w with c :: _ => is_zero c = false | [] => True end ->
  (length w <= 9)%nat ->
  normalizeUnsignedFloat w = w.
Proof.
  intros Hd Hh Hl. destruct w as [| c t]; [reflexivity |].
  unfold normalizeUnsignedFloat. cbv zeta.
  rewrite (filter_everything _ (digits_are_digit_or_dot _ Hd)).
  cbn [all_zeros forallb]. rewrite Hh. cbn [andb].
  rewrite (strip_leading_zeros_id (c :: t) Hh).
  rewrite keep_first_dot_digits, add_leading_zero_digits,
    limit_digits_digits by assumption.
  now apply firstn_all2.
Qed.

(** So is a canonical integer part with a dot and at most eighteen
    fraction digits. *)
Lemma normalize_canonical_dot (w f : str) :
  forallb is_digit w = true -> forallb is_digit f = true ->
  match w with c :: _ => is_zero c = false | [] => True end ->
  (length w <= 9)%nat -> (length f <= 18)%nat ->
  normalizeUnsignedFloat (whole_shown w ++ chr_dot :: f) =
  whole_shown w ++ chr_dot :: f.
Proof.
  intros Hw Hf Hh Lw Lf.
  pose proof (whole_shown_digits _ Hw) as Hs.
  pose proof (point_between_digits _ _ Hs Hf) as Hall.
  assert (Hz0 : all_zeros (whole_shown w ++ chr_dot :: f) = false).
  { destruct (all_zeros _) eqn:A; [| reflexivity].
    apply all_zeros_digits, includes_dot_digits in A.
    now rewrite includes_dot_app in A. }
  assert (Ez : strip_leading_zeros (whole_shown w ++ chr_dot :: f) =
               w ++ chr_dot :: f).
  { destruct w as [| c t]; [reflexivity |].
    now apply (strip_leading_zeros_id ((c :: t) ++ chr_dot :: f)). }
  assert (Hne : whole_shown w ++ chr_dot :: f <> [])
    by (destruct (whole_shown w); discriminate).
  unfold normalizeUnsignedFloat.
  destruct (whole_shown w ++ chr_dot :: f) as [| c0 s0] eqn:Es;
    [contradiction |].
  cbv zeta. rewrite (filter_everything _ Hall), Hz0, Ez.
  rewrite keep_first_dot_app, add_leading_zero_app by assumption.
  rewrite (remove_dots_id _ Hf), limit_digits_app by assumption.
  destruct (Nat.ltb_spec 18 (length f)); [lia |].
  assert (L : length (whole_shown w) = Nat.max 1 (length w))
    by (destruct w; reflexivity).
  destruct (Nat.ltb_spec 9 (length (whole_shown w))); [lia | exact Es].
Qed.

(** Normalizing twice is normalizing once, for every input that does not
    have more than nine integer digits together with more than eighteen
    fraction digits. *)
Lemma normalize_idempotent_limited (v : str) :
  (length (int_digits v) <= 9 \/ length (frac_digits v) <= 18)%nat ->
  normalizeUnsignedFloat (normalizeUnsignedFloat v) = normalizeUnsignedFloat v.
Proof.
  intros Hlim.
  destruct (normalize_shape v) as (Hw & Hf & Hh & E).
  rewrite E. destruct v as [| c0 v0]; [reflexivity |].
  destruct (all_zeros _); [reflexivity |].
  destruct (includes_dot _).
  - rewrite (normalize_limited _ _ Hlim).
    set (w := int_digits (c0 :: v0)) in *.
    set (f := frac_digits (c0 :: v0)) in *.
    assert (Ew : firstn 9 (whole_shown w) = whole_shown (firstn 9 w)).
    { destruct w as [| c t]; reflexivity. }
    rewrite Ew. apply normalize_canonical_dot.
    + now apply forallb_firstn.
    + now apply forallb_firstn.
    + destruct w; [exact I | exact Hh].
    + rewrite length_firstn. lia.
    + rewrite length_firstn. lia.
  - apply normalize_canonical_int.
    + now apply forallb_firstn.
    + destruct (int_digits (c0 :: v0)); [exact I | exact Hh].
    + rewrite length_firstn. lia.
Qed.

(** ** [bigxnum2num] on a single chunk *)

(** An amount of at most fifteen digits is one chunk, which the code
    weighs by [10^0]: there the result is the chunk times the factor. *)
Lemma bigxnum2num_single_chunk (pow10 : nat -> float) (n : Z) (x : float) :
  0 < n < 10 ^ 15 -> (x =? 0)%float = false ->
  bigxnum2num_chunks n = [Z2Number n] /\
  bigxnum2num pow10 n x = (0 + Z2Number n * x * 1)%float.
Proof.
  intros Hn Hx.
  assert (Hl : (length (digits n) <= 15)%nat)
    by (apply digits_length_le; [lia | lia | exact (proj2 Hn)]).
  pose proof (digits_length_pos n ltac:(lia)) as Hp.
  assert (Ec : bigxnum2num_chunks n = [Z2Number n]).
  { unfold bigxnum2num_chunks. rewrite BigInt_toString_nonneg by lia.
    destruct (length (digits n)) as [| f] eqn:El; [lia |].
    cbn [chunks_loop]. destruct (Z.ltb_spec 0 (Z.of_nat (S f))); [| lia].
    replace (Z.max 0 (Z.of_nat (S f) - Z.of_nat chunkSize)) with 0
      by (unfold chunkSize; lia).
    rewrite Nat2Z.id. unfold slice. cbn [Z.to_nat skipn].
    rewrite Nat.sub_0_r, <- El, firstn_all, (Number_of_digits n) by lia.
    rewrite (chunks_loop_fuel f 0) by (unfold chunkSize; lia).
    reflexivity. }
  split; [exact Ec |].
  unfold bigxnum2num. rewrite Hx, Ec.
  destruct (Z.eqb_spec n 0); [lia | reflexivity].
Qed.

(** ** The examples of the specification *)

Example normalize_examples :
  normalizeUnsignedFloat (lit "007") = lit "7" /\
  normalizeUnsignedFloat (lit "0000") = lit "0" /\
  normalizeUnsignedFloat (lit "12.34.56") = lit "12.3456" /\
  normalizeUnsignedFloat (lit "1234567890.5") = lit "123456789.5" /\
  normalizeUnsignedFloat (lit ".5") = lit "0.5" /\
  normalizeUnsignedFloat [] = [].
Proof. repeat split. Qed.

Example big2str_examples :
  big2str 1234 2 = lit "12.34" /\
  big2str 5 2 = lit "0.05" /\
  big2str 123 0 = lit "123.".
Proof. repeat split. Qed.

Example parse_examples :
  parse (lit "12.34") 2 = inr 1234 /\
  parse (lit "1.2345") 2 = inl PrecisionOverflow /\
  parse (lit "01") 2 = inl InvalidFormat.
Proof. repeat split. Qed.

Example bigxnum2big_examples (pow10 : nat -> float) :
  bigxnum2big pow10 100 (lit "0.5") = Some 50 /\
  bigxnum2big pow10 3 (lit "0.333333333333333333") = Some 0 /\
  bigxnum2big pow10 3 (lit " 2.50 ") = Some 7 /\
  bigxnum2big pow10 3 (ascii_of_nat 160 :: lit "2.5") = Some 7 /\
  bigxnum2big pow10 3 (lit "abc") = None.
Proof. repeat split. Qed.

(** ** [bigxnum2num] on two chunks *)

Lemma Number_of_trailing (a : Z) (k : nat) :
  0 <= a -> (k < length (digits a))%nat ->
  Number_of_str (skipn k (digits a)) =
  Z2Number (a mod 10 ^ Z.of_nat (length (digits a) - k)).
Proof.
  intros Ha Hk. pose proof (digits_all_digit a Ha) as Hd.
  rewrite Number_of_str_digits.
  - now rewrite digits_val_skipn, digits_val_digits.
  - rewrite <- (firstn_skipn k (digits a)), forallb_app in Hd.
    now apply andb_true_iff in Hd.
  - intros E. apply (f_equal (@length ascii)) in E.
    rewrite length_skipn in E. cbn [length] in E. lia.
Qed.

(** An amount of sixteen to thirty digits is two chunks, the leading digits
    [n / 10^15] first.  The code adds the leading chunk with weight [10^0]
    and the trailing chunk, [n mod 10^15], with weight [10^15]. *)
Lemma bigxnum2num_two_chunks (pow10 : nat -> float) (n : Z) (x : float) :
  10 ^ 15 <= n < 10 ^ 30 -> (x =? 0)%float = false ->
  bigxnum2num_chunks n = [Z2Number (n / 10 ^ 15); Z2Number (n mod 10 ^ 15)] /\
  bigxnum2num pow10 n x =
  (0 + Z2Number (n / 10 ^ 15) * x * 1
     + Z2Number (n mod 10 ^ 15) * x * Math_pow10 pow10 15)%float.
Proof.
  intros [Hlo Hhi] Hx.
  assert (Ha : 0 <= n) by lia.
  assert (Hu : (length (digits n) <= 30)%nat)
    by (apply digits_length_le; [lia | lia | exact Hhi]).
  assert (Hl : (15 < length (digits n))%nat).
  { destruct (Nat.le_gt_cases (length (digits n)) 15) as [L | G]; [| exact G].
    apply digits_length_le in L; lia. }
  assert (Ec : bigxnum2num_chunks n =
               [Z2Number (n / 10 ^ 15); Z2Number (n mod 10 ^ 15)]).
  { unfold bigxnum2num_chunks. rewrite BigInt_toString_nonneg by lia.
    set (s := digits n) in *. set (L := length s) in *.
    rewrite (chunks_loop_fuel L (S (S L))) by lia.
    cbn [chunks_loop]. unfold chunkSize.
    destruct (Z.ltb_spec 0 (Z.of_nat L)); [| lia].
    destruct (Z.ltb_spec 0 (Z.of_nat L - Z.of_nat 15)); [| lia].
    replace (Z.max 0 (Z.of_nat L - Z.of_nat 15)) with (Z.of_nat (L - 15)) by lia.
    replace (Z.max 0 (Z.of_nat L - Z.of_nat 15 - Z.of_nat 15)) with 0 by lia.
    replace (Z.of_nat L - Z.of_nat 15) with (Z.of_nat (L - 15)) by lia.
    rewrite !Nat2Z.id.
    rewrite (chunks_loop_fuel L 0) by lia. cbn [chunks_loop Z.to_nat].
    unfold slice. replace (L - (L - 15))%nat with 15%nat by lia.
    rewrite (firstn_all2 (n := 15) (skipn (L - 15) s))
      by (rewrite length_skipn; fold L; lia).
    cbn [skipn]. rewrite Nat.sub_0_r.
    pose proof (Number_of_leading n (L - 15) Ha) as E1.
    unfold slice in E1. cbn [skipn] in E1. rewrite Nat.sub_0_r in E1.
    fold s L in E1. rewrite E1 by lia.
    pose proof (Number_of_trailing n (L - 15) Ha) as E2.
    fold s L in E2. rewrite E2 by lia.
    replace (L - (L - 15))%nat with 15%nat by lia. reflexivity. }
  split; [exact Ec |].
  unfold bigxnum2num. rewrite Hx, Ec.
  destruct (Z.eqb_spec n 0); [lia | reflexivity].
Qed.

(** * The other string helpers *)

(** ** Lists and characters *)

Ltac ascii_cases c :=
  destruct c as [[|] [|] [|] [|] [|] [|] [|] [|]].

Lemma substring_0 (s : str) (n : nat) : substring s 0 n = firstn n s.
Proof.
  unfold substring. rewrite Nat.max_0_l, Nat.min_0_l, Nat.sub_0_r.
  reflexivity.
Qed.

Lemma forallb_filter {A : Type} (p : A -> bool) (s : list A) :
  forallb p (filter p s) = true.
Proof.
  apply forallb_forall. intros c Hc. now apply filter_In in Hc.
Qed.

Lemma filter_id {A : Type} (p : A -> bool) (s : list A) :
  forallb p s = true -> filter p s = s.
Proof.
  induction s as [| c s IH]; intros H; [reflexivity |].
  cbn [forallb] in H. apply andb_true_iff in H as [Hc Hs].
  cbn [filter]. rewrite Hc. f_equal. auto.
Qed.

Lemma forallb_weaken {A : Type} (p q : A -> bool) (s : list A) :
  (forall c, p c = true -> q c = true) ->
  forallb p s = true -> forallb q s = true.
Proof.
  intros Hpq H. apply forallb_forall. intros c Hc.
  rewrite forallb_forall in H. auto.
Qed.

Lemma forallb_map {A : Type} (f : A -> A) (p q : A -> bool) (s : list A) :
  (forall c, p c = true -> q (f c) = true) ->
  forallb p s = true -> forallb q (map f s) = true.
Proof.
  intros Hf. induction s as [| c s IH]; intros H; [reflexivity |].
  cbn [forallb map] in *. apply andb_true_iff in H as [Hc Hs].
  now rewrite (Hf c Hc), IH.
Qed.

Lemma map_id_on {A : Type} (f : A -> A) (p : A -> bool) (s : list A) :
  (forall c, p c = true -> f c = c) ->
  forallb p s = true -> map f s = s.
Proof.
  intros Hf. induction s as [| c s IH]; intros H; [reflexivity |].
  cbn [forallb map] in *. apply andb_true_iff in H as [Hc Hs].
  now rewrite (Hf c Hc), IH.
Qed.

Lemma firstn_id {A : Type} (n : nat) (s : list A) :
  (length s <= n)%nat -> firstn n s = s.
Proof. apply firstn_all2. Qed.

(** Lower-casing a letter or digit gives a lower-case letter or a digit,
    and leaves those as they are. *)
Lemma toLowerCase_alnum (c : ascii) :
  is_alnum c = true ->
  is_lower (toLowerCase_char c) || is_digit (toLowerCase_char c) = true.
Proof. ascii_cases c; intros H; try discriminate H; reflexivity. Qed.

Lemma toLowerCase_lower_digit (c : ascii) :
  is_lower c || is_digit c = true -> toLowerCase_char c = c.
Proof. ascii_cases c; intros H; try discriminate H; reflexivity. Qed.

Lemma lower_digit_alnum (c : ascii) :
  is_lower c || is_digit c = true -> is_alnum c = true.
Proof. ascii_cases c; intros H; try discriminate H; reflexivity. Qed.

Lemma toLowerCase_char_idem (c : ascii) :
  toLowerCase_char (toLowerCase_char c) = toLowerCase_char c.
Proof. ascii_cases c; reflexivity. Qed.

Lemma toLowerCase_idem (s : str) :
  toLowerCase (toLowerCase s) = toLowerCase s.
Proof.
  unfold toLowerCase. rewrite map_map. apply map_ext.
  apply toLowerCase_char_idem.
Qed.

Lemma toLowerCase_length (s : str) : length (toLowerCase s) = length s.
Proof. apply length_map. Qed.

(** ** [normalizeUsername] *)

(** A string of at most 15 lower-case letters and digits is a user name
    already. *)
Lemma normalizeUsername_fixed (u : str) :
  (length u <= 15)%nat ->
  forallb (fun c => is_lower c || is_digit c) u = true ->
  normalizeUsername u = u.
Proof.
  intros Hl Hc. unfold normalizeUsername. rewrite substring_0.
  rewrite (filter_id is_alnum)
    by (exact (forallb_weaken _ _ _ lower_digit_alnum Hc)).
  unfold toLowerCase.
  rewrite (map_id_on _ _ _ toLowerCase_lower_digit Hc).
  now apply firstn_id.
Qed.

(** X1: the output of [normalizeUsername] has at most 15 characters, each a
    lower-case letter or a digit, and normalizing it again changes
    nothing. *)
Theorem normalizeUsername_shape (u : str) :
  (length (normalizeUsername u) <= 15)%nat /\
  forallb (fun c => is_lower c || is_digit c) (normalizeUsername u) = true /\
  normalizeUsername (normalizeUsername u) = normalizeUsername u.
Proof.
  assert (Hl : (length (normalizeUsername u) <= 15)%nat).
  { unfold normalizeUsername. rewrite substring_0, length_firstn. lia. }
  assert (Hc : forallb (fun c => is_lower c || is_digit c)
                 (normalizeUsername u) = true).
  { unfold normalizeUsername. rewrite substring_0.
    apply forallb_firstn, (forallb_map _ is_alnum);
      [exact toLowerCase_alnum | apply forallb_filter]. }
  repeat split; try assumption. now apply normalizeUsername_fixed.
Qed.

(** ** [normalizePhone] *)

(** X2: the output of [normalizePhone] has at most 20 characters, all
    digits; when [final] is set it is empty or has at least 7 digits. *)
Theorem normalizePhone_shape (s : str) (final : bool) :
  let out := normalizePhone s final in
  (length out <= 20)%nat /\ forallb is_digit out = true /\
  (if final then out = [] \/ (7 <= length out)%nat else True).
Proof.
  cbv zeta. unfold normalizePhone. destruct s as [| c0 s0].
  - repeat split; try (cbn; lia). destruct final; auto.
  - rewrite substring_0. set (n := firstn 20 (filter is_digit (c0 :: s0))).
    assert (Hl : (length n <= 20)%nat) by (unfold n; rewrite length_firstn; lia).
    assert (Hd : forallb is_digit n = true)
      by (apply forallb_firstn, forallb_filter).
    destruct final; cbn [andb].
    + destruct (Nat.ltb_spec (length n) 7).
      * repeat split; try (cbn; lia). now left.
      * repeat split; try assumption. now right.
    + repeat split; assumption.
Qed.

(** X3: normalizing a phone number twice is normalizing it once with
    [final] set if it was set either time; so [normalizePhone] is
    idempotent for each value of [final]. *)
Theorem normalizePhone_twice (s : str) (final1 final2 : bool) :
  normalizePhone (normalizePhone s final1) final2 =
  normalizePhone s (final1 || final2).
Proof.
  unfold normalizePhone at 2 3. destruct s as [| c0 s0]; [reflexivity |].
  rewrite substring_0. set (n := firstn 20 (filter is_digit (c0 :: s0))).
  assert (Hl : (length n <= 20)%nat) by (unfold n; rewrite length_firstn; lia).
  assert (Hd : forallb is_digit n = true)
    by (apply forallb_firstn, forallb_filter).
  assert (E : forall b, normalizePhone n b =
                        if b && (length n <? 7)%nat then [] else n).
  { intros b. unfold normalizePhone. destruct n as [| c n'] eqn:En.
    - now destruct (b && _).
    - rewrite <- En in *. rewrite substring_0, (filter_id _ _ Hd).
      now rewrite (firstn_id _ _ Hl). }
  destruct final1; cbn [andb orb].
  - destruct (Nat.ltb_spec (length n) 7) as [L | L].
    + now destruct final2.
    + rewrite E. destruct (Nat.ltb_spec (length n) 7); [lia |].
      now rewrite andb_false_r.
  - apply E.
Qed.

(** ** [normalizeEmail] *)

Lemma email_char_lower (c : ascii) :
  is_email_char c = true -> toLowerCase_char c = c.
Proof. ascii_cases c; intros H; try discriminate H; reflexivity. Qed.

Lemma email_char_not_space (c : ascii) :
  is_email_char c = true -> is_space c = false.
Proof. ascii_cases c; intros H; try discriminate H; reflexivity. Qed.

Lemma normalizeEmail_out (s : str) :
  (length (normalizeEmail s) <= 256)%nat /\
  forallb is_email_char (normalizeEmail s) = true.
Proof.
  unfold normalizeEmail.
  destruct s as [| c0 s0]; [split; [cbn; lia | reflexivity] |].
  rewrite substring_0. split.
  - rewrite length_firstn. lia.
  - apply forallb_firstn, forallb_filter.
Qed.

Lemma normalizeEmail_fixed (s : str) :
  (length s <= 256)%nat -> forallb is_email_char s = true ->
  normalizeEmail s = s.
Proof.
  intros Hl Hc. unfold normalizeEmail.
  destruct s as [| c0 s0]; [reflexivity |].
  rewrite substring_0. unfold toLowerCase.
  rewrite (map_id_on _ _ _ email_char_lower Hc).
  rewrite trim_id.
  - rewrite (filter_id _ _ Hc). now apply firstn_id.
  - intros c Hin. apply email_char_not_space.
    rewrite forallb_forall in Hc. now apply Hc.
Qed.

(** X4: the strings [normalizeEmail] leaves as they are are those of at
    most 256 characters from the class [[a-z0-9._%+-@]]; every output is
    one of them, so [normalizeEmail] is idempotent.  The class holds the
    whole range from [+] to [@]: the characters [, / : ; < = > ?] are
    kept. *)
Theorem normalizeEmail_fixed_points (s : str) :
  ((length s <= 256)%nat /\ forallb is_email_char s = true <->
   normalizeEmail s = s) /\
  normalizeEmail (normalizeEmail s) = normalizeEmail s /\
  normalizeEmail (lit "A,/:;<=>?") = lit "a,/:;<=>?".
Proof.
  pose proof (normalizeEmail_out s) as [Hl Hc].
  split; [| split; [now apply normalizeEmail_fixed | reflexivity]].
  split.
  - intros [Hl' Hc']. now apply normalizeEmail_fixed.
  - intros E. rewrite <- E. now split.
Qed.

Lemma normalizeEmail_fixed_points_witness :
  ((length (lit "a.b+c@d.io") <= 256)%nat /\
   forallb is_email_char (lit "a.b+c@d.io") = true) /\
  normalizeEmail (lit "a.b+c@d.io") = lit "a.b+c@d.io".
Proof.
  assert (H : (length (lit "a.b+c@d.io") <= 256)%nat /\
              forallb is_email_char (lit "a.b+c@d.io") = true)
    by (split; [vm_compute; lia | reflexivity]).
  exact (conj H
    (proj1 (proj1 (normalizeEmail_fixed_points (lit "a.b+c@d.io"))) H)).
Defined.

(** ** Runs of a character class *)

Section Runs.
Variable p : ascii -> bool.

Lemma starts_with_firstn (n : nat) (s : str) :
  starts_with p (firstn n s) = true -> starts_with p s = true.
Proof. destruct n, s; cbn; auto; discriminate. Qed.

Lemma no_adjacent_firstn (n : nat) (s : str) :
  no_adjacent p s = true -> no_adjacent p (firstn n s) = true.
Proof.
  revert n. induction s as [| c t IH]; intros n H; [now destruct n |].
  destruct n as [| n]; [reflexivity |].
  cbn [firstn no_adjacent] in *. apply andb_true_iff in H as [H1 H2].
  rewrite (IH n H2), andb_true_r.
  destruct (p c); [| reflexivity]. cbn [andb negb] in *.
  destruct (starts_with p (firstn n t)) eqn:E; [| reflexivity].
  apply starts_with_firstn in E. now rewrite E in H1.
Qed.

Lemma drop_leading_all (q : ascii -> bool) (s : str) :
  forallb q s = true -> forallb q (drop_leading p s) = true.
Proof.
  induction s as [| c t IH]; intros H; [reflexivity |].
  cbn [drop_leading]. destruct (p c); [| exact H].
  cbn [forallb] in H. apply andb_true_iff in H as [_ H]. auto.
Qed.

Lemma drop_leading_no_adjacent (q : ascii -> bool) (s : str) :
  no_adjacent q s = true -> no_adjacent q (drop_leading p s) = true.
Proof.
  induction s as [| c t IH]; intros H; [reflexivity |].
  cbn [drop_leading]. destruct (p c); [| exact H].
  cbn [no_adjacent] in H. apply andb_true_iff in H as [_ H]. auto.
Qed.

Lemma drop_leading_head (s : str) :
  starts_with p (drop_leading p s) = false.
Proof.
  induction s as [| c t IH]; [reflexivity |].
  cbn [drop_leading]. destruct (p c) eqn:E; [exact IH | exact E].
Qed.

Lemma drop_leading_id (s : str) :
  starts_with p s = false -> drop_leading p s = s.
Proof.
  destruct s as [| c t]; [reflexivity |]. cbn. now intros ->.
Qed.

Lemma strip_trailing_prefix (s : str) :
  exists k : nat, strip_trailing p s = firstn k s.
Proof.
  induction s as [| c t [k IH]]; [now exists O |].
  cbn [strip_trailing]. destruct (p c && forallb p t).
  - now exists O.
  - exists (S k). cbn [firstn]. now rewrite IH.
Qed.

Lemma strip_trailing_nil (s : str) :
  strip_trailing p s = [] -> forallb p s = true.
Proof.
  destruct s as [| c t]; [reflexivity |]. cbn [strip_trailing forallb].
  destruct (p c && forallb p t); [reflexivity | discriminate].
Qed.

Lemma strip_trailing_all_in (s : str) :
  forallb p s = true -> strip_trailing p s = [].
Proof.
  destruct s as [| c t]; [reflexivity |]. cbn [strip_trailing forallb].
  now intros ->.
Qed.

Lemma strip_trailing_end (s : str) :
  ends_with p (strip_trailing p s) = false.
Proof.
  induction s as [| c t IH]; [reflexivity |].
  cbn [strip_trailing]. destruct (p c && forallb p t) eqn:E; [reflexivity |].
  cbn [ends_with]. destruct (strip_trailing p t) as [| d u] eqn:Eu.
  - apply strip_trailing_nil in Eu. rewrite Eu, andb_true_r in E. exact E.
  - exact IH.
Qed.

Lemma ends_with_all (s : str) :
  forallb p s = true -> s <> [] -> ends_with p s = true.
Proof.
  induction s as [| c t IH]; intros H Hne; [contradiction |].
  cbn [forallb] in H. apply andb_true_iff in H as [Hc Ht].
  cbn [ends_with]. destruct t as [| d u]; [exact Hc |].
  apply IH; [exact Ht | discriminate].
Qed.

Lemma strip_trailing_id (s : str) :
  ends_with p s = false -> strip_trailing p s = s.
Proof.
  induction s as [| c t IH]; intros H; [reflexivity |].
  cbn [strip_trailing]. destruct (p c && forallb p t) eqn:E.
  - apply andb_true_iff in E as [Hc Ht].
    rewrite (ends_with_all (c :: t)) in H; [discriminate | | discriminate].
    cbn [forallb]. now rewrite Hc, Ht.
  - f_equal. destruct t as [| d u]; [reflexivity |]. now apply IH.
Qed.

Lemma strip_trailing_length (s : str) :
  (length (strip_trailing p s) <= length s)%nat.
Proof.
  destruct (strip_trailing_prefix s) as [k ->]. rewrite length_firstn. lia.
Qed.

(** What is in front of a character outside the class, followed by
    characters of the class only, is what stays. *)
Lemma strip_trailing_app (s t : str) (c : ascii) :
  p c = false -> forallb p t = true ->
  strip_trailing p (s ++ c :: t) = s ++ [c].
Proof.
  intros Hc Ht. induction s as [| d s IH].
  - cbn [app strip_trailing]. rewrite Hc. cbn [andb].
    now rewrite (strip_trailing_all_in t Ht).
  - cbn [app strip_trailing]. rewrite IH.
    assert (E : forallb p (s ++ c :: t) = false).
    { rewrite forallb_app. cbn [forallb]. rewrite Hc.
      now rewrite andb_false_r. }
    now rewrite E, andb_false_r.
Qed.

Variable r : ascii.
Hypothesis p_r : p r = true.

Lemma collapse_runs_all (q : ascii -> bool) (s : str) :
  q r = true -> forallb q s = true ->
  forallb q (collapse_runs p r s) = true.
Proof.
  intros Hr. induction s as [| c t IH]; intros H; [reflexivity |].
  cbn [forallb] in H. apply andb_true_iff in H as [Hc Ht].
  specialize (IH Ht). cbn [collapse_runs]. destruct (p c).
  - destruct t as [| d u]; [cbn; now rewrite Hr |].
    destruct (p d); [exact IH |]. cbn [forallb]. now rewrite Hr.
  - cbn [forallb]. now rewrite Hc.
Qed.

Lemma collapse_runs_head (s : str) :
  starts_with p (collapse_runs p r s) = starts_with p s.
Proof.
  induction s as [| c t IH]; [reflexivity |].
  cbn [collapse_runs starts_with]. destruct (p c) eqn:Ec.
  - destruct t as [| d u]; [exact p_r |].
    destruct (p d) eqn:Ed; [| exact p_r].
    rewrite IH. exact Ed.
  - exact Ec.
Qed.

Lemma collapse_runs_no_adjacent (s : str) :
  no_adjacent p (collapse_runs p r s) = true.
Proof.
  induction s as [| c t IH]; [reflexivity |].
  cbn [collapse_runs]. destruct (p c) eqn:Ec.
  - destruct t as [| d u]; [cbn; now rewrite andb_false_r |].
    destruct (p d) eqn:Ed; [exact IH |].
    cbn [no_adjacent]. rewrite IH, collapse_runs_head.
    cbn [starts_with]. now rewrite Ed, andb_false_r.
  - cbn [no_adjacent]. now rewrite Ec, IH.
Qed.

Lemma collapse_runs_id (s : str) :
  (forall c, p c = true -> c = r) ->
  no_adjacent p s = true -> collapse_runs p r s = s.
Proof.
  intros Hr. induction s as [| c t IH]; intros H; [reflexivity |].
  cbn [no_adjacent] in H. apply andb_true_iff in H as [H1 H2].
  specialize (IH H2). cbn [collapse_runs]. destruct (p c) eqn:Ec.
  - rewrite (Hr c Ec). destruct t as [| d u]; [reflexivity |].
    cbn [andb starts_with] in H1. destruct (p d); [discriminate |].
    now rewrite IH.
  - now rewrite IH.
Qed.
End Runs.

(** ** The last segment of a URL *)

Lemma lastIndexOf_slash_none (s : str) :
  includes_slash s = false -> lastIndexOf_slash s = None.
Proof.
  induction s as [| c t IH]; intros H; [reflexivity |].
  cbn [includes_slash existsb] in H. apply orb_false_iff in H as [Hc Ht].
  cbn [lastIndexOf_slash]. now rewrite (IH Ht), Hc.
Qed.

Lemma lastIndexOf_slash_app (s name : str) :
  includes_slash name = false ->
  lastIndexOf_slash (s ++ "/"%char :: name) = Some (length s).
Proof.
  intros H. induction s as [| c t IH].
  - cbn [app lastIndexOf_slash]. now rewrite (lastIndexOf_slash_none _ H).
  - cbn [app lastIndexOf_slash length]. now rewrite IH.
Qed.

Lemma url_last_segment_plain (s : str) :
  includes_slash s = false -> url_last_segment s = s.
Proof. intros H. unfold url_last_segment. now rewrite H. Qed.

(** A URL that ends in a non-empty segment without a slash, followed by
    any number of slashes, is cut down to that segment. *)
Lemma url_last_segment_url (prefix name : str) (k : nat) :
  name <> [] -> includes_slash name = false ->
  url_last_segment (prefix ++ "/"%char :: name ++ repeat "/"%char k) = name.
Proof.
  intros Hne Hn. unfold url_last_segment.
  assert (Hi : includes_slash (prefix ++ "/"%char :: name ++ repeat "/"%char k)
               = true).
  { unfold includes_slash. rewrite existsb_app. cbn [existsb].
    change (is_slash "/") with true. now rewrite orb_true_r. }
  rewrite Hi.
  destruct (exists_last Hne) as (n0 & c & ->).
  assert (Hc : is_slash c = false).
  { unfold includes_slash in Hn. rewrite existsb_app in Hn.
    apply orb_false_iff in Hn as [_ Hn]. cbn [existsb] in Hn.
    now rewrite orb_false_r in Hn. }
  assert (Hr : forallb is_slash (repeat "/"%char k) = true)
    by (clear; induction k as [| k IHk];
        [reflexivity | cbn [repeat forallb]; rewrite IHk; reflexivity]).
  replace (prefix ++ "/"%char :: (n0 ++ [c]) ++ repeat "/"%char k)
    with ((prefix ++ "/"%char :: n0) ++ c :: repeat "/"%char k)
    by (rewrite <- !app_assoc; reflexivity).
  rewrite (strip_trailing_app is_slash _ _ c Hc Hr).
  replace ((prefix ++ "/"%char :: n0) ++ [c])
    with (prefix ++ "/"%char :: (n0 ++ [c]))
    by (rewrite <- !app_assoc; reflexivity).
  rewrite (lastIndexOf_slash_app _ _ Hn).
  apply skipn_length_plus_cons.
Qed.

(** ** [normalizeLinkedinUsername] *)

Lemma linkedin_char_not_slash (c : ascii) :
  is_linkedin_char c = true -> is_slash c = false.
Proof. ascii_cases c; intros H; try discriminate H; reflexivity. Qed.

Lemma twitter_char_not_slash (c : ascii) :
  is_twitter_char c = true -> is_slash c = false.
Proof. ascii_cases c; intros H; try discriminate H; reflexivity. Qed.

Lemma hyphen_is_hyphen (c : ascii) : is_hyphen c = true -> c = "-"%char.
Proof. unfold is_hyphen. apply Ascii.eqb_eq. Qed.

Lemma no_slash_in (q : ascii -> bool) (s : str) :
  (forall c, q c = true -> is_slash c = false) ->
  forallb q s = true -> includes_slash s = false.
Proof.
  intros Hq. induction s as [| c t IH]; intros H; [reflexivity |].
  cbn [forallb] in H. apply andb_true_iff in H as [Hc Ht].
  cbn [includes_slash existsb]. rewrite (Hq c Hc). now apply IH.
Qed.

Lemma linkedin_core_ok (u : str) : linkedin_ok (linkedin_core u).
Proof.
  unfold linkedin_core. rewrite substring_0. repeat split.
  - rewrite length_firstn. lia.
  - apply forallb_firstn, drop_leading_all, collapse_runs_all;
      [reflexivity | apply forallb_filter].
  - apply no_adjacent_firstn, drop_leading_no_adjacent.
    now apply collapse_runs_no_adjacent.
  - destruct (starts_with is_hyphen (firstn 30 _)) eqn:E; [| reflexivity].
    apply starts_with_firstn in E. now rewrite drop_leading_head in E.
Qed.

Lemma linkedin_final_ok (f : bool) (s : str) :
  linkedin_ok s -> linkedin_ok (linkedin_final f s).
Proof.
  intros (Hl & Hc & Ha & Hs). unfold linkedin_final.
  destruct f; [| now repeat split].
  destruct (_ <? 3)%nat; [repeat split; cbn; lia |].
  destruct (strip_trailing_prefix is_hyphen s) as [k E]. rewrite E.
  repeat split.
  - rewrite length_firstn. lia.
  - now apply forallb_firstn.
  - now apply no_adjacent_firstn.
  - destruct (starts_with is_hyphen (firstn k s)) eqn:E'; [| reflexivity].
    apply starts_with_firstn in E'. congruence.
Qed.

Lemma normalizeLinkedinUsername_unfold (u : str) (f : bool) :
  normalizeLinkedinUsername u f =
  match u with [] => [] | _ => linkedin_final f (linkedin_core u) end.
Proof. destruct u; reflexivity. Qed.

(** On a candidate user name only the [final] step does anything. *)
Lemma normalizeLinkedinUsername_ok (s : str) (f : bool) :
  linkedin_ok s -> normalizeLinkedinUsername s f = linkedin_final f s.
Proof.
  intros (Hl & Hc & Ha & Hs). rewrite normalizeLinkedinUsername_unfold.
  destruct s as [| c t] eqn:Es; [now destruct f |]. rewrite <- Es in *.
  f_equal. unfold linkedin_core.
  rewrite url_last_segment_plain
    by (exact (no_slash_in _ _ linkedin_char_not_slash Hc)).
  rewrite (filter_id _ _ Hc).
  rewrite (collapse_runs_id _ _ _ hyphen_is_hyphen Ha).
  rewrite (drop_leading_id _ _ Hs), substring_0.
  now apply firstn_id.
Qed.

(** X5: the output of [normalizeLinkedinUsername] has at most 30
    characters, all letters, digits and hyphens, with no hyphen in front
    and no two hyphens in a row; when [final] is set it does not end in a
    hyphen either and is empty or at least 3 characters long. *)
Theorem normalizeLinkedinUsername_shape (u : str) (final : bool) :
  let out := normalizeLinkedinUsername u final in
  (length out <= 30)%nat /\ forallb is_linkedin_char out = true /\
  no_adjacent is_hyphen out = true /\ starts_with is_hyphen out = false /\
  (if final
   then ends_with is_hyphen out = false /\ (out = [] \/ (3 <= length out)%nat)
   else True).
Proof.
  cbv zeta. rewrite normalizeLinkedinUsername_unfold.
  destruct u as [| c0 u0].
  - repeat split; try (cbn; lia). destruct final; auto.
  - destruct (linkedin_final_ok final _ (linkedin_core_ok (c0 :: u0)))
      as (Hl & Hc & Ha & Hs).
    repeat split; try assumption.
    destruct final; [| exact I]. unfold linkedin_final.
    destruct (Nat.ltb_spec (length (strip_trailing is_hyphen
                                      (linkedin_core (c0 :: u0)))) 3).
    + split; [reflexivity | now left].
    + split; [apply strip_trailing_end | now right].
Qed.

Lemma linkedin_final_twice (f1 f2 : bool) (s : str) :
  linkedin_final f2 (linkedin_final f1 s) = linkedin_final (f1 || f2) s.
Proof.
  unfold linkedin_final. destruct f1; cbn [orb]; [| reflexivity].
  destruct (Nat.ltb_spec (length (strip_trailing is_hyphen s)) 3) as [L | L].
  - now destruct f2.
  - destruct f2; [| reflexivity].
    rewrite (strip_trailing_id _ _ (strip_trailing_end is_hyphen s)).
    destruct (Nat.ltb_spec (length (strip_trailing is_hyphen s)) 3);
      [lia | reflexivity].
Qed.

(** X6: normalizing a LinkedIn user name twice is normalizing it once, with
    [final] set if it was set either time; so the function is idempotent
    for each value of [final], and the final pass can follow the passes
    made while typing. *)
Theorem normalizeLinkedinUsername_twice (u : str) (final1 final2 : bool) :
  normalizeLinkedinUsername (normalizeLinkedinUsername u final1) final2 =
  normalizeLinkedinUsername u (final1 || final2).
Proof.
  rewrite (normalizeLinkedinUsername_unfold u).
  rewrite (normalizeLinkedinUsername_unfold u).
  destruct u as [| c0 u0]; [reflexivity |].
  rewrite normalizeLinkedinUsername_ok
    by (apply linkedin_final_ok, linkedin_core_ok).
  apply linkedin_final_twice.
Qed.

(** X7: a profile URL normalizes like its last path segment: for a
    non-empty segment without a slash, whatever is in front of it up to a
    slash and any slashes behind it play no part. *)
Theorem normalizeLinkedinUsername_url
    (prefix name : str) (k : nat) (final : bool) :
  name <> [] -> includes_slash name = false ->
  normalizeLinkedinUsername
    (prefix ++ "/"%char :: name ++ repeat "/"%char k) final =
  normalizeLinkedinUsername name final.
Proof.
  intros Hne Hn. rewrite !normalizeLinkedinUsername_unfold.
  destruct name as [| c t] eqn:En; [contradiction |]. rewrite <- En in *.
  assert (Hne' : name <> []) by (rewrite En; discriminate).
  destruct (prefix ++ "/"%char :: name ++ repeat "/"%char k) eqn:E;
    [now destruct prefix |].
  rewrite <- E. unfold linkedin_core.
  now rewrite (url_last_segment_url _ _ _ Hne' Hn), (url_last_segment_plain _ Hn).
Qed.

Lemma normalizeLinkedinUsername_url_witness :
  lit "john-doe" <> [] /\ includes_slash (lit "john-doe") = false /\
  normalizeLinkedinUsername
    (lit "https://www.linkedin.com/in" ++ "/"%char :: lit "john-doe" ++
     repeat "/"%char 2) true =
  normalizeLinkedinUsername (lit "john-doe") true.
Proof.
  refine (conj _ (conj _
    (normalizeLinkedinUsername_url (lit "https://www.linkedin.com/in")
       (lit "john-doe") 2 true _ _))); first [discriminate | reflexivity].
Defined.

(** ** [normalizeXTwitterUsername] *)

Lemma normalizeXTwitterUsername_unfold (u : str) (f : bool) :
  normalizeXTwitterUsername u f =
  match u with [] => [] | _ => twitter_final f (twitter_core u) end.
Proof.
  destruct u as [| c0 u0]; [reflexivity |].
  unfold normalizeXTwitterUsername, twitter_final. fold (twitter_core (c0 :: u0)).
  destruct (twitter_core (c0 :: u0)) as [| d t]; [now destruct f |].
  destruct f; [| reflexivity]. cbn [length Nat.eqb negb andb].
  now destruct (only_digits (d :: t)).
Qed.

Lemma twitter_core_ok (u : str) :
  (length (twitter_core u) <= 15)%nat /\
  forallb is_twitter_char (twitter_core u) = true.
Proof.
  unfold twitter_core. rewrite substring_0. split.
  - rewrite length_firstn. lia.
  - apply forallb_firstn, forallb_filter.
Qed.

Lemma normalizeXTwitterUsername_ok (s : str) (f : bool) :
  (length s <= 15)%nat -> forallb is_twitter_char s = true ->
  normalizeXTwitterUsername s f = twitter_final f s.
Proof.
  intros Hl Hc. rewrite normalizeXTwitterUsername_unfold.
  destruct s as [| c t] eqn:Es; [now destruct f |]. rewrite <- Es in *.
  f_equal. unfold twitter_core.
  rewrite url_last_segment_plain
    by (exact (no_slash_in _ _ twitter_char_not_slash Hc)).
  rewrite (filter_id _ _ Hc), substring_0. now apply firstn_id.
Qed.

(** X8: the output of [normalizeXTwitterUsername] has at most 15
    characters, all letters, digits and underscores; when [final] is set
    it is not made of digits only. *)
Theorem normalizeXTwitterUsername_shape (u : str) (final : bool) :
  let out := normalizeXTwitterUsername u final in
  (length out <= 15)%nat /\ forallb is_twitter_char out = true /\
  (if final then only_digits out = false else True).
Proof.
  cbv zeta. rewrite normalizeXTwitterUsername_unfold.
  destruct u as [| c0 u0].
  - repeat split; try (cbn; lia). now destruct final.
  - destruct (twitter_core_ok (c0 :: u0)) as [Hl Hc].
    unfold twitter_final. destruct final; cbn [andb].
    + destruct (only_digits (twitter_core (c0 :: u0))) eqn:E.
      * repeat split. cbn. lia.
      * repeat split; assumption.
    + repeat split; assumption.
Qed.

(** X9: normalizing an X user name twice is normalizing it once, with
    [final] set if it was set either time. *)
Theorem normalizeXTwitterUsername_twice (u : str) (final1 final2 : bool) :
  normalizeXTwitterUsername (normalizeXTwitterUsername u final1) final2 =
  normalizeXTwitterUsername u (final1 || final2).
Proof.
  rewrite (normalizeXTwitterUsername_unfold u).
  rewrite (normalizeXTwitterUsername_unfold u).
  destruct u as [| c0 u0]; [reflexivity |].
  destruct (twitter_core_ok (c0 :: u0)) as [Hl Hc].
  set (n := twitter_core (c0 :: u0)) in *.
  unfold twitter_final.
  destruct final1; cbn [andb orb].
  - destruct (only_digits n) eqn:E; [now destruct final2 |].
    rewrite normalizeXTwitterUsername_ok by assumption.
    unfold twitter_final. now rewrite E, andb_false_r.
  - now apply normalizeXTwitterUsername_ok.
Qed.

(** X10: a profile URL normalizes like its last path segment: for a
    non-empty segment without a slash, whatever is in front of it up to a
    slash and any slashes behind it play no part. *)
Theorem normalizeXTwitterUsername_url
    (prefix name : str) (k : nat) (final : bool) :
  name <> [] -> includes_slash name = false ->
  normalizeXTwitterUsername
    (prefix ++ "/"%char :: name ++ repeat "/"%char k) final =
  normalizeXTwitterUsername name final.
Proof.
  intros Hne Hn. rewrite !normalizeXTwitterUsername_unfold.
  destruct name as [| c t] eqn:En; [contradiction |]. rewrite <- En in *.
  assert (Hne' : name <> []) by (rewrite En; discriminate).
  destruct (prefix ++ "/"%char :: name ++ repeat "/"%char k) eqn:E;
    [now destruct prefix |].
  rewrite <- E. unfold twitter_core.
  now rewrite (url_last_segment_url _ _ _ Hne' Hn), (url_last_segment_plain _ Hn).
Qed.

Lemma normalizeXTwitterUsername_url_witness :
  lit "jack" <> [] /\ includes_slash (lit "jack") = false /\
  normalizeXTwitterUsername
    (lit "https://x.com" ++ "/"%char :: lit "jack" ++ repeat "/"%char 1) true =
  normalizeXTwitterUsername (lit "jack") true.
Proof.
  refine (conj _ (conj _
    (normalizeXTwitterUsername_url (lit "https://x.com") (lit "jack") 1 true
       _ _))); first [discriminate | reflexivity].
Defined.

(** ** Addresses *)

(** X11: [isValidEthereumAddress] accepts exactly the strings made of [0x]
    and 40 hexadecimal digits, of either case. *)
Theorem isValidEthereumAddress_iff (address : str) :
  isValidEthereumAddress address = true <->
  exists h : str,
    address = lit "0x" ++ h /\ length h = 40%nat /\ forallb is_hex h = true.
Proof.
  unfold isValidEthereumAddress, startsWith_0x, is_hex_address. split.
  - destruct address as [| c0 [| cx h]]; try discriminate.
    destruct (is_zero c0) eqn:E0; [| discriminate].
    destruct (Ascii.eqb cx "x") eqn:Ex; [| discriminate].
    cbn [andb negb]. destruct (length (c0 :: cx :: h) =? 42)%nat; [| discriminate].
    cbn [negb]. intros H. apply andb_true_iff in H as [Hl Hh].
    apply Nat.eqb_eq in Hl. apply Ascii.eqb_eq in E0, Ex. subst c0 cx.
    now exists h.
  - intros (h & -> & Hl & Hh). cbn [lit list_ascii_of_string app].
    change (is_zero "0") with true. change (Ascii.eqb "x" "x") with true.
    cbn [andb negb length]. rewrite Hl, Hh. reflexivity.
Qed.

Lemma isValidEthereumAddress_iff_witness :
  isValidEthereumAddress (lit "0x52908400098527886E0F7030069857D2E4169EE7")
  = true.
Proof.
  apply (proj2 (isValidEthereumAddress_iff
                  (lit "0x52908400098527886E0F7030069857D2E4169EE7"))).
  exists (lit "52908400098527886E0F7030069857D2E4169EE7").
  repeat split.
Defined.

Lemma toLowerCase_is_zero (c : ascii) :
  is_zero (toLowerCase_char c) = is_zero c.
Proof. ascii_cases c; reflexivity. Qed.

Lemma hex_not_x (c : ascii) : is_hex c = true -> Ascii.eqb c "x" = false.
Proof. ascii_cases c; intros H; try discriminate H; reflexivity. Qed.

Lemma toLowerCase_hex (c : ascii) :
  is_hex c = true -> is_hex (toLowerCase_char c) = true.
Proof. ascii_cases c; intros H; try discriminate H; reflexivity. Qed.

Lemma toLowerCase_zeros (n : nat) :
  toLowerCase (repeat chr_zero n) = repeat chr_zero n.
Proof. induction n; [reflexivity | cbn; now f_equal]. Qed.

Lemma forallb_is_zero_lower (s : str) :
  forallb is_zero (toLowerCase s) = forallb is_zero s.
Proof.
  induction s as [| c t IH]; [reflexivity |].
  cbn [toLowerCase map forallb]. fold (toLowerCase t).
  now rewrite toLowerCase_is_zero, IH.
Qed.

Lemma forallb_zero_repeat (n : nat) :
  forallb is_zero (repeat chr_zero n) = true.
Proof. induction n; [reflexivity | assumption]. Qed.

Lemma strip_24_zeros_64 (s : str) :
  length s = 64%nat ->
  strip_24_zeros s =
  if forallb is_zero (skipn 40 s) then firstn 40 s else s.
Proof. intros E. unfold strip_24_zeros. rewrite E. reflexivity. Qed.

Lemma zeros_behind_lower (n : nat) (s : str) :
  forallb is_zero (skipn n (toLowerCase s)) = forallb is_zero (skipn n s).
Proof.
  unfold toLowerCase. rewrite skipn_map. apply forallb_is_zero_lower.
Qed.

Lemma normalizeAddress_formula (address : str) :
  let b := strip_0x address in
  normalizeAddress address =
  if (length b =? 40)%nat ||
     ((length b =? 64)%nat && forallb is_zero (skipn 40 b))
  then Some (toLowerCase (firstn 40 b)) else None.
Proof.
  cbv zeta. unfold normalizeAddress. set (b := strip_0x address).
  rewrite toLowerCase_length.
  destruct (Nat.eqb_spec (length b) 64) as [E64 | N64].
  - destruct (Nat.eqb_spec (length b) 40) as [? | _]; [lia |]. cbn [orb andb].
    rewrite strip_24_zeros_64 by (now rewrite toLowerCase_length).
    rewrite zeros_behind_lower.
    destruct (forallb is_zero (skipn 40 b)).
    + unfold toLowerCase. rewrite <- firstn_map, length_firstn, length_map, E64.
      reflexivity.
    + rewrite toLowerCase_length, E64. reflexivity.
  - cbn [andb]. rewrite orb_false_r, toLowerCase_length.
    destruct (Nat.eqb_spec (length b) 40) as [E40 | N40]; [| reflexivity].
    cbn [negb]. now rewrite firstn_id by lia.
Qed.

Lemma normalizeAddress_some (address r : str) :
  normalizeAddress address = Some r ->
  length r = 40%nat /\ toLowerCase r = r.
Proof.
  rewrite normalizeAddress_formula. cbv zeta.
  set (b := strip_0x address).
  destruct ((length b =? 40)%nat ||
            ((length b =? 64)%nat && forallb is_zero (skipn 40 b))) eqn:E;
    [| discriminate].
  intros H. assert (r = toLowerCase (firstn 40 b)) as -> by congruence.
  clear H. split.
  - rewrite toLowerCase_length, length_firstn.
    apply orb_true_iff in E as [E | E].
    + apply Nat.eqb_eq in E. lia.
    + apply andb_true_iff in E as [E _]. apply Nat.eqb_eq in E. lia.
  - apply toLowerCase_idem.
Qed.

Lemma strip_0x_not_prefixed (s : str) :
  startsWith_0x s = false -> strip_0x s = s.
Proof.
  destruct s as [| c0 [| cx t]]; try reflexivity.
  unfold startsWith_0x, strip_0x. now intros ->.
Qed.

Lemma strip_0x_prefixed (s : str) :
  startsWith_0x s = true -> strip_0x s = skipn 2 s.
Proof.
  destruct s as [| c0 [| cx t]]; try discriminate.
  unfold startsWith_0x, strip_0x. now intros ->.
Qed.

Lemma startsWith_0x_app (s t : str) :
  (2 <= length s)%nat -> startsWith_0x (s ++ t) = startsWith_0x s.
Proof. destruct s as [| c0 [| cx u]]; cbn; try lia. reflexivity. Qed.

(** X12: over strings of code units below 256, where lower-casing keeps
    the length, [normalizeAddress] checks lengths only, never the
    characters.  It succeeds exactly when the input without a leading [0x]
    has 40 characters, or 64 characters of which the last 24 are zeros, and
    then returns the first 40 of them in lower case.  (A larger code unit
    such as U+0130 grows under [toLowerCase], which the length test comes
    after; such inputs are outside [str].)  Appending 24 zeros to a
    result, as [longAddress] does, gives a string that normalizes back to
    that result, unless the result itself starts with [0x]: then the long
    form is rejected. *)
Theorem normalizeAddress_closed_form (address : str) :
  let b := strip_0x address in
  normalizeAddress address =
    (if (length b =? 40)%nat ||
        ((length b =? 64)%nat && forallb is_zero (skipn 40 b))
     then Some (toLowerCase (firstn 40 b)) else None) /\
  match longAddress address with
  | Some long =>
      exists r : str,
        normalizeAddress address = Some r /\
        long = r ++ repeat chr_zero 24 /\ length long = 64%nat /\
        normalizeAddress long = if startsWith_0x r then None else Some r
  | None => normalizeAddress address = None
  end.
Proof.
  cbv zeta. split; [apply normalizeAddress_formula |].
  unfold longAddress. destruct (normalizeAddress address) as [r |] eqn:E;
    [| reflexivity].
  destruct (normalizeAddress_some _ _ E) as [Hl Hlow].
  exists r. repeat split.
  - rewrite length_app, repeat_length. lia.
  - rewrite normalizeAddress_formula. cbv zeta.
    destruct (startsWith_0x r) eqn:Ex.
    + rewrite strip_0x_prefixed
        by (rewrite startsWith_0x_app by lia; exact Ex).
      rewrite length_skipn, length_app, repeat_length, Hl. reflexivity.
    + rewrite strip_0x_not_prefixed
        by (rewrite startsWith_0x_app by lia; exact Ex).
      rewrite length_app, repeat_length, Hl. cbn [Nat.add Nat.eqb orb andb].
      rewrite <- Hl at 1. rewrite skipn_app, skipn_all, Nat.sub_diag.
      cbn [app skipn]. rewrite forallb_zero_repeat.
      rewrite <- Hl, firstn_app, firstn_all, Nat.sub_diag. cbn [firstn].
      now rewrite app_nil_r, Hlow.
Qed.

(** X13: for 40 hexadecimal digits [h], with or without [0x] in front,
    [normalizeAddress] returns [h] in lower case; [longAddress] returns
    that followed by 24 zeros, and normalizing the long form gives the
    short one back. *)
Theorem normalizeAddress_hex (h : str) :
  length h = 40%nat -> forallb is_hex h = true ->
  normalizeAddress (lit "0x" ++ h) = Some (toLowerCase h) /\
  normalizeAddress h = Some (toLowerCase h) /\
  longAddress (lit "0x" ++ h) = Some (toLowerCase h ++ repeat chr_zero 24) /\
  normalizeAddress (toLowerCase h ++ repeat chr_zero 24) =
    Some (toLowerCase h) /\
  forallb is_hex (toLowerCase h) = true.
Proof.
  intros Hl Hh.
  assert (Hx : forall s, length s = 40%nat -> forallb is_hex s = true ->
                         startsWith_0x s = false).
  { intros s Ls Hs. destruct s as [| c0 [| cx t]]; try reflexivity.
    cbn [forallb] in Hs. apply andb_true_iff in Hs as [_ Hs].
    apply andb_true_iff in Hs as [Hs _].
    unfold startsWith_0x. now rewrite (hex_not_x _ Hs), andb_false_r. }
  assert (Hlh : forallb is_hex (toLowerCase h) = true)
    by (exact (forallb_map _ _ _ _ toLowerCase_hex Hh)).
  assert (E1 : normalizeAddress h = Some (toLowerCase h)).
  { rewrite normalizeAddress_formula. cbv zeta.
    rewrite (strip_0x_not_prefixed _ (Hx h Hl Hh)), Hl.
    cbn [Nat.eqb orb]. now rewrite firstn_id by lia. }
  assert (E0 : normalizeAddress (lit "0x" ++ h) = Some (toLowerCase h)).
  { rewrite normalizeAddress_formula. cbv zeta.
    change (strip_0x (lit "0x" ++ h)) with h. rewrite Hl.
    cbn [Nat.eqb orb]. now rewrite firstn_id by lia. }
  repeat split; try assumption.
  - unfold longAddress. now rewrite E0.
  - assert (Ll : length (toLowerCase h) = 40%nat)
      by (now rewrite toLowerCase_length).
    rewrite normalizeAddress_formula. cbv zeta.
    rewrite strip_0x_not_prefixed
      by (rewrite startsWith_0x_app by lia; now apply Hx).
    rewrite length_app, repeat_length, Ll. cbn [Nat.add Nat.eqb orb andb].
    rewrite <- Ll at 1. rewrite skipn_app, skipn_all, Nat.sub_diag.
    cbn [app skipn]. rewrite forallb_zero_repeat.
    rewrite <- Ll, firstn_app, firstn_all, Nat.sub_diag. cbn [firstn].
    now rewrite app_nil_r, toLowerCase_idem.
Qed.

Lemma normalizeAddress_hex_witness :
  length (lit "52908400098527886E0F7030069857D2E4169EE7") = 40%nat /\
  forallb is_hex (lit "52908400098527886E0F7030069857D2E4169EE7") = true /\
  normalizeAddress (lit "0x" ++ lit "52908400098527886E0F7030069857D2E4169EE7")
  = Some (toLowerCase (lit "52908400098527886E0F7030069857D2E4169EE7")).
Proof.
  refine (conj _ (conj _ (proj1
    (normalizeAddress_hex (lit "52908400098527886E0F7030069857D2E4169EE7")
       _ _)))); reflexivity.
Defined.

(** ** Hexadecimal digits *)

Lemma str_eqb_eq (s t : str) : str_eqb s t = true -> s = t.
Proof.
  revert t. induction s as [| c s IH]; intros [| d t] H;
    try discriminate H; [reflexivity |].
  cbn [str_eqb] in H. apply andb_true_iff in H as [E1 E2].
  apply Ascii.eqb_eq in E1. subst d. f_equal. now apply IH.
Qed.

(** A property of bytes that holds on each of the 256 values. *)
Lemma byte_cases (P : Z -> bool) :
  forallb P (map Z.of_nat (seq 0 256)) = true ->
  forall b : Z, 0 <= b < 256 -> P b = true.
Proof.
  intros H b Hb. rewrite forallb_forall in H. apply H.
  rewrite <- (Z2Nat.id b) by lia. apply in_map, in_seq. lia.
Qed.

Lemma is_hex_in (c : ascii) : is_hex c = true -> In c hex_chars.
Proof.
  ascii_cases c; intros H; try discriminate H; cbn; tauto.
Qed.

(** A property of pairs of hexadecimal digits that holds on each pair. *)
Lemma hex_pair_cases (P : ascii -> ascii -> bool) :
  forallb (fun '(c, d) => P c d) (list_prod hex_chars hex_chars) = true ->
  forall c d : ascii, is_hex c = true -> is_hex d = true -> P c d = true.
Proof.
  intros H c d Hc Hd. rewrite forallb_forall in H.
  apply (H (c, d)), in_prod; now apply is_hex_in.
Qed.

Lemma hex_not_line_terminator (c : ascii) :
  is_hex c = true -> is_line_terminator c = false.
Proof. ascii_cases c; intros H; try discriminate H; reflexivity. Qed.

Lemma hex_not_space (c : ascii) : is_hex c = true -> is_space c = false.
Proof. ascii_cases c; intros H; try discriminate H; reflexivity. Qed.

Lemma lower_hex_is_hex (c : ascii) : is_lower_hex c = true -> is_hex c = true.
Proof. ascii_cases c; intros H; try discriminate H; reflexivity. Qed.

Lemma hex_digit_val_range (c : ascii) :
  is_hex c = true -> radix_digit c = Some (hex_digit_val c) /\
                     0 <= hex_digit_val c < 16.
Proof.
  ascii_cases c; intros H; try discriminate H; vm_compute; intuition congruence.
Qed.

(** What [bin2hex] writes for a byte: two lower-case hexadecimal digits,
    which [parseInt] reads back as the byte. *)
Lemma byte_pair_spec (b : Z) :
  0 <= b < 256 ->
  padStart (Number_toString16 b) 2 chr_zero = byte_pair b /\
  forallb is_lower_hex (byte_pair b) = true /\
  parseInt16 (byte_pair b) = Some b.
Proof.
  intros Hb.
  pose (P := fun b : Z =>
    str_eqb (padStart (Number_toString16 b) 2 chr_zero) (byte_pair b)
    && forallb is_lower_hex (byte_pair b)
    && match parseInt16 (byte_pair b) with
       | Some v => v =? b
       | None => false
       end).
  assert (H : P b = true) by (apply byte_cases; [vm_compute; reflexivity | exact Hb]).
  unfold P in H. apply andb_true_iff in H as [H H3].
  apply andb_true_iff in H as [H1 H2]. repeat split.
  - now apply str_eqb_eq.
  - exact H2.
  - destruct (parseInt16 (byte_pair b)) as [v |]; [| discriminate].
    apply Z.eqb_eq in H3. now subst.
Qed.

(** What [parseInt] reads from two hexadecimal digits: a byte, which
    [bin2hex] writes as the two digits in lower case. *)
Lemma hex_pair_spec (c d : ascii) :
  is_hex c = true -> is_hex d = true ->
  exists b : Z,
    parseInt16 [c; d] = Some b /\ 0 <= b < 256 /\
    byte_pair b = [toLowerCase_char c; toLowerCase_char d].
Proof.
  intros Hc Hd.
  pose (P := fun c d : ascii =>
    match parseInt16 [c; d] with
    | Some b => (0 <=? b) && (b <? 256)
                && str_eqb (byte_pair b)
                     [toLowerCase_char c; toLowerCase_char d]
    | None => false
    end).
  assert (H : P c d = true)
    by (apply hex_pair_cases; [vm_compute; reflexivity | exact Hc | exact Hd]).
  unfold P in H. destruct (parseInt16 [c; d]) as [b |]; [| discriminate].
  apply andb_true_iff in H as [H H3]. apply andb_true_iff in H as [H1 H2].
  exists b. repeat split; try lia. now apply str_eqb_eq.
Qed.

(** ** [bin2hex] and [hex2bin] *)

Lemma bin2hex_cons (b : Z) (bs : list Z) :
  is_byte b -> bin2hex (b :: bs) = byte_pair b ++ bin2hex bs.
Proof.
  intros Hb. unfold bin2hex. cbn [map concat].
  now rewrite (proj1 (byte_pair_spec b Hb)).
Qed.

Lemma match_pairs_hex (c d : ascii) (s : str) :
  is_hex c = true -> is_hex d = true ->
  match_pairs (c :: d :: s) = [c; d] :: match_pairs s.
Proof.
  intros Hc Hd. cbn [match_pairs].
  now rewrite (hex_not_line_terminator _ Hc), (hex_not_line_terminator _ Hd).
Qed.

Lemma match_pairs_bin2hex (bs : list Z) :
  Forall is_byte bs -> match_pairs (bin2hex bs) = map byte_pair bs.
Proof.
  induction 1 as [| b bs Hb _ IH]; [reflexivity |].
  rewrite (bin2hex_cons _ _ Hb). cbn [map].
  destruct (byte_pair_spec b Hb) as (_ & Hh & _).
  unfold byte_pair in *. cbn [forallb] in Hh.
  apply andb_true_iff in Hh as [H1 H2]. apply andb_true_iff in H2 as [H2 _].
  cbn [app]. rewrite match_pairs_hex by (now apply lower_hex_is_hex).
  now rewrite IH.
Qed.

(** X14: for bytes, [bin2hex] writes two lower-case hexadecimal digits per
    byte, and [hex2bin] reads them back: [hex2bin (bin2hex bytes)] is
    [bytes], for every non-empty array.  For the empty array [bin2hex]
    gives the empty string, on which [hex2bin] throws. *)
Theorem hex2bin_bin2hex (bytes : list Z) :
  Forall is_byte bytes ->
  length (bin2hex bytes) = (2 * length bytes)%nat /\
  forallb is_lower_hex (bin2hex bytes) = true /\
  hex2bin (bin2hex bytes) =
    match bytes with [] => None | _ => Some bytes end.
Proof.
  intros H. split; [| split].
  - induction H as [| b bs Hb _ IH]; [reflexivity |].
    rewrite (bin2hex_cons _ _ Hb), length_app, IH. cbn [byte_pair length]. lia.
  - induction H as [| b bs Hb _ IH]; [reflexivity |].
    rewrite (bin2hex_cons _ _ Hb), forallb_app, IH.
    now rewrite (proj1 (proj2 (byte_pair_spec b Hb))).
  - unfold hex2bin. rewrite (match_pairs_bin2hex _ H).
    assert (E : map (fun byte => ToUint8 (parseInt16 byte))
                  (map byte_pair bytes) = bytes).
    { rewrite map_map. rewrite <- (map_id bytes) at 2. apply map_ext_in.
      intros x Hx. rewrite Forall_forall in H. specialize (H x Hx).
      rewrite (proj2 (proj2 (byte_pair_spec x H))). cbn [ToUint8].
      apply Z.mod_small. exact H. }
    destruct bytes as [| b bs]; [reflexivity |].
    destruct (map byte_pair (b :: bs)) as [| p ps] eqn:Em;
      [discriminate Em |].
    now rewrite E.
Qed.

Lemma hex2bin_bin2hex_witness :
  Forall is_byte [0; 15; 16; 255] /\
  hex2bin (bin2hex [0; 15; 16; 255]) = Some [0; 15; 16; 255].
Proof.
  assert (H : Forall is_byte [0; 15; 16; 255])
    by (repeat constructor; unfold is_byte; lia).
  exact (conj H (proj2 (proj2 (hex2bin_bin2hex [0; 15; 16; 255] H)))).
Defined.

(** The other way round, by pairs of digits. *)
Lemma bin2hex_hex2bin_pairs (n : nat) :
  forall h : str,
    length h = (2 * n)%nat -> forallb is_hex h = true ->
    exists bytes : list Z,
      map (fun byte => ToUint8 (parseInt16 byte)) (match_pairs h) = bytes /\
      length bytes = n /\ Forall is_byte bytes /\
      bin2hex bytes = toLowerCase h.
Proof.
  induction n as [| n IH]; intros h Hl Hh.
  - destruct h; [| discriminate]. exists []. repeat split. constructor.
  - destruct h as [| c [| d h']]; try (cbn in Hl; lia).
    cbn [forallb] in Hh. apply andb_true_iff in Hh as [Hc Hh].
    apply andb_true_iff in Hh as [Hd Hh].
    destruct (IH h') as (bs & E & Ln & Hb & Eh); [cbn in Hl; lia | exact Hh |].
    destruct (hex_pair_spec c d Hc Hd) as (b & Ep & Rb & Eb).
    exists (b :: bs). rewrite match_pairs_hex by assumption.
    cbn [map]. rewrite Ep, E. cbn [ToUint8].
    rewrite (Z.mod_small b 256) by exact Rb. repeat split.
    + cbn [length]. now rewrite Ln.
    + now constructor.
    + rewrite (bin2hex_cons _ _ Rb), Eb, Eh. reflexivity.
Qed.

(** X15: for a non-empty string of an even number of hexadecimal digits,
    [hex2bin] returns one byte per pair of digits, and [bin2hex] of these
    bytes is the string in lower case. *)
Theorem bin2hex_hex2bin (h : str) (n : nat) :
  length h = (2 * n)%nat -> (1 <= n)%nat -> forallb is_hex h = true ->
  exists bytes : list Z,
    hex2bin h = Some bytes /\ length bytes = n /\ Forall is_byte bytes /\
    bin2hex bytes = toLowerCase h.
Proof.
  intros Hl Hn Hh.
  destruct (bin2hex_hex2bin_pairs n h Hl Hh) as (bs & E & Ln & Hb & Eh).
  exists bs. repeat split; try assumption.
  unfold hex2bin. destruct (match_pairs h) as [| p ps] eqn:Em.
  - cbn in E. subst bs. cbn in Ln. lia.
  - now rewrite E.
Qed.

Lemma bin2hex_hex2bin_witness :
  length (lit "00FFa1") = (2 * 3)%nat /\ (1 <= 3)%nat /\
  forallb is_hex (lit "00FFa1") = true /\
  exists bytes : list Z,
    hex2bin (lit "00FFa1") = Some bytes /\ length bytes = 3%nat /\
    Forall is_byte bytes /\ bin2hex bytes = toLowerCase (lit "00FFa1").
Proof.
  refine (conj _ (conj _ (conj _ (bin2hex_hex2bin (lit "00FFa1") 3 _ _ _))));
    first [reflexivity | lia].
Defined.

(** ** [hex2big] *)

Lemma fold_hex_shift (s : str) (a : Z) :
  fold_left (fun acc c => 16 * acc + hex_digit_val c) s a =
  a * 16 ^ Z.of_nat (length s) + hex_val s.
Proof.
  unfold hex_val. revert a. induction s as [| c s IH]; intros a.
  - cbn. lia.
  - cbn [fold_left length]. rewrite IH, (IH (16 * 0 + hex_digit_val c)).
    rewrite Nat2Z.inj_succ, Z.pow_succ_r by lia. ring.
Qed.

Lemma hex_val_cons (c : ascii) (s : str) :
  hex_val (c :: s) = hex_digit_val c * 16 ^ Z.of_nat (length s) + hex_val s.
Proof.
  unfold hex_val at 1. cbn [fold_left]. rewrite fold_hex_shift. ring.
Qed.

Lemma hex_val_bounds (s : str) :
  forallb is_hex s = true -> 0 <= hex_val s < 16 ^ Z.of_nat (length s).
Proof.
  induction s as [| c s IH]; intros H; [cbn; lia |].
  cbn [forallb] in H. apply andb_true_iff in H as [Hc Hs].
  specialize (IH Hs). destruct (hex_digit_val_range c Hc) as [_ R].
  rewrite hex_val_cons. cbn [length].
  rewrite Nat2Z.inj_succ, Z.pow_succ_r by lia. nia.
Qed.

Lemma radix_val_hex (s : str) (a : Z) :
  forallb is_hex s = true ->
  radix_val 16 s a = Some (a * 16 ^ Z.of_nat (length s) + hex_val s).
Proof.
  revert a. induction s as [| c s IH]; intros a H.
  - cbn. f_equal. lia.
  - cbn [forallb] in H. apply andb_true_iff in H as [Hc Hs].
    destruct (hex_digit_val_range c Hc) as [E R].
    cbn [radix_val]. rewrite E.
    destruct (Z.ltb_spec (hex_digit_val c) 16); [| lia].
    rewrite (IH _ Hs), hex_val_cons. cbn [length].
    rewrite Nat2Z.inj_succ, Z.pow_succ_r by lia. f_equal. ring.
Qed.

Lemma remove_first_0x_hex (s : str) :
  forallb is_hex s = true -> remove_first_0x s = s.
Proof.
  induction s as [| c t IH]; intros H; [reflexivity |].
  cbn [forallb] in H. apply andb_true_iff in H as [_ Ht].
  cbn [remove_first_0x]. destruct t as [| d u]; [reflexivity |].
  pose proof Ht as Ht'. cbn [forallb] in Ht'.
  apply andb_true_iff in Ht' as [Hd _].
  rewrite (hex_not_x _ Hd), andb_false_r. f_equal. now apply IH.
Qed.

(** X16: [hex2big] reads a non-empty string of hexadecimal digits, of
    either case, as the number it spells in base 16, whether or not [0x]
    stands in front; without a digit, for the empty string or a bare [0x],
    it throws. *)
Theorem hex2big_hex (h : str) :
  h <> [] -> forallb is_hex h = true ->
  hex2big h = Some (hex_val h) /\
  hex2big (lit "0x" ++ h) = Some (hex_val h) /\
  0 <= hex_val h < 16 ^ Z.of_nat (length h) /\
  hex2big [] = None /\ hex2big (lit "0x") = None.
Proof.
  intros Hne Hh.
  assert (E : BigInt_of_str (lit "0x" ++ h) = Some (hex_val h)).
  { unfold BigInt_of_str. rewrite trim_id.
    - destruct h as [| d ds]; [contradiction |].
      change (match lit "0x" ++ d :: ds with
              | [] => Some 0
              | c :: t => _
              end) with (radix_val 16 (d :: ds) 0).
      rewrite (radix_val_hex _ _ Hh). f_equal; lia.
    - intros c [<- | [<- | Hc]]; try reflexivity.
      apply hex_not_space. rewrite forallb_forall in Hh. now apply Hh. }
  repeat split.
  - unfold hex2big. now rewrite (remove_first_0x_hex _ Hh).
  - unfold hex2big.
    replace (remove_first_0x (lit "0x" ++ h)) with h; [exact E |].
    destruct h; reflexivity.
  - apply (hex_val_bounds _ Hh).
  - apply (hex_val_bounds _ Hh).
Qed.

Lemma hex2big_hex_witness :
  lit "fF" <> [] /\ forallb is_hex (lit "fF") = true /\
  hex2big (lit "fF") = Some (hex_val (lit "fF")).
Proof.
  refine (conj _ (conj _ (proj1 (hex2big_hex (lit "fF") _ _))));
    first [discriminate | reflexivity].
Defined.

(** ** [getColorFromHash] *)

Lemma parseInt16_hex_pair (c d : ascii) :
  is_hex c = true -> is_hex d = true ->
  exists b : Z, parseInt16 [c; d] = Some b /\ 0 <= b < 256.
Proof.
  intros Hc Hd. destruct (hex_pair_spec c d Hc Hd) as (b & E & R & _).
  now exists b.
Qed.

Lemma slice_app_pair (pre rest : str) (c d : ascii) (a b : nat) :
  length pre = a -> b = (a + 2)%nat ->
  slice (pre ++ c :: d :: rest) a b = [c; d].
Proof.
  intros <- ->. unfold slice.
  replace (length pre + 2 - length pre)%nat with 2%nat by lia.
  rewrite skipn_app, skipn_all, Nat.sub_diag. reflexivity.
Qed.

(** X17: when the six characters of the hash from position [2 * index]
    on are hexadecimal digits, [getColorFromHash] returns
    [hsl(H, S%, L%)] with [H] the first byte, between 0 and 255 (the
    [% 360] never bites), [S] between 60 and 79 and [L] between 45 and
    54. *)
Theorem getColorFromHash_ranges
    (pre post : str) (h1 h2 s1 s2 l1 l2 : ascii) (index : nat) :
  length pre = (index * 2)%nat ->
  forallb is_hex [h1; h2; s1; s2; l1; l2] = true ->
  exists hue sat lig : Z,
    getColorFromHash (pre ++ [h1; h2; s1; s2; l1; l2] ++ post) index =
      lit "hsl(" ++ digits hue ++ lit ", " ++ digits sat ++ lit "%, " ++
      digits lig ++ lit "%)" /\
    parseInt16 [h1; h2] = Some hue /\
    0 <= hue <= 255 /\ 60 <= sat <= 79 /\ 45 <= lig <= 54.
Proof.
  intros Hl Hh. cbn [forallb] in Hh.
  repeat (apply andb_true_iff in Hh as [? Hh]).
  destruct (parseInt16_hex_pair h1 h2) as (hue & EH & RH); try assumption.
  destruct (parseInt16_hex_pair s1 s2) as (sat & ES & RS); try assumption.
  destruct (parseInt16_hex_pair l1 l2) as (lig & EL & RL); try assumption.
  exists hue, (60 + Z.rem sat 20), (45 + Z.rem lig 10).
  assert (BS : 0 <= Z.rem sat 20 < 20) by (apply Z.rem_bound_pos; lia).
  assert (BL : 0 <= Z.rem lig 10 < 10) by (apply Z.rem_bound_pos; lia).
  repeat split; try lia; try assumption.
  unfold getColorFromHash. cbn [app].
  rewrite (slice_app_pair pre _ h1 h2 (index * 2) (index * 2 + 2))
    by (assumption || lia).
  replace (pre ++ h1 :: h2 :: s1 :: s2 :: l1 :: l2 :: post)
    with ((pre ++ [h1; h2]) ++ s1 :: s2 :: l1 :: l2 :: post)
    by (now rewrite <- app_assoc).
  rewrite (slice_app_pair (pre ++ [h1; h2]) _ s1 s2
             (index * 2 + 2) (index * 2 + 4))
    by (try (rewrite length_app; cbn [length]); lia).
  replace ((pre ++ [h1; h2]) ++ s1 :: s2 :: l1 :: l2 :: post)
    with ((pre ++ [h1; h2; s1; s2]) ++ l1 :: l2 :: post)
    by (now rewrite <- !app_assoc).
  rewrite (slice_app_pair (pre ++ [h1; h2; s1; s2]) _ l1 l2
             (index * 2 + 4) (index * 2 + 6))
    by (try (rewrite length_app; cbn [length]); lia).
  rewrite EH, ES, EL. cbn [option_map Number_toString].
  rewrite (Z.rem_small hue 360) by lia.
  now rewrite !BigInt_toString_nonneg by lia.
Qed.

Lemma getColorFromHash_ranges_witness :
  length (lit "a1b2c3") = (3 * 2)%nat /\
  forallb is_hex (lit "ff80407f0000") = true /\
  exists hue sat lig : Z,
    getColorFromHash (lit "a1b2c3" ++ lit "ff8040" ++ lit "7f0000") 3 =
      lit "hsl(" ++ digits hue ++ lit ", " ++ digits sat ++ lit "%, " ++
      digits lig ++ lit "%)" /\
    parseInt16 (lit "ff") = Some hue /\
    0 <= hue <= 255 /\ 60 <= sat <= 79 /\ 45 <= lig <= 54.
Proof.
  refine (conj _ (conj _
    (getColorFromHash_ranges (lit "a1b2c3") (lit "7f0000")
       "f" "f" "8" "0" "4" "0" 3 _ _))); reflexivity.
Defined.

(** ** [truncateMessage] *)

Lemma starts_with_str_length (pat s : str) :
  starts_with_str pat s = true -> (length pat <= length s)%nat.
Proof.
  revert s. induction pat as [| p pt IH]; intros s H; [cbn; lia |].
  destruct s as [| c t]; [discriminate H |].
  cbn [starts_with_str] in H. apply andb_true_iff in H as [_ H].
  specialize (IH t H). cbn [length]. lia.
Qed.

(** Where a pattern is found, it fits. *)
Lemma indexOf_str_bound (pat s : str) (i : nat) :
  indexOf_str pat s = Some i -> (i + length pat <= length s)%nat.
Proof.
  revert i. induction s as [| c t IH]; intros i H.
  - cbn [indexOf_str] in H.
    destruct (starts_with_str pat []) eqn:E; [| discriminate].
    injection H as <-. now apply starts_with_str_length.
  - cbn [indexOf_str] in H.
    destruct (starts_with_str pat (c :: t)) eqn:E.
    + injection H as <-. now apply starts_with_str_length.
    + destruct (indexOf_str pat t) as [j |]; [| discriminate].
      injection H as <-. specialize (IH j eq_refl). cbn [length]. lia.
Qed.

(** The preview around a highlight: a window of exactly [maxLength]
    characters, with an ellipsis on each side that is cut. *)
Lemma truncateMessage_marked (m : str) (L f : nat) :
  (L < length m)%nat -> indexOf_str (lit "<mark>") m = Some f ->
  exists start : nat,
    (start + L <= length m)%nat /\
    truncateMessage m L =
      (if (start =? 0)%nat then [] else lit "...") ++
      firstn L (skipn start m) ++
      (if (start + L =? length m)%nat then [] else lit "...") /\
    (0 <= charsToShowBefore L < Z.of_nat L -> (start <= f < start + L)%nat) /\
    ~ (start = 0%nat /\ (start + L)%nat = length m).
Proof.
  intros Hn Hf. pose proof (indexOf_str_bound _ _ _ Hf) as Hb.
  change (length (lit "<mark>")) with 6%nat in Hb.
  unfold truncateMessage. rewrite Hf.
  destruct (Nat.leb_spec (length m) L); [lia |]. cbv zeta.
  set (k := charsToShowBefore L). set (len := Z.of_nat (length m)).
  set (s0 := Z.max 0 (Z.of_nat f - k)).
  set (e := Z.min len (s0 + Z.of_nat L)).
  assert (Hs0 : 0 <= s0) by (unfold s0; lia).
  destruct (Z.eqb_spec e len) as [Ee | Ne].
  - exists (length m - L)%nat.
    replace (Z.max 0 (len - Z.of_nat L)) with (Z.of_nat (length m - L))
      by (unfold len; lia).
    rewrite Ee. unfold len. rewrite !Nat2Z.id, Z.ltb_irrefl.
    destruct (Z.ltb_spec 0 (Z.of_nat (length m - L))); [| lia].
    destruct (Nat.eqb_spec (length m - L) 0); [lia |].
    destruct (Nat.eqb_spec (length m - L + L) (length m)); [| lia].
    unfold substring.
    replace (Nat.max (length m - L) (length m) -
             Nat.min (length m - L) (length m))%nat with L by lia.
    replace (Nat.min (length m - L) (length m)) with (length m - L)%nat by lia.
    repeat split; try lia; try (now rewrite app_nil_r);
      try (unfold e, s0, len in Ee; lia).
  - assert (Ee : e = s0 + Z.of_nat L) by (unfold e in *; lia).
    assert (He : e < len) by (unfold e in *; lia).
    exists (Z.to_nat s0). rewrite Ee.
    destruct (Z.ltb_spec (s0 + Z.of_nat L) len); [| lia].
    replace (Z.to_nat (s0 + Z.of_nat L)) with (Z.to_nat s0 + L)%nat by lia.
    destruct (Nat.eqb_spec (Z.to_nat s0 + L) (length m));
      [unfold len in *; lia |].
    unfold substring.
    replace (Nat.max (Z.to_nat s0) (Z.to_nat s0 + L) -
             Nat.min (Z.to_nat s0) (Z.to_nat s0 + L))%nat with L by lia.
    replace (Nat.min (Z.to_nat s0) (Z.to_nat s0 + L)) with (Z.to_nat s0) by lia.
    repeat split; try (unfold len in *; lia); try (unfold s0 in *; lia).
    destruct (Z.ltb_spec 0 s0), (Nat.eqb_spec (Z.to_nat s0) 0); try lia.
    + now rewrite <- app_assoc.
    + reflexivity.
Qed.

(** X18: a message of at most [maxLength] characters is returned as it
    is.  A longer one is cut to exactly [maxLength] characters plus an
    ellipsis on each cut side: without a highlight the first [maxLength]
    characters and [...]; with a highlight the result has [maxLength + 3]
    or [maxLength + 6] characters.  A truncated message is thus never
    shorter than [maxLength + 3]. *)
Theorem truncateMessage_length (m : str) (L : nat) :
  ((length m <= L)%nat /\ truncateMessage m L = m) \/
  ((L < length m)%nat /\ indexOf_str (lit "<mark>") m = None /\
   truncateMessage m L = firstn L m ++ lit "..." /\
   length (truncateMessage m L) = (L + 3)%nat) \/
  ((L < length m)%nat /\ indexOf_str (lit "<mark>") m <> None /\
   (length (truncateMessage m L) = (L + 3)%nat \/
    length (truncateMessage m L) = (L + 6)%nat)).
Proof.
  destruct (Nat.le_gt_cases (length m) L) as [Hle | Hgt].
  - left. split; [exact Hle |]. unfold truncateMessage.
    now destruct (Nat.leb_spec (length m) L); [| lia].
  - right. destruct (indexOf_str (lit "<mark>") m) as [f |] eqn:Ef.
    + right. split; [exact Hgt |]. split; [discriminate |].
      destruct (truncateMessage_marked m L f Hgt Ef)
        as (start & Hs & E & _ & Hnot).
      rewrite E, !length_app, length_firstn, length_skipn.
      replace (Nat.min L (length m - start)) with L by lia.
      destruct (Nat.eqb_spec start 0), (Nat.eqb_spec (start + L) (length m));
        cbn [length lit list_ascii_of_string]; lia.
    + left. split; [exact Hgt |]. split; [reflexivity |].
      assert (E : truncateMessage m L = firstn L m ++ lit "...").
      { unfold truncateMessage. rewrite Ef.
        destruct (Nat.leb_spec (length m) L); [lia |].
        now rewrite substring_0. }
      split; [exact E |].
      rewrite E, length_app, length_firstn. cbn [length lit list_ascii_of_string].
      lia.
Qed.

(** X19: around a highlight, when [floor(maxLength * 0.3)] is below
    [maxLength] (as for the default 100, where it is 30), the preview is a
    window of exactly [maxLength] characters of the message that holds the
    start of the first [<mark>], with [...] in front exactly when the
    window does not start the message and [...] behind exactly when it
    does not end it. *)
Theorem truncateMessage_window (m : str) (L f : nat) :
  (L < length m)%nat -> indexOf_str (lit "<mark>") m = Some f ->
  0 <= charsToShowBefore L < Z.of_nat L ->
  exists start : nat,
    (start <= f < start + L)%nat /\ (start + L <= length m)%nat /\
    length (firstn L (skipn start m)) = L /\
    truncateMessage m L =
      (if (start =? 0)%nat then [] else lit "...") ++
      firstn L (skipn start m) ++
      (if (start + L =? length m)%nat then [] else lit "...").
Proof.
  intros Hn Hf Hk.
  destruct (truncateMessage_marked m L f Hn Hf) as (start & Hs & E & Hw & _).
  exists start. repeat split; try assumption; try (apply Hw; assumption).
  rewrite length_firstn, length_skipn. lia.
Qed.

Lemma truncateMessage_window_witness :
  (5 < length (lit "abcdefgh<mark>x</mark>ijkl"))%nat /\
  indexOf_str (lit "<mark>") (lit "abcdefgh<mark>x</mark>ijkl") = Some 8%nat /\
  0 <= charsToShowBefore 5 < Z.of_nat 5 /\
  exists start : nat,
    (start <= 8 < start + 5)%nat /\
    (start + 5 <= length (lit "abcdefgh<mark>x</mark>ijkl"))%nat /\
    length (firstn 5 (skipn start (lit "abcdefgh<mark>x</mark>ijkl"))) = 5%nat /\
    truncateMessage (lit "abcdefgh<mark>x</mark>ijkl") 5 =
      (if (start =? 0)%nat then [] else lit "...") ++
      firstn 5 (skipn start (lit "abcdefgh<mark>x</mark>ijkl")) ++
      (if (start + 5 =? length (lit "abcdefgh<mark>x</mark>ijkl"))%nat
       then [] else lit "...").
Proof.
  refine (conj _ (conj _ (conj _
    (truncateMessage_window (lit "abcdefgh<mark>x</mark>ijkl") 5 8 _ _ _)))).
  - vm_compute. lia.
  - reflexivity.
  - vm_compute. split; [discriminate | reflexivity].
  - vm_compute. lia.
  - reflexivity.
  - vm_compute. split; [discriminate | reflexivity].
Defined.

(** For the default [maxLength] of 100, thirty characters are shown in
    front of the highlight. *)
Example charsToShowBefore_100 : charsToShowBefore 100 = 30.
Proof. vm_compute. reflexivity. Qed.

(** ** [normalizeName] *)

Lemma js_space_lower (c : ascii) :
  is_js_space (toLowerCase_char c) = is_js_space c.
Proof. ascii_cases c; reflexivity. Qed.

Lemma name_char_lower (c : ascii) :
  is_alpha c || Ascii.eqb c " " = true ->
  is_lower (toLowerCase_char c) || Ascii.eqb (toLowerCase_char c) " " = true.
Proof. ascii_cases c; intros H; try discriminate H; reflexivity. Qed.

Lemma lower_word_upper (c : ascii) :
  is_lower c = true ->
  is_word c = true /\ is_alpha c = true /\
  is_upper (toUpperCase_word_char c) = true /\
  is_alpha (toUpperCase_word_char c) = true /\
  is_js_space (toUpperCase_word_char c) = false /\
  is_js_space c = false.
Proof. ascii_cases c; intros H; try discriminate H; repeat split. Qed.

Lemma upper_lower_upper (c : ascii) :
  is_upper c = true ->
  is_word (toLowerCase_char c) = true /\
  toUpperCase_word_char (toLowerCase_char c) = c.
Proof. ascii_cases c; intros H; try discriminate H; repeat split. Qed.

Lemma lower_lower (c : ascii) :
  is_lower c = true -> toLowerCase_char c = c /\ is_word c = true.
Proof. ascii_cases c; intros H; try discriminate H; repeat split. Qed.

Lemma alpha_cases (c : ascii) :
  is_alpha c = true -> is_js_space c = false /\ is_name_char c = true.
Proof. ascii_cases c; intros H; try discriminate H; repeat split. Qed.

Lemma space_char (c : ascii) :
  Ascii.eqb c " " = true ->
  c = " "%char /\ is_alpha c = false /\ is_js_space c = true.
Proof. intros H. apply Ascii.eqb_eq in H. now subst c. Qed.

(** Capitalizing small letters and spaces gives title case. *)
Lemma capitalize_words_title (s : str) (b : bool) :
  forallb (fun c => is_lower c || Ascii.eqb c " ") s = true ->
  title_case b (capitalize_words b s) = true.
Proof.
  revert b. induction s as [| c t IH]; intros b H; [reflexivity |].
  cbn [forallb] in H. apply andb_true_iff in H as [Hc Ht].
  cbn [capitalize_words title_case].
  destruct (is_lower c) eqn:El.
  - destruct (lower_word_upper c El) as (Hw & Ha & Hu & Hua & _).
    rewrite Hw. destruct b; cbn [negb andb].
    + rewrite Ha, El. cbn [andb]. now apply IH.
    + rewrite Hua, Hu. cbn [andb]. now apply IH.
  - cbn [orb] in Hc. destruct (space_char c Hc) as (-> & _ & _).
    cbn [andb]. now apply IH.
Qed.

(** Title case is what lower-casing and capitalizing again restores. *)
Lemma capitalize_words_restore (s : str) (b : bool) :
  title_case b s = true -> capitalize_words b (toLowerCase s) = s.
Proof.
  revert b. induction s as [| c t IH]; intros b H; [reflexivity |].
  cbn [title_case] in H. apply andb_true_iff in H as [Hc Ht].
  cbn [toLowerCase map capitalize_words]. fold (toLowerCase t).
  destruct (is_alpha c) eqn:Ea.
  - destruct b.
    + destruct (lower_lower c Hc) as [E Hw]. rewrite E, Hw. cbn [negb andb].
      f_equal. now apply IH.
    + destruct (upper_lower_upper c Hc) as [Hw E]. rewrite Hw, E.
      cbn [negb andb]. f_equal. now apply IH.
  - destruct (space_char c Hc) as (-> & _ & _). cbn [andb].
    change (toLowerCase_char " ") with " "%char.
    change (is_word " ") with false. cbn [andb]. f_equal. now apply IH.
Qed.

Lemma title_case_chars (s : str) (b : bool) :
  title_case b s = true ->
  forallb (fun c => is_alpha c || Ascii.eqb c " ") s = true.
Proof.
  revert b. induction s as [| c t IH]; intros b H; [reflexivity |].
  cbn [title_case] in H. apply andb_true_iff in H as [Hc Ht].
  cbn [forallb]. rewrite (IH _ Ht), andb_true_r.
  destruct (is_alpha c); [reflexivity | exact Hc].
Qed.

Lemma title_case_firstn (n : nat) (s : str) (b : bool) :
  title_case b s = true -> title_case b (firstn n s) = true.
Proof.
  revert n b. induction s as [| c t IH]; intros n b H; [now destruct n |].
  destruct n as [| n]; [reflexivity |].
  cbn [firstn title_case] in *. apply andb_true_iff in H as [Hc Ht].
  now rewrite Hc, IH.
Qed.

Lemma no_adjacent_map (p : ascii -> bool) (f : ascii -> ascii) (s : str) :
  (forall c, p (f c) = p c) ->
  no_adjacent p (map f s) = no_adjacent p s.
Proof.
  intros Hf. induction s as [| c t IH]; [reflexivity |].
  cbn [map no_adjacent]. rewrite IH, Hf. f_equal. f_equal. f_equal.
  destruct t; [reflexivity | apply Hf].
Qed.

Lemma capitalize_words_spaces (s : str) (b : bool) :
  forallb (fun c => is_lower c || Ascii.eqb c " ") s = true ->
  no_adjacent is_js_space (capitalize_words b s) = no_adjacent is_js_space s.
Proof.
  revert b. induction s as [| c t IH]; intros b H; [reflexivity |].
  cbn [forallb] in H. apply andb_true_iff in H as [Hc Ht].
  cbn [capitalize_words no_adjacent]. rewrite (IH _ Ht).
  assert (E : is_js_space
                (if is_word c && negb b then toUpperCase_word_char c else c)
              = is_js_space c).
  { destruct (is_lower c) eqn:El.
    - destruct (lower_word_upper c El) as (_ & _ & _ & _ & E1 & E2).
      destruct (is_word c && negb b); congruence.
    - cbn [orb] in Hc. destruct (space_char c Hc) as (-> & _ & _).
      now destruct b. }
  rewrite E. f_equal. f_equal. f_equal.
  destruct t as [| d u]; [reflexivity |]. cbn [capitalize_words starts_with].
  cbn [forallb] in Ht. apply andb_true_iff in Ht as [Hd _].
  destruct (is_lower d) eqn:El.
  - destruct (lower_word_upper d El) as (_ & _ & _ & _ & E1 & E2).
    destruct (is_word d && negb (is_word c)); congruence.
  - cbn [orb] in Hd. destruct (space_char d Hd) as (-> & _ & _).
    now destruct (is_word c).
Qed.

(** Collapsing runs changes nothing where no two characters of the class
    are next to each other and each of them is the replacement. *)
Lemma collapse_runs_id_in (p : ascii -> bool) (r : ascii) (s : str) :
  (forall c, In c s -> p c = true -> c = r) ->
  no_adjacent p s = true -> collapse_runs p r s = s.
Proof.
  induction s as [| c t IH]; intros Hr H; [reflexivity |].
  cbn [no_adjacent] in H. apply andb_true_iff in H as [H1 H2].
  assert (IH' : collapse_runs p r t = t)
    by (apply IH; [intros d Hd; apply Hr; now right | exact H2]).
  cbn [collapse_runs]. destruct (p c) eqn:Ec.
  - rewrite (Hr c (or_introl eq_refl) Ec). destruct t as [| d u]; [reflexivity |].
    cbn [andb starts_with] in H1. destruct (p d); [discriminate |].
    now rewrite IH'.
  - now rewrite IH'.
Qed.

Lemma letter_or_space_name_char (c : ascii) :
  is_alpha c || Ascii.eqb c " " = true -> is_name_char c = true.
Proof. ascii_cases c; intros H; try discriminate H; reflexivity. Qed.

Lemma collapse_spaces_chars (y : str) :
  forallb is_name_char y = true ->
  forallb (fun c => is_alpha c || Ascii.eqb c " ")
    (collapse_runs is_js_space " " y) = true.
Proof.
  induction y as [| c t IH]; intros H; [reflexivity |].
  cbn [forallb] in H. apply andb_true_iff in H as [Hc Ht].
  specialize (IH Ht). cbn [collapse_runs].
  destruct (is_js_space c) eqn:Es.
  - destruct t as [| d u]; [reflexivity |].
    destruct (is_js_space d); [exact IH |]. cbn [forallb]. now rewrite IH.
  - cbn [forallb]. rewrite IH, andb_true_r.
    unfold is_name_char in Hc. rewrite Es, orb_false_r in Hc. now rewrite Hc.
Qed.

Lemma name_core_ok (s : str) : name_ok (name_core s).
Proof.
  unfold name_core. cbv zeta. rewrite substring_0.
  set (x := collapse_runs is_js_space " " (filter is_name_char s)).
  assert (Hx : forallb (fun c => is_alpha c || Ascii.eqb c " ") x = true)
    by (apply collapse_spaces_chars, forallb_filter).
  assert (Hl : forallb (fun c => is_lower c || Ascii.eqb c " ")
                 (toLowerCase x) = true)
    by (exact (forallb_map _ _ _ _ name_char_lower Hx)).
  repeat split.
  - rewrite length_firstn. lia.
  - now apply title_case_firstn, capitalize_words_title.
  - apply no_adjacent_firstn. rewrite (capitalize_words_spaces _ _ Hl).
    unfold toLowerCase. rewrite (no_adjacent_map _ _ _ js_space_lower).
    now apply collapse_runs_no_adjacent.
Qed.

Lemma name_ok_strip (s : str) :
  name_ok s -> name_ok (strip_trailing is_js_space s).
Proof.
  intros (Hl & Ht & Ha).
  destruct (strip_trailing_prefix is_js_space s) as [k E]. rewrite E.
  repeat split.
  - rewrite length_firstn. lia.
  - now apply title_case_firstn.
  - now apply no_adjacent_firstn.
Qed.

(** A name of that kind goes through the steps in front of the [final]
    step as it is. *)
Lemma name_core_fixed (s : str) : name_ok s -> name_core s = s.
Proof.
  intros (Hl & Ht & Ha). pose proof (title_case_chars _ _ Ht) as Hc.
  unfold name_core. cbv zeta.
  rewrite (filter_id is_name_char)
    by (exact (forallb_weaken _ _ _ letter_or_space_name_char Hc)).
  rewrite collapse_runs_id_in; [| | exact Ha].
  - rewrite (capitalize_words_restore _ _ Ht), substring_0.
    now apply firstn_id.
  - intros c Hin Hs. rewrite forallb_forall in Hc. specialize (Hc c Hin).
    destruct (is_alpha c) eqn:Ea.
    + destruct (alpha_cases c Ea) as [E _]. congruence.
    + cbn [orb] in Hc. now apply Ascii.eqb_eq in Hc.
Qed.

Lemma normalizeName_unfold (s : str) (f : bool) :
  normalizeName s f =
  match s with
  | [] => []
  | _ => if f then strip_trailing is_js_space (name_core s) else name_core s
  end.
Proof. destruct s; reflexivity. Qed.

Lemma normalizeName_fixed (s : str) (f : bool) :
  name_ok s ->
  normalizeName s f = if f then strip_trailing is_js_space s else s.
Proof.
  intros H. rewrite normalizeName_unfold.
  destruct s as [| c t] eqn:Es; [now destruct f |]. rewrite <- Es in *.
  now rewrite (name_core_fixed _ H).
Qed.

(** X20: the output of [normalizeName] has at most 20 characters and is in
    title case: letters and spaces only, each word a capital followed by
    small letters, never two spaces in a row; when [final] is set it does
    not end in a space.  A space in front is kept. *)
Theorem normalizeName_shape (s : str) (final : bool) :
  let out := normalizeName s final in
  (length out <= 20)%nat /\ title_case false out = true /\
  no_adjacent is_js_space out = true /\
  (if final then ends_with is_js_space out = false else True) /\
  normalizeName (lit " bob") true = lit " Bob".
Proof.
  cbv zeta. rewrite normalizeName_unfold.
  destruct s as [| c0 s0].
  - repeat split; try (cbn; lia). now destruct final.
  - pose proof (name_core_ok (c0 :: s0)) as Hok.
    destruct final.
    + destruct (name_ok_strip _ Hok) as (Hl & Ht & Ha).
      repeat split; try assumption. apply strip_trailing_end.
    + destruct Hok as (Hl & Ht & Ha). repeat split; assumption.
Qed.

(** X21: normalizing a name twice is normalizing it once, with [final] set
    if it was set either time; so [normalizeName] is idempotent for each
    value of [final]. *)
Theorem normalizeName_twice (s : str) (final1 final2 : bool) :
  normalizeName (normalizeName s final1) final2 =
  normalizeName s (final1 || final2).
Proof.
  rewrite (normalizeName_unfold s), (normalizeName_unfold s).
  destruct s as [| c0 s0]; [reflexivity |].
  pose proof (name_core_ok (c0 :: s0)) as Hok.
  destruct final1; cbn [orb].
  - rewrite (normalizeName_fixed _ _ (name_ok_strip _ Hok)).
    destruct final2; [| reflexivity].
    apply strip_trailing_id, strip_trailing_end.
  - now apply normalizeName_fixed.
Qed.

(** ** [big2str] and [bigxnum2big] on signed amounts *)

Lemma BigInt_toString_neg (a : Z) :
  0 < a -> BigInt_toString (- a) = chr_minus :: digits a.
Proof.
  intros H. unfold BigInt_toString.
  destruct (Z.ltb_spec (- a) 0); [| lia]. now rewrite Z.opp_involutive.
Qed.

(** X22: [big2str] has no case for the sign.  For a negative amount [- a]
    the result is the minus sign and [big2str a decimals] only when [a]
    has more digits than [decimals]; with exactly [decimals] digits it is
    [-.] and the digits, and with fewer the minus sign is padded like a
    digit and lands behind the point.  With [decimals = 0] the result ends
    in a bare point. *)
Theorem big2str_negative (a : Z) (d : nat) :
  0 < a ->
  let len := length (digits a) in
  big2str (- a) d =
    (if (d <? len)%nat then chr_minus :: big2str a d
     else if (d =? len)%nat then lit "-." ++ digits a
     else lit "0." ++ repeat chr_zero (d - len - 1) ++ chr_minus :: digits a) /\
  big2str a 0 = digits a ++ lit ".".
Proof.
  intros Ha len. pose proof (digits_length_pos a ltac:(lia)) as Hp.
  fold len in Hp. split.
  - unfold big2str at 1. rewrite (BigInt_toString_neg a Ha). cbv zeta.
    unfold padStart. cbn [length]. fold len.
    destruct (Nat.ltb_spec d len) as [L | L].
    + replace (d - S len)%nat with 0%nat by lia. cbn [repeat app length].
      fold len. destruct (Nat.eqb_spec (S len - d) 0); [lia |].
      rewrite (big2str_long a d) by (lia || exact L). fold len.
      unfold slice, slice_from. cbn [skipn]. rewrite Nat.sub_0_r.
      replace (S len - d)%nat with (S (len - d)) by lia. reflexivity.
    + destruct (Nat.eqb_spec d len) as [E | N].
      * subst d. replace (len - S len)%nat with 0%nat by lia.
        cbn [repeat app length]. fold len.
        replace (S len - len)%nat with 1%nat by lia. reflexivity.
      * rewrite length_app, repeat_length. cbn [length]. fold len.
        replace (d - S len + S len - d)%nat with 0%nat by lia.
        cbn [Nat.eqb]. now replace (d - len - 1)%nat with (d - S len)%nat by lia.
  - rewrite big2str_long by lia.
    now rewrite Nat.sub_0_r, firstn_all, skipn_all.
Qed.

Lemma big2str_negative_witness :
  0 < 5 /\ big2str (- 5) 3 = lit "0.0-5" /\ big2str (- 5) 1 = lit "-.5" /\
  big2str (- 1234) 2 = lit "-12.34".
Proof.
  refine (conj _ (conj (proj1 (big2str_negative 5 3 _))
           (conj (proj1 (big2str_negative 5 1 _))
                 (proj1 (big2str_negative 1234 2 _))))); lia.
Defined.

(** X23: [bigxnum2big] is odd in the amount: for any factor, the result
    for [- amount] is the negated result for [amount], and it throws for
    the one exactly when it throws for the other.  The division truncates
    toward zero, it does not floor. *)
Theorem bigxnum2big_opp (pow10 : nat -> float) (amount : Z) (factor : str) :
  bigxnum2big pow10 (- amount) factor =
    option_map Z.opp (bigxnum2big pow10 amount factor) /\
  bigxnum2big pow10 (- 1) (lit "0.5") = Some 0.
Proof.
  split; [| reflexivity].
  unfold bigxnum2big. cbv zeta.
  destruct (indexOf_dot (strip_dot_zeros (trim factor))) as [i |].
  - destruct (BigInt_of_str _) as [f |]; [| reflexivity].
    destruct (BigInt_of_Number _) as [p |]; [| reflexivity].
    cbn [option_map]. f_equal. rewrite Z.mul_opp_r.
    destruct (Z.eq_dec p 0) as [-> | N].
    + generalize (f * amount). intros x. now destruct x.
    + now apply Z.quot_opp_l.
  - destruct (BigInt_of_str _) as [f |]; [| reflexivity].
    cbn [option_map]. f_equal. apply Z.mul_opp_r.
Qed.
